(** * APK metrics dashboard: report parsing and cumulative timeline

    A shallow embedding of [scripts/generate_apk_metrics_dashboard.py]:
    the unit value parsers [parse_size_value] and [parse_number_value],
    the report parser [parse_diffuse_slim_report], the timeline builder
    [build_cumulative_data] and [main] with its report loop, together
    with the parts of the Python runtime they call ([str.strip],
    [str.split], [re.search], [float], [int], [sorted]).  Around it, the
    slim reports that [scripts/generate_apk_trend_report.py] writes for
    the parser ([generate_slim_report]) and the sessions that
    [docs/calculate_dev_time.py] cuts the commit history into
    ([calculate_sessions]). *)

From stdpp Require Import base option list gmap.
From Stdlib Require Import ZArith NArith Floats.SpecFloat.
From Stdlib Require Ascii String.
Import String.StringSyntax.
Delimit Scope string_scope with string.
From Stdlib Require Import Sorting.Sorted Sorting.Permutation Lia.

Local Open Scope Z_scope.
Local Open Scope list_scope.

(** ** Python strings

    A Python [str] is a sequence of Unicode code points.  Literals are
    written as UTF-8 strings and decoded by [u]. *)

Module PyStr.

Abbreviation str := (list N).

Fixpoint utf8_decode (bs : list N) : list N :=
  match bs with
  | [] => []
  | b :: bs' =>
      if (b <? 128)%N then b :: utf8_decode bs'
      else if (b <? 224)%N then
        match bs' with
        | b1 :: r => ((b - 192) * 64 + (b1 - 128))%N :: utf8_decode r
        | _ => []
        end
      else if (b <? 240)%N then
        match bs' with
        | b1 :: b2 :: r =>
            ((b - 224) * 4096 + (b1 - 128) * 64 + (b2 - 128))%N :: utf8_decode r
        | _ => []
        end
      else
        match bs' with
        | b1 :: b2 :: b3 :: r =>
            ((b - 240) * 262144 + (b1 - 128) * 4096 + (b2 - 128) * 64
             + (b3 - 128))%N :: utf8_decode r
        | _ => []
        end
  end.

Definition u (s : String.string) : list N :=
  utf8_decode (map Ascii.N_of_ascii (String.list_ascii_of_string s)).
Arguments u s%_string.

(** Named code points used by the scripts. *)
Definition LF : N := 10.          (* '\n' *)
Definition DOT : N := 46.         (* '.' *)
Definition COMMA : N := 44.       (* ',' *)
Definition PLUS : N := 43.        (* '+' *)
Definition MINUS : N := 45.       (* '-' *)
Definition BOX_V : N := 9474.     (* U+2502, the column separator *)
Definition BOX_H : N := 9472.     (* U+2500, the border rule *)
Definition ARROW : N := 8594.     (* U+2192 *)

(** [str.isspace] on one code point, which is also the class [\s] of a
    [str] pattern (Py_UNICODE_ISSPACE). *)
Definition is_space (c : N) : bool :=
  ((9 <=? c) && (c <=? 13) || (28 <=? c) && (c <=? 32)
   || (c =? 133) || (c =? 160) || (c =? 5760)
   || (8192 <=? c) && (c <=? 8202)
   || (c =? 8232) || (c =? 8233) || (c =? 8239) || (c =? 8287)
   || (c =? 12288))%N.

(** First code point of every run of ten decimal digits (general
    category Nd, Unicode 14). *)
Definition decimal_bases : list N :=
  [48; 1632; 1776; 1984; 2406; 2534; 2662; 2790; 2918; 3046; 3174; 3302;
   3430; 3558; 3664; 3792; 3872; 4160; 4240; 6112; 6160; 6470; 6608; 6784;
   6800; 6992; 7088; 7232; 7248; 42528; 43216; 43264; 43472; 43504; 43600;
   44016; 65296; 66720; 68912; 69734; 69872; 69942; 70096; 70384; 70736;
   70864; 71248; 71360; 71472; 71904; 72016; 72784; 73040; 73120; 92768;
   92864; 93008; 120782; 120792; 120802; 120812; 120822; 123200; 123632;
   125264; 130032]%N.

(** Py_UNICODE_TODECIMAL: the digit value of a decimal digit. *)
Fixpoint decimal_in (bases : list N) (c : N) : option N :=
  match bases with
  | [] => None
  | b :: bases' =>
      if ((b <=? c) && (c <? b + 10))%N then Some (c - b)%N
      else decimal_in bases' c
  end.

Definition to_decimal (c : N) : option N := decimal_in decimal_bases c.

(** The class [\d] of a [str] pattern. *)
Definition is_digit (c : N) : bool :=
  match to_decimal c with Some _ => true | None => false end.

Fixpoint drop_while (p : N -> bool) (s : list N) : list N :=
  match s with
  | [] => []
  | c :: s' => if p c then drop_while p s' else s
  end.

(** The longest head of [s] made of code points of [p]. *)
Fixpoint take_while (p : N -> bool) (s : list N) : list N :=
  match s with
  | [] => []
  | c :: s' => if p c then c :: take_while p s' else []
  end.

Definition lstrip (s : list N) : list N := drop_while is_space s.
Definition rstrip (s : list N) : list N := reverse (drop_while is_space (reverse s)).

(** [s.strip()] *)
Definition strip (s : list N) : list N := rstrip (lstrip s).

(** [s.split(sep)] for a separator of one code point. *)
Fixpoint split (sep : N) (s : list N) : list (list N) :=
  match s with
  | [] => [[]]
  | c :: s' =>
      if (c =? sep)%N then [] :: split sep s'
      else match split sep s' with
           | cell :: cells => (c :: cell) :: cells
           | [] => [[c]]
           end
  end.

(** [c in s] for one code point. *)
Definition contains (c : N) (s : list N) : bool := existsb (N.eqb c) s.

(** [a == b] on strings. *)
Definition str_eqb (a b : list N) : bool := bool_decide (a = b).

(** The decimal digits of [str(n)] for a count [n]. *)
Fixpoint uint_codes (d : Decimal.uint) : str :=
  match d with
  | Decimal.Nil => []
  | Decimal.D0 d' => 48%N :: uint_codes d'
  | Decimal.D1 d' => 49%N :: uint_codes d'
  | Decimal.D2 d' => 50%N :: uint_codes d'
  | Decimal.D3 d' => 51%N :: uint_codes d'
  | Decimal.D4 d' => 52%N :: uint_codes d'
  | Decimal.D5 d' => 53%N :: uint_codes d'
  | Decimal.D6 d' => 54%N :: uint_codes d'
  | Decimal.D7 d' => 55%N :: uint_codes d'
  | Decimal.D8 d' => 56%N :: uint_codes d'
  | Decimal.D9 d' => 57%N :: uint_codes d'
  end.

Definition str_of_nat (n : nat) : str := uint_codes (Nat.to_uint n).

End PyStr.
Import PyStr.

(** ** Exceptions

    The exceptions the modelled code can raise, with the text [str(e)]
    of each, and the monad that carries them. *)

Inductive exn :=
| ValueError_float (s : str)   (* float(s) on a malformed literal *)
| ValueError_int (s : str)     (* int(s) on a malformed literal *)
| ValueError_int_limit (n : nat)  (* int(s) on a literal of n digits, over the limit *)
| IndexError                   (* l[0] on an empty list *)
| TypeError_lt.                (* '<' between None and another key *)

Definition Err (A : Type) : Type := exn + A.
Definition ok {A} (x : A) : Err A := inr x.
Definition raise {A} (e : exn) : Err A := inl e.
Definition ebind {A B} (m : Err A) (f : A -> Err B) : Err B :=
  match m with inl e => inl e | inr x => f x end.

Notation "'let*' x ':=' m 'in' k" := (ebind m (fun x => k))
  (at level 10, x name, m at level 100, k at level 200).

(** A [for] loop that threads its state and stops at the first exception. *)
Fixpoint for_each {A S} (body : A -> S -> Err S) (l : list A) (st : S) : Err S :=
  match l with
  | [] => ok st
  | x :: l' => let* st' := body x st in for_each body l' st'
  end.

Definition exn_message (e : exn) : str :=
  match e with
  | ValueError_float s =>
      u "could not convert string to float: '" ++ s ++ u "'"
  | ValueError_int s =>
      u "invalid literal for int() with base 10: '" ++ s ++ u "'"
  | ValueError_int_limit n =>
      u "Exceeds the limit (4300 digits) for integer string conversion: value has "
      ++ str_of_nat n
      ++ u " digits; use sys.set_int_max_str_digits() to increase the limit"
  | IndexError => u "list index out of range"
  | TypeError_lt => u "'<' not supported between instances of 'NoneType' and 'int'"
  end.

(** ** Regular expressions

    A backtracking matcher with the priorities of Python's [re]: the
    alternatives of [|] are tried left to right, a greedy repetition tries
    one more iteration before it tries to stop, a lazy one tries to stop
    first, and [re.search] returns the match at the leftmost start. *)

Module Re.

Inductive atom :=
| AChar (c : N)     (* a literal code point *)
| ADigit            (* \d *)
| ASpace            (* \s *)
| AAny.             (* . under re.DOTALL *)

Definition atom_ok (a : atom) (c : N) : bool :=
  match a with
  | AChar c' => (c =? c')%N
  | ADigit => is_digit c
  | ASpace => is_space c
  | AAny => true
  end.

Inductive regex :=
| Eps
| Set_ (l : list atom)              (* one code point of a set [...] *)
| Cat (r1 r2 : regex)
| Alt (r1 r2 : regex)               (* r1|r2 *)
| Star (greedy : bool) (r : regex)  (* r* and r*? *)
| Group (i : nat) (r : regex)       (* the i-th capturing group *)
| Eos.                              (* $ without re.MULTILINE *)

Definition set_ok (l : list atom) (c : N) : bool :=
  existsb (fun a => atom_ok a c) l.

Definition Chr (c : N) : regex := Set_ [AChar c].
Definition Plus (r : regex) : regex := Cat r (Star true r).   (* r+ *)
Definition Opt (r : regex) : regex := Alt r Eps.               (* r? *)
Fixpoint Lit (s : str) : regex :=
  match s with
  | [] => Eps
  | c :: s' => Cat (Chr c) (Lit s')
  end.
Fixpoint Seq (l : list regex) : regex :=
  match l with
  | [] => Eps
  | r :: l' => Cat r (Seq l')
  end.

(** Captured groups, most recent first. *)
Definition caps := list (nat * str).

Fixpoint group (i : nat) (g : caps) : option str :=
  match g with
  | [] => None
  | (j, s) :: g' => if Nat.eqb i j then Some s else group i g'
  end.

Section Run.
Context {R : Type}.

(** The iterations of a repetition: [body] matches one iteration and
    [k] is what follows the repetition.  The repeated patterns of the
    script match one code point or more, so an iteration consumes text
    and the length of the text on entry bounds the number of
    iterations. *)
Fixpoint star_loop (greedy : bool)
    (body : (str -> caps -> option R) -> str -> caps -> option R)
    (k : str -> caps -> option R) (fuel : nat) (s : str) (g : caps)
  {struct fuel} : option R :=
  match fuel with
  | O => k s g
  | S fuel' =>
      if greedy then
        match body (fun s' g' =>
                 if (length s' <? length s)%nat
                 then star_loop greedy body k fuel' s' g' else None) s g with
        | Some x => Some x
        | None => k s g
        end
      else
        match k s g with
        | Some x => Some x
        | None =>
            body (fun s' g' =>
                 if (length s' <? length s)%nat
                 then star_loop greedy body k fuel' s' g' else None) s g
        end
  end.

(** [run r k s g]: match [r] at the head of [s] and hand the rest of the
    text and the groups captured so far to the continuation [k]; [None]
    makes the matcher backtrack. *)
Fixpoint run (r : regex) (k : str -> caps -> option R) (s : str) (g : caps)
  {struct r} : option R :=
  match r with
  | Eps => k s g
  | Set_ l =>
      match s with
      | c :: s' => if set_ok l c then k s' g else None
      | [] => None
      end
  | Cat r1 r2 => run r1 (run r2 k) s g
  | Alt r1 r2 =>
      match run r1 k s g with
      | Some x => Some x
      | None => run r2 k s g
      end
  | Star greedy r1 => star_loop greedy (run r1) k (length s) s g
  | Group i r1 =>
      run r1 (fun s' g' => k s' ((i, take (length s - length s') s) :: g')) s g
  | Eos =>
      match s with
      | [] => k s g
      | [c] => if (c =? LF)%N then k s g else None
      | _ => None
      end
  end.

End Run.

(** [re.search(r, s)]: the groups of the leftmost match. *)
Fixpoint search (r : regex) (s : str) : option caps :=
  match run r (fun _ g => Some g) s [] with
  | Some g => Some g
  | None =>
      match s with
      | [] => None
      | _ :: s' => search r s'
      end
  end.

End Re.
Import Re.

(** ** Numbers

    A Python [float] is an IEEE 754 binary64 number: [spec_float] at
    precision 53 and maximal exponent 1024.  A Python [int] is a [Z]. *)

Module PyNum.

Abbreviation float := spec_float.

Definition fdiv (x y : float) : float := SFdiv 53 1024 x y.     (* x / y *)
Definition float_of_int (n : Z) : float := binary_normalize 53 1024 n 0 false.

(** The value of a run of decimal digits, [None] when some code point is
    not a decimal digit. *)
Fixpoint digits_from (acc : N) (s : str) : option N :=
  match s with
  | [] => Some acc
  | c :: s' =>
      match to_decimal c with
      | Some d => digits_from (10 * acc + d) s'
      | None => None
      end
  end.

Definition digits (s : str) : option N :=
  match s with
  | [] => None
  | _ => digits_from 0 s
  end.

(** [n / 10^k] rounded to the nearest binary64 number, ties to even. *)
Definition float_of_decimal (n : N) (k : nat) : float :=
  match n with
  | N0 => S754_zero false
  | Npos _ =>
      let '(mz, ez, lz) :=
        SFdiv_core_binary 53 1024 (Z.of_N n) 0 (10 ^ Z.of_nat k) 0 in
      binary_round_aux 53 1024 false mz ez lz
  end.

(** [float(s)] on the texts the pattern of [parse_size_value] can capture,
    which are runs of decimal digits and dots: an integer part, and at most
    one dot followed by a fraction, with a digit in one of the two.  Any
    other text raises ValueError. *)
Definition py_float (s : str) : Err float :=
  match split DOT s with
  | [ip] =>
      match digits ip with
      | Some n => ok (float_of_decimal n 0)
      | None => raise (ValueError_float s)
      end
  | [ip; fp] =>
      match digits (ip ++ fp) with
      | Some n => ok (float_of_decimal n (length fp))
      | None => raise (ValueError_float s)
      end
  | _ => raise (ValueError_float s)
  end.

(** [sys.get_int_max_str_digits()]: the limit of the interpreter on the
    digits of a decimal literal that [int] converts, at its default. *)
Definition int_max_str_digits : nat := 4300.

(** The digits of the literal [s] of [int(s)], which stand behind its
    sign: the run of digits at their head is counted against the limit
    before anything is converted or rejected as malformed. *)
Definition int_digits (s body : str) : Err N :=
  let n := length (take_while is_digit body) in
  if (int_max_str_digits <? n)%nat then raise (ValueError_int_limit n)
  else
    match digits body with
    | Some v => ok v
    | None => raise (ValueError_int s)
    end.

(** [int(s)] on the texts the patterns of the script can capture: an
    optional sign and a run of decimal digits, of which the interpreter
    converts no more than [int_max_str_digits]. *)
Definition py_int (s : str) : Err Z :=
  match s with
  | c :: s' =>
      if (c =? PLUS)%N then let* n := int_digits s s' in ok (Z.of_N n)
      else if (c =? MINUS)%N then let* n := int_digits s s' in ok (- Z.of_N n)
      else let* n := int_digits s s in ok (Z.of_N n)
  | [] => raise (ValueError_int s)
  end.

(** [s.replace(c, '')] for one code point [c]. *)
Definition remove (c : N) (s : str) : str :=
  filter (fun x => x ≠ c) s.

(** Truth value of an [Optional[float]]: [None] and zero are false. *)
Definition truthy (o : option float) : bool :=
  match o with
  | None => false
  | Some (S754_zero _) => false
  | Some _ => true
  end.

End PyNum.
Import PyNum.

(** ** The script *)

Definition digit_or_dot : regex := Set_ [ADigit; AChar DOT].   (* [\d.] *)
Definition space : regex := Set_ [ASpace].                     (* \s *)
Definition digit : regex := Set_ [ADigit].                     (* \d *)
Definition lazy_any : regex := Star false (Set_ [AAny]).       (* .*? *)

(** [([\d.]+)\s*(MiB|KiB|B)] *)
Definition size_re : regex :=
  Seq [Group 1 (Plus digit_or_dot); Star true space;
       Group 2 (Alt (Lit (u "MiB")) (Alt (Lit (u "KiB")) (Lit (u "B"))))].

(** [m.group(i)] of a group that took part in the match. *)
Definition group_of (i : nat) (m : caps) : str := default [] (group i m).

Definition parse_size_value (size_str : str) : Err (option float) :=
  match size_str with
  | [] => ok None
  | _ =>
      match search size_re (strip size_str) with
      | None => ok None
      | Some m =>
          let* value := py_float (group_of 1 m) in
          let unit := group_of 2 m in
          if str_eqb unit (u "MiB") then ok (Some value)
          else if str_eqb unit (u "KiB") then
            ok (Some (fdiv value (float_of_int 1024)))
          else if str_eqb unit (u "B") then
            ok (Some (fdiv value (float_of_int (1024 * 1024))))
          else ok None
      end
  end.

(** The pattern of [parse_number_value]: one capturing group around
    [[+-]?\d+(?:,\d+)*]. *)
Definition number_re : regex :=
  Group 1
    (Seq [Opt (Set_ [AChar PLUS; AChar MINUS]); Plus digit;
          Star true (Seq [Chr COMMA; Plus digit])]).

Definition parse_number_value (num_str : str) : Err (option Z) :=
  match num_str with
  | [] => ok None
  | _ =>
      match search number_re (strip num_str) with
      | None => ok None
      | Some m =>
          let* n := py_int (remove COMMA (group_of 1 m)) in
          ok (Some n)
      end
  end.

(** *** Parsed reports *)

Record ApkSizes := {
  compressed : gmap (list N) float;
  uncompressed : gmap (list N) float
}.

Record ParsedReport := {
  old_version : str;
  new_version : str;
  old_version_code : option Z;
  new_version_code : option Z;
  apk_sizes : ApkSizes;
  dex_metrics : gmap (list N) Z;
  arsc_metrics : gmap (list N) Z
}.

(** What [log_info], [log_success] and [log_error] print, without the
    colour codes. *)
Inductive log_line :=
| LogInfo (message : str)
| LogSuccess (message : str)
| LogError (message : str).

(** [Diffuse Comparison:\s+([\d.]+)\s+→\s+([\d.]+)] *)
Definition version_re : regex :=
  Seq [Lit (u "Diffuse Comparison:"); Plus space; Group 1 (Plus digit_or_dot);
       Plus space; Chr ARROW; Plus space; Group 2 (Plus digit_or_dot)].

(** [version code\s+│\s+(\d+)\s+│\s+(\d+)] *)
Definition version_code_re : regex :=
  Seq [Lit (u "version code"); Plus space; Chr BOX_V; Plus space;
       Group 1 (Plus digit); Plus space; Chr BOX_V; Plus space;
       Group 2 (Plus digit)].

Definition border : regex := Lit [BOX_H; BOX_H; BOX_H].        (* ─── *)

(** [APK\s+│.*?compressed.*?│.*?uncompressed.*?\n.*?───.*?\n(.*?)\n.*?───]
    under re.DOTALL *)
Definition apk_re : regex :=
  Seq [Lit (u "APK"); Plus space; Chr BOX_V; lazy_any; Lit (u "compressed");
       lazy_any; Chr BOX_V; lazy_any; Lit (u "uncompressed"); lazy_any;
       Chr LF; lazy_any; border; lazy_any; Chr LF;
       Group 1 lazy_any; Chr LF; lazy_any; border].

(** [DEX\s+│.*?\n.*?───.*?\n(.*?)(?:\n\s*\n|\n.*?ARSC)] under re.DOTALL *)
Definition dex_re : regex :=
  Seq [Lit (u "DEX"); Plus space; Chr BOX_V; lazy_any; Chr LF; lazy_any;
       border; lazy_any; Chr LF; Group 1 lazy_any;
       Alt (Seq [Chr LF; Star true space; Chr LF])
           (Seq [Chr LF; lazy_any; Lit (u "ARSC")])].

(** [ARSC\s+│.*?\n.*?───.*?\n(.*?)(?:\n\s*\n|$)] under re.DOTALL *)
Definition arsc_re : regex :=
  Seq [Lit (u "ARSC"); Plus space; Chr BOX_V; lazy_any; Chr LF; lazy_any;
       border; lazy_any; Chr LF; Group 1 lazy_any;
       Alt (Seq [Chr LF; Star true space; Chr LF]) Eos].

(** [parts[i]] once [len(parts)] is known to exceed [i]. *)
Definition cell (i : nat) (parts : list str) : str := nth i parts [].

(** [if v: d[k] = v] *)
Definition put_size (k : str) (v : option float) (d : gmap (list N) float)
  : gmap (list N) float :=
  match v with
  | Some x => if truthy v then <[k := x]> d else d
  | None => d
  end.

(** The body of the loop over the lines of the APK table. *)
Definition apk_row (line : str) (sizes : ApkSizes) : Err ApkSizes :=
  if negb (contains BOX_V line) then ok sizes
  else
    let parts := map strip (split BOX_V line) in
    if (length parts <? 7)%nat then ok sizes
    else
      let component := strip (cell 0 parts) in
      if bool_decide (component = []) || str_eqb component (u "total") then
        if str_eqb component (u "total") then
          let* new_compressed := parse_size_value (cell 2 parts) in
          let* new_uncompressed := parse_size_value (cell 5 parts) in
          ok {| compressed := put_size (u "total") new_compressed (compressed sizes);
                uncompressed := put_size (u "total") new_uncompressed (uncompressed sizes) |}
        else ok sizes
      else
        let* new_compressed := parse_size_value (cell 2 parts) in
        let* new_uncompressed := parse_size_value (cell 5 parts) in
        ok {| compressed := put_size component new_compressed (compressed sizes);
              uncompressed := put_size component new_uncompressed (uncompressed sizes) |}.

(** The body of the loops over the lines of the DEX and ARSC tables, for
    the list [known] of accepted metric names. *)
Definition count_row (known : list str) (line : str) (metrics : gmap (list N) Z)
  : Err (gmap (list N) Z) :=
  if negb (contains BOX_V line) then ok metrics
  else
    let parts := map strip (split BOX_V line) in
    if (length parts <? 3)%nat then ok metrics
    else
      let metric := strip (cell 0 parts) in
      if bool_decide (metric ∈ known) then
        let* new_value := parse_number_value (cell 2 parts) in
        match new_value with
        | Some n => ok (<[metric := n]> metrics)
        | None => ok metrics
        end
      else ok metrics.

Definition dex_names : list str :=
  [u "files"; u "strings"; u "types"; u "classes"; u "methods"; u "fields"].
Definition arsc_names : list str := [u "configs"; u "entries"].

(** [table_content.strip().split('\n')] *)
Definition table_lines (m : caps) : list str := split LF (strip (group_of 1 m)).

(** The body of the [try] block of [parse_diffuse_slim_report], on the
    name of the file and the text [read_text] returned. *)
Definition parse_body (name content : str)
  : Err (option ParsedReport * list log_line) :=
  match search version_re content with
  | None => ok (None, [LogError (u "Could not find version info in " ++ name)])
  | Some version_match =>
      let old_version := group_of 1 version_match in
      let new_version := group_of 2 version_match in
      let version_code_match := search version_code_re content in
      let* old_version_code :=
        match version_code_match with
        | Some m => let* n := py_int (group_of 1 m) in ok (Some n)
        | None => ok None
        end in
      let* new_version_code :=
        match version_code_match with
        | Some m => let* n := py_int (group_of 2 m) in ok (Some n)
        | None => ok None
        end in
      let* apk_sizes :=
        match search apk_re content with
        | Some m =>
            for_each apk_row (table_lines m)
              {| compressed := ∅; uncompressed := ∅ |}
        | None => ok {| compressed := ∅; uncompressed := ∅ |}
        end in
      let* dex_metrics :=
        match search dex_re content with
        | Some m => for_each (count_row dex_names) (table_lines m) ∅
        | None => ok ∅
        end in
      let* arsc_metrics :=
        match search arsc_re content with
        | Some m => for_each (count_row arsc_names) (table_lines m) ∅
        | None => ok ∅
        end in
      ok (Some {| old_version := old_version;
                  new_version := new_version;
                  old_version_code := old_version_code;
                  new_version_code := new_version_code;
                  apk_sizes := apk_sizes;
                  dex_metrics := dex_metrics;
                  arsc_metrics := arsc_metrics |}, [])
  end.

(** [parse_diffuse_slim_report]: every exception of the body is caught,
    logged, and turned into [None]. *)
Definition parse_diffuse_slim_report (name content : str)
  : option ParsedReport * list log_line :=
  match parse_body name content with
  | inr res => res
  | inl e =>
      (None, [LogError (u "Failed to parse " ++ name ++ u ": " ++ exn_message e)])
  end.

(** The loop of [main] over the report files, each given by its name and
    its text: the reports parsed so far and the lines logged. *)
Fixpoint parse_reports (slim_files : list (str * str))
  : list ParsedReport * list log_line :=
  match slim_files with
  | [] => ([], [])
  | (name, content) :: rest =>
      let '(parsed, log) := parse_diffuse_slim_report name content in
      let '(parsed_reports, log') := parse_reports rest in
      match parsed with
      | Some r =>
          (r :: parsed_reports,
           LogInfo (u "Parsing " ++ name ++ u "...") :: log
           ++ LogSuccess (u "  ✓ " ++ old_version r ++ u " → " ++ new_version r)
           :: log')
      | None =>
          (parsed_reports, LogInfo (u "Parsing " ++ name ++ u "...") :: log ++ log')
      end
  end.

(** *** The timeline *)

(** One entry of the list [build_cumulative_data] returns. *)
Module Snapshot.
Record t := mk {
  version : str;
  versionCode : option Z;
  compressed : gmap (list N) float;
  uncompressed : gmap (list N) float;
  dex : gmap (list N) Z;
  arsc : gmap (list N) Z
}.
End Snapshot.

(** [a < b] on two sort keys: only two integers can be compared. *)
Definition key_lt (a b : option Z) : Err bool :=
  match a, b with
  | Some x, Some y => ok (x <? y)
  | _, _ => raise TypeError_lt
  end.

Section Sorted.
Context {A : Type} (key : A -> option Z).

(** Insert [x] behind the items of the ordered list [l] whose keys are
    not larger: [x] moves before [y] only when [key x < key y]. *)
Fixpoint insert_by (x : A) (l : list A) : Err (list A) :=
  match l with
  | [] => ok [x]
  | y :: l' =>
      let* lt := key_lt (key x) (key y) in
      if lt then ok (x :: l)
      else let* l'' := insert_by x l' in ok (y :: l'')
  end.

(** [sorted(l, key=key)], as an insertion sort: like [list.sort] it is
    stable, compares keys with [<] only, and compares every item of a
    list of two or more at least once, so it returns the same list and
    raises on the same lists. *)
Definition py_sorted (l : list A) : Err (list A) :=
  for_each insert_by l [].

End Sorted.

Definition seed_snapshot (r : ParsedReport) : Snapshot.t :=
  {| Snapshot.version := old_version r;
     Snapshot.versionCode := old_version_code r;
     Snapshot.compressed := compressed (apk_sizes r);
     Snapshot.uncompressed := uncompressed (apk_sizes r);
     Snapshot.dex := dex_metrics r;
     Snapshot.arsc := arsc_metrics r |}.

Definition new_snapshot (r : ParsedReport) : Snapshot.t :=
  {| Snapshot.version := new_version r;
     Snapshot.versionCode := new_version_code r;
     Snapshot.compressed := compressed (apk_sizes r);
     Snapshot.uncompressed := uncompressed (apk_sizes r);
     Snapshot.dex := dex_metrics r;
     Snapshot.arsc := arsc_metrics r |}.

Definition build_cumulative_data (parsed_reports : list ParsedReport)
  : Err (list Snapshot.t) :=
  match parsed_reports with
  | [] => ok []
  | _ =>
      let* sorted_reports := py_sorted new_version_code parsed_reports in
      match sorted_reports with
      | [] => raise IndexError
      | first_report :: _ =>
          ok (seed_snapshot first_report :: map new_snapshot sorted_reports)
      end
  end.

(** * The vocabulary of the statements

    What the properties below are stated with: orders on sort keys,
    chains of reports, the shapes of texts that the specification names,
    what a pattern matches, and the reports of the examples. *)

(** ** Sort keys and chains of reports *)

(** Sort keys: an item has a key, and the orders [<=] and [<] on items
    whose keys are both integers. *)
Definition has_key {A} (key : A -> option Z) (a : A) : Prop := is_Some (key a).

Definition key_le {A} (key : A -> option Z) (a b : A) : Prop :=
  match key a, key b with
  | Some x, Some y => x <= y
  | _, _ => False
  end.

Definition key_less {A} (key : A -> option Z) (a b : A) : Prop :=
  match key a, key b with
  | Some x, Some y => x < y
  | _, _ => False
  end.

(** The first of the least items of a list: [x] stands in [l], the items
    before it have larger keys, and the items behind it have keys that are
    not smaller.  The item of a list of one is it whatever its key. *)
Definition first_least {A} (key : A -> option Z) (x : A) (l : list A) : Prop :=
  exists before after,
    l = before ++ x :: after
    /\ Forall (key_less key x) before
    /\ Forall (key_le key x) after.

(** A report compares forward: both codes are known and the new one is
    the larger. *)
Definition forward (r : ParsedReport) : Prop :=
  match old_version_code r, new_version_code r with
  | Some a, Some b => a < b
  | _, _ => False
  end.

(** An unbroken chain of reports: the old side of each report is the new
    side of the one before it. *)
Inductive chained : list ParsedReport -> Prop :=
| chained_one r : forward r -> chained [r]
| chained_cons r r' rs :
    forward r ->
    old_version r' = new_version r ->
    old_version_code r' = new_version_code r ->
    chained (r' :: rs) ->
    chained (r :: r' :: rs).

(** [a < b] on two version codes that are both known. *)
Definition code_lt (a b : option Z) : Prop :=
  match a, b with
  | Some x, Some y => x < y
  | _, _ => False
  end.

(** What [build_cumulative_data] returns on a list that [sorted] puts in
    the order [first :: rest]. *)
Definition timeline_of (first : ParsedReport) (rest : list ParsedReport)
  : list Snapshot.t :=
  seed_snapshot first :: map new_snapshot (first :: rest).

(** ** Code points and texts *)

(** The code points of [is_space], one by one. *)
Definition spaces : list N :=
  [9; 10; 11; 12; 13; 28; 29; 30; 31; 32; 133; 160; 5760; 8192; 8193; 8194;
   8195; 8196; 8197; 8198; 8199; 8200; 8201; 8202; 8232; 8233; 8239; 8287;
   12288]%N.

(** The cells of a line put together again, the separator between them. *)
Fixpoint join (sep : N) (cells : list str) : str :=
  match cells with
  | [] => []
  | [x] => x
  | x :: cells' => x ++ sep :: join sep cells'
  end.

(** The text [s] does not begin with a code point of the class [p]. *)
Definition no_head (p : N -> bool) (s : str) : Prop :=
  match s with
  | c :: _ => p c = false
  | [] => True
  end.

(** [parts], and the key [parts[0].strip()], of a line of a table. *)
Definition row_cells (line : str) : list str := map strip (split BOX_V line).

Definition row_key (line : str) : str := strip (cell 0 (row_cells line)).

(** The size tables before the first row. *)
Definition no_sizes : ApkSizes := {| compressed := ∅; uncompressed := ∅ |}.

(** ** Decimal numbers and sizes *)

(** A decimal number: a run of digits, or an integer part, a dot and a
    fraction with a digit in one of the two.  Its value is [n / 10^k]. *)
Inductive decimal : str -> N -> nat -> Prop :=
| decimal_int ip n :
    digits ip = Some n -> decimal ip n 0
| decimal_frac ip fp n :
    digits (ip ++ fp) = Some n -> decimal (ip ++ DOT :: fp) n (length fp).

(** The three unit suffixes, each as what precedes its final B. *)
Definition unit_stems : list str := [u "Mi"; u "Ki"; []].

(** ** The first integer of a text

    [first_integer] follows the words of the specification: the first
    signed or unsigned integer of a text, made of contiguous digits with
    optional comma separators and an optional leading sign. *)

Definition is_sign (c : N) : bool := ((c =? PLUS) || (c =? MINUS))%N.

Definition starts_with_digit (s : str) : bool :=
  match s with
  | c :: _ => is_digit c
  | [] => false
  end.

(** What belongs to an integer behind one of its digits, and what is left
    of the text: further digits, and commas that a digit follows. *)
Fixpoint int_tail (s : str) : str * str :=
  match s with
  | [] => ([], [])
  | c :: s' =>
      if is_digit c then (c :: fst (int_tail s'), snd (int_tail s'))
      else if ((c =? COMMA)%N && starts_with_digit s')
      then (c :: fst (int_tail s'), snd (int_tail s'))
      else ([], s)
  end.

(** The text of the first integer: it begins at the first digit, or at
    a sign that stands right before the first digit. *)
Fixpoint first_integer_text (s : str) : option str :=
  match s with
  | [] => None
  | c :: s' =>
      if is_digit c then Some (c :: fst (int_tail s'))
      else if is_sign c && starts_with_digit s'
      then Some (c :: fst (int_tail s'))
      else first_integer_text s'
  end.

(** The digits of a text read in base ten, anything else skipped. *)
Fixpoint magnitude_from (acc : N) (s : str) : N :=
  match s with
  | [] => acc
  | c :: s' =>
      match to_decimal c with
      | Some d => magnitude_from (10 * acc + d) s'
      | None => magnitude_from acc s'
      end
  end.

(** The integer a text spells: a leading minus negates it. *)
Definition int_of_text (tok : str) : Z :=
  match tok with
  | c :: _ =>
      if (c =? MINUS)%N then - Z.of_N (magnitude_from 0 tok)
      else Z.of_N (magnitude_from 0 tok)
  | [] => 0
  end.

Definition first_integer (s : str) : option Z :=
  int_of_text <$> first_integer_text s.

(** The number of decimal digits of a text, and of its first integer. *)
Definition digit_count (s : str) : nat :=
  length (filter (fun c => is_digit c = true) s).

Definition first_integer_digits (s : str) : nat :=
  from_option digit_count 0%nat (first_integer_text s).

(** ** What a pattern matches

    [matches r s rest]: the pattern [r] matches the text [s] when [rest]
    follows it. *)

Inductive matches : regex -> str -> str -> Prop :=
| matches_eps rest : matches Eps [] rest
| matches_set l c rest : set_ok l c = true -> matches (Set_ l) [c] rest
| matches_cat r1 r2 s1 s2 rest :
    matches r1 s1 (s2 ++ rest) -> matches r2 s2 rest ->
    matches (Cat r1 r2) (s1 ++ s2) rest
| matches_alt_l r1 r2 s rest : matches r1 s rest -> matches (Alt r1 r2) s rest
| matches_alt_r r1 r2 s rest : matches r2 s rest -> matches (Alt r1 r2) s rest
| matches_star_nil b r rest : matches (Star b r) [] rest
| matches_star_cons b r s1 s2 rest :
    matches r s1 (s2 ++ rest) -> matches (Star b r) s2 rest ->
    matches (Star b r) (s1 ++ s2) rest
| matches_group i r s rest : matches r s rest -> matches (Group i r) s rest
| matches_eos rest : rest = [] \/ rest = [LF] -> matches Eos [] rest.

(** The capturing groups of a pattern, each with its number. *)
Fixpoint groups_of (r : regex) : list (nat * regex) :=
  match r with
  | Cat r1 r2 | Alt r1 r2 => groups_of r1 ++ groups_of r2
  | Star _ r1 => groups_of r1
  | Group i r1 => (i, r1) :: groups_of r1
  | _ => []
  end.

(** The groups every match of [r] captures. *)
Fixpoint sure (r : regex) : list nat :=
  match r with
  | Cat r1 r2 => sure r1 ++ sure r2
  | Group i r1 => i :: sure r1
  | _ => []
  end.

(** [g'] is [g] with groups that [r] captured put in front, those of
    [sure r] among them. *)
Definition caps_from (r : regex) (g g' : caps) : Prop :=
  exists new,
    g' = new ++ g
    /\ (forall i t, (i, t) ∈ new ->
          exists r' rest, (i, r') ∈ groups_of r /\ matches r' t rest)
    /\ (forall i, i ∈ sure r -> is_Some (group i new)).

(** Whatever the matcher finds with [r] is a match of [r], and the
    continuation has accepted what follows it. *)
Definition sound {R} (r : regex) : Prop :=
  forall (k : str -> caps -> option R) s g x, run r k s g = Some x ->
    exists s1 s2 g', s = s1 ++ s2 /\ matches r s1 s2
                     /\ caps_from r g g' /\ k s2 g' = Some x.

(** ** The comparison header *)

(** A run of whitespace, and a dotted version: both not empty. *)
Definition blank (s : str) : Prop :=
  s <> [] /\ Forall (fun c => is_space c = true) s.

Definition dotted (s : str) : Prop :=
  s <> [] /\ Forall (fun c => set_ok [ADigit; AChar DOT] c = true) s.

(** The text holds a header [Diffuse Comparison: <old> → <new>]. *)
Definition has_header (content : str) : Prop :=
  exists pre ws1 old ws2 ws3 new post,
    content = pre ++ u "Diffuse Comparison:" ++ ws1 ++ old ++ ws2
                  ++ ARROW :: ws3 ++ new ++ post
    /\ blank ws1 /\ dotted old /\ blank ws2 /\ blank ws3 /\ dotted new.

(** ** The reports of the examples *)

(** A report with nothing but its versions and version codes. *)
Definition report_of (old new : str) (old_code new_code : option Z)
  : ParsedReport :=
  {| old_version := old; new_version := new;
     old_version_code := old_code; new_version_code := new_code;
     apk_sizes := {| compressed := ∅; uncompressed := ∅ |};
     dex_metrics := ∅; arsc_metrics := ∅ |}.

Definition report_AB := report_of (u "1.0") (u "1.1") (Some 1) (Some 2).
Definition report_BC := report_of (u "1.1") (u "1.2") (Some 2) (Some 3).
Definition report_CD := report_of (u "1.2") (u "2.0") (Some 3) (Some 7).

(** A report without a version code row. *)
Definition report_uncoded := report_of (u "1.1") (u "1.2") None None.

(** A run of 4301 digits, one more than [int] converts, and a report
    whose old version code it is. *)
Definition long_number : str := replicate 4301 57%N.         (* '9' * 4301 *)

Definition long_code_report : str :=
  u "Diffuse Comparison: 1.0.0 → 1.0.1
 version code │ " ++ long_number ++ u " │ 11
".

(** A second report that ends at version 1.1, with the same code. *)
Definition report_AB' : ParsedReport :=
  report_of (u "1.0.9") (u "1.1") (Some 1) (Some 2).

(** A report without its header. *)
Definition headless_report : str := u
" DEX     │ old   │ new   │ diff
─────────┼───────┼───────┼───────────
 files   │     1 │     1 │ 0
".

(** A report whose APK table has a row for dex and a total row with a
    new compressed size of 5.9 MiB. *)
Definition total_report : str := u
"Diffuse Comparison: 1.0.0 → 1.0.1

 APK      │ compressed                     │ uncompressed
──────────┼───────────┬───────────┬────────┼───────────┬───────────┬────────
      dex │   3.1 MiB │   3.2 MiB │ +912 B │   7.1 MiB │   7.2 MiB │ +1 KiB
    total │   5.8 MiB │   5.9 MiB │ +912 B │  12.1 MiB │  12.2 MiB │ +1 KiB
──────────┴───────────┴───────────┴────────┴───────────┴───────────┴────────
".

(** The first line of that table as the parser sees it, and its total
    row. *)
Definition dex_row : str := u
"dex │   3.1 MiB │   3.2 MiB │ +912 B │   7.1 MiB │   7.2 MiB │ +1 KiB".

Definition total_row : str := u
"    total │   5.8 MiB │   5.9 MiB │ +912 B │  12.1 MiB │  12.2 MiB │ +1 KiB".

(** The same table with the total row alone. *)
Definition total_only_report : str := u
"Diffuse Comparison: 1.0.0 → 1.0.1

 APK      │ compressed                     │ uncompressed
──────────┼───────────┬───────────┬────────┼───────────┬───────────┬────────
    total │   5.8 MiB │   5.9 MiB │ +912 B │  12.1 MiB │  12.2 MiB │ +1 KiB
──────────┴───────────┴───────────┴────────┴───────────┴───────────┴────────
".

(** A report with a header and an ARSC table but no DEX section, whose
    dex row has a lone dot where the new compressed size should be. *)
Definition malformed_report : str := u
"Diffuse Comparison: 1.0.0 → 1.0.1

 APK      │ compressed                     │ uncompressed
──────────┼───────────┬───────────┬────────┼───────────┬───────────┬────────
      dex │   3.1 MiB │     . MiB │ +912 B │   7.1 MiB │   7.2 MiB │ +1 KiB
──────────┴───────────┴───────────┴────────┴───────────┴───────────┴────────

 ARSC    │ old │ new │ diff
─────────┼─────┼─────┼──────
 configs │ 108 │ 108 │ 0
".

(** * The scripts around the parser

    The entry point of the dashboard script, the slim reports that
    [scripts/generate_apk_trend_report.py] writes for it, and the session
    analysis of [docs/calculate_dev_time.py]. *)

(** ** The entry point of the dashboard script *)

(** What a run of [main] leaves behind: its exit status, the data it
    handed to [generate_dashboard_html], and the lines it logged. *)
Record Outcome := {
  status : Z;
  dashboard : option (list Snapshot.t);
  logged : list log_line
}.

(** [main], on the directory [docs/apk-diffs]: [None] when it does not
    exist, else its files [*-slim.txt] in the order of [sorted], each with
    its name and its text.  An exception of [build_cumulative_data] is not
    caught.  The banners written with [print] and the HTML text itself
    are left out: [generate_dashboard_html] is the event that the
    dashboard was written with the given data. *)
Definition main (slim_reports_dir : option (list (str * str))) : Err Outcome :=
  match slim_reports_dir with
  | None =>
      ok {| status := 1; dashboard := None;
            logged := [LogError (u "Directory not found: docs/apk-diffs")] |}
  | Some [] =>
      ok {| status := 1; dashboard := None;
            logged := [LogError (u "No slim diffuse reports found in docs/apk-diffs")] |}
  | Some slim_files =>
      let '(parsed_reports, parse_log) := parse_reports slim_files in
      let found :=
        LogInfo (u "Found " ++ str_of_nat (length slim_files)
                 ++ u " slim diffuse reports") in
      match parsed_reports with
      | [] =>
          ok {| status := 1; dashboard := None;
                logged := found :: parse_log
                  ++ [LogError (u "No reports could be parsed successfully")] |}
      | _ =>
          let* cumulative_data := build_cumulative_data parsed_reports in
          ok {| status := 0; dashboard := Some cumulative_data;
                logged := found :: parse_log
                  ++ [LogSuccess (u "Successfully parsed "
                                  ++ str_of_nat (length parsed_reports)
                                  ++ u " reports");
                      LogInfo (u "Building cumulative version data...");
                      LogSuccess (u "Generated data for "
                                  ++ str_of_nat (length cumulative_data)
                                  ++ u " versions");
                      LogInfo (u "Generating dashboard HTML...");
                      LogSuccess (u "Dashboard generated: docs/apk-metrics-dashboard.html");
                      LogInfo (u "Dashboard: docs/apk-metrics-dashboard.html");
                      LogInfo (u "Open with: open docs/apk-metrics-dashboard.html")] |}
      end
  end.

(** ** The slim reports of the trend script *)

(** [s.startswith(prefix)] *)
Fixpoint startswith (s prefix : str) {struct prefix} : bool :=
  match prefix, s with
  | [], _ => true
  | p :: prefix', c :: s' => (c =? p)%N && startswith s' prefix'
  | _ :: _, [] => false
  end.

(** The loop of [generate_slim_report]: the lines before the first one
    that, stripped, starts with the title of the DEX section. *)
Fixpoint slim_lines (lines : list str) : list str :=
  match lines with
  | [] => []
  | line :: lines' =>
      if startswith (strip line) (u "====   DEX   ====") then []
      else line :: slim_lines lines'
  end.

Definition generate_slim_report (full_report_content : str) : str :=
  join LF (slim_lines (split LF full_report_content)).

(** The text [generate_trend_report] hands to [generate_slim_report] for
    the releases tagged [old_tag] and [new_tag]:
    [f"Diffuse Comparison: {old} → {new}\n{'=' * 80}\n\n{diff_output}"]. *)
Definition full_report (old_tag new_tag diff_output : str) : str :=
  u "Diffuse Comparison: " ++ old_tag ++ u " → " ++ new_tag ++ [LF]
  ++ replicate 80 61%N ++ [LF; LF] ++ diff_output.

(** ** The sessions of the development time script

    A commit time is an instant, counted in microseconds: the difference
    of two aware [datetime]s is the exact [timedelta] between their
    instants. *)

(** [delta.total_seconds()]: the quotient of the microseconds by [10**6],
    correctly rounded. *)
Definition total_seconds (delta : Z) : float :=
  match delta with
  | Z0 => S754_zero false
  | Zpos p => float_of_decimal (Npos p) 6
  | Zneg p => SFopp (float_of_decimal (Npos p) 6)
  end.

(** [(b - a).total_seconds() / 3600] *)
Definition hours (a b : Z) : float :=
  fdiv (total_seconds (b - a)) (float_of_int 3600).

Module Session.
Record t := mk {
  start : Z;
  end_ : Z;
  duration : float;
  commits : Z
}.
End Session.

(** The dictionary appended when a session ends. *)
Definition session_of (session_start session_end commits : Z) : Session.t :=
  {| Session.start := session_start;
     Session.end_ := session_end;
     Session.duration := hours session_start session_end;
     Session.commits := commits |}.

(** The loop of [calculate_sessions] from index [i] on: [prev] is
    [timestamps[i-1]] and [rest] is [timestamps[i:]]. *)
Fixpoint sessions_loop (gap_threshold_hours : float) (prev : Z) (rest : list Z)
    (current_session_start current_session_end current_session_commits : Z)
    (sessions : list Session.t) : list Session.t :=
  match rest with
  | [] =>
      sessions ++ [session_of current_session_start current_session_end
                     current_session_commits]
  | t :: rest' =>
      let gap := hours prev t in
      if SFleb gap gap_threshold_hours then
        sessions_loop gap_threshold_hours t rest'
          current_session_start t (current_session_commits + 1) sessions
      else
        sessions_loop gap_threshold_hours t rest' t t 1
          (sessions ++ [session_of current_session_start current_session_end
                          current_session_commits])
  end.

Definition calculate_sessions (timestamps : list Z) (gap_threshold_hours : float)
  : list Session.t :=
  match timestamps with
  | [] => []
  | t0 :: rest => sessions_loop gap_threshold_hours t0 rest t0 t0 1 []
  end.

(** ** The vocabulary of their statements *)

(** The text [p] occurs in [s]. *)
Definition occurs (p s : str) : Prop := exists a b, s = a ++ p ++ b.

(** What stands between the title of a count table and the line break
    before its rows: whitespace and the column separator, the rest of the
    title line, the text up to the first border rule behind that line, and
    the rest of the line of the border rule. *)
Definition table_head (head : str) : Prop :=
  exists ws h1 h2 h3,
    head = ws ++ BOX_V :: h1 ++ LF :: h2 ++ [BOX_H; BOX_H; BOX_H] ++ h3
    /\ blank ws /\ (LF ∉ h1) /\ (LF ∉ h3)
    /\ (forall a b,
          h2 ++ [BOX_H; BOX_H; BOX_H] = a ++ [BOX_H; BOX_H; BOX_H] ++ b ->
          b = []).

(** Where the rows of the DEX table end: at a line break that a blank
    line follows at once, or behind which the text ARSC occurs. *)
Definition dex_end (s : str) : Prop :=
  exists s',
    s = LF :: s'
    /\ ((exists ws rest,
           s' = ws ++ LF :: rest /\ Forall (fun c => is_space c = true) ws)
        \/ occurs (u "ARSC") s').

(** A slim report with all its tables and its version code row. *)
Definition sample_report : str := u
"Diffuse Comparison: 1.0.0 → 1.0.1
================================================================================

OLD: old.apk
NEW: new.apk

 APK      │ compressed                     │ uncompressed
──────────┼───────────┬───────────┬────────┼───────────┬───────────┬────────
      dex │   3.1 MiB │   3.2 MiB │ +912 B │   7.1 MiB │   7.2 MiB │ +1 KiB
──────────┴───────────┴───────────┴────────┴───────────┴───────────┴────────

 DEX     │ old   │ new   │ diff
─────────┼───────┼───────┼───────────
 files   │     1 │     1 │ 0
 strings │ 21481 │ 21488 │ +7 (+123 -116)

 ARSC    │ old │ new │ diff
─────────┼─────┼─────┼──────
 configs │ 108 │ 108 │ 0
 entries │ 4,052 │ 4,060 │ +8

 MANIFEST
 version code │ 10 │ 11
".

(** The report the parser returns on a text that it accepts. *)
Definition parsed (name content : str) : ParsedReport :=
  default (report_of [] [] None None)
    (parse_diffuse_slim_report name content).1.

(** [s] begins with a comparison header for the versions [old] and
    [new]; the text of [new] goes on as far as digits and dots do. *)
Definition header_at (s old new : str) : Prop :=
  exists ws1 ws2 ws3 post,
    s = u "Diffuse Comparison:" ++ ws1 ++ old ++ ws2 ++ ARROW :: ws3
          ++ new ++ post
    /\ blank ws1 /\ dotted old /\ blank ws2 /\ blank ws3 /\ dotted new
    /\ no_head (set_ok [ADigit; AChar DOT]) post.

(** A run of decimal digits, not empty. *)
Definition numeral (s : str) : Prop :=
  s <> [] /\ Forall (fun c => is_digit c = true) s.

(** [s] begins with a version code row for the codes [d1] and [d2]; the
    text of [d2] goes on as far as digits do. *)
Definition code_row_at (s d1 d2 : str) : Prop :=
  exists ws1 ws2 ws3 ws4 post,
    s = u "version code" ++ ws1 ++ BOX_V :: ws2 ++ d1 ++ ws3 ++ BOX_V :: ws4
          ++ d2 ++ post
    /\ blank ws1 /\ blank ws2 /\ numeral d1 /\ blank ws3 /\ blank ws4
    /\ numeral d2 /\ no_head (set_ok [ADigit]) post.

(** [s] is the first tail of [content] with the property [P]. *)
Definition first_at (P : str -> Prop) (content s : str) : Prop :=
  exists pre, content = pre ++ s /\ P s
    /\ forall p1 p2, pre = p1 ++ p2 -> p2 <> [] -> ~ P (p2 ++ s).

(** ** The first size of a text

    [size_of_text] reads a size the way the documentation of
    [parse_size_value] puts it, without a pattern: it looks for the first
    number, a run of digits and dots, that a unit follows, whitespace
    allowed in between. *)

(** A code point of a number: a digit or a dot. *)
Definition size_char (c : N) : bool := set_ok [ADigit; AChar DOT] c.

(** The unit that a text begins with. *)
Definition unit_at (s : str) : option str :=
  if startswith s (u "MiB") then Some (u "MiB")
  else if startswith s (u "KiB") then Some (u "KiB")
  else if startswith s (u "B") then Some (u "B")
  else None.

(** The first number with a unit behind it, and that unit. *)
Fixpoint first_size (s : str) : option (str * str) :=
  match s with
  | [] => None
  | c :: s' =>
      if size_char c then
        match unit_at (drop_while is_space (drop_while size_char s)) with
        | Some unit => Some (take_while size_char s, unit)
        | None => first_size s'
        end
      else first_size s'
  end.

(** A value with a unit, in MiB. *)
Definition in_MiB (value : float) (unit : str) : float :=
  if str_eqb unit (u "MiB") then value
  else if str_eqb unit (u "KiB") then fdiv value (float_of_int 1024)
  else fdiv value (float_of_int (1024 * 1024)).

Definition size_of_text (s : str) : Err (option float) :=
  match first_size s with
  | None => ok None
  | Some (num, unit) => let* value := py_float num in ok (Some (in_MiB value unit))
  end.

(** A line that, stripped, starts with the title of the DEX section. *)
Definition dex_title (line : str) : bool :=
  startswith (strip line) (u "====   DEX   ====").

(** ** Sessions and the commits they cover *)

(** The gap from [a] to [b] is within the threshold. *)
Definition close (gap_threshold_hours : float) (a b : Z) : bool :=
  SFleb (hours a b) gap_threshold_hours.

(** The gaps, from one commit to the next, that exceed the threshold. *)
Fixpoint breaks (gap_threshold_hours : float) (prev : Z) (rest : list Z) : nat :=
  match rest with
  | [] => 0
  | t :: rest' =>
      (if close gap_threshold_hours prev t then 0 else 1)
      + breaks gap_threshold_hours t rest'
  end.

(** The commits of all sessions together. *)
Definition total_commits (sessions : list Session.t) : Z :=
  foldr (fun s n => Session.commits s + n) 0 sessions.

(** Every gap inside the run of commits [chunk] is within the threshold. *)
Fixpoint tight (gap_threshold_hours : float) (chunk : list Z) : Prop :=
  match chunk with
  | a :: (b :: _) as chunk' =>
      close gap_threshold_hours a b = true /\ tight gap_threshold_hours chunk'
  | _ => True
  end.

(** The session [s] stands for the run of commits [chunk]. *)
Definition covers (gap_threshold_hours : float) (s : Session.t) (chunk : list Z)
  : Prop :=
  head chunk = Some (Session.start s)
  /\ last chunk = Some (Session.end_ s)
  /\ Session.commits s = Z.of_nat (length chunk)
  /\ Session.duration s = hours (Session.start s) (Session.end_ s)
  /\ tight gap_threshold_hours chunk.

(** From the end of each session to the start of the next the gap
    exceeds the threshold. *)
Fixpoint separated (gap_threshold_hours : float) (sessions : list Session.t)
  : Prop :=
  match sessions with
  | s1 :: (s2 :: _) as sessions' =>
      close gap_threshold_hours (Session.end_ s1) (Session.start s2) = false
      /\ separated gap_threshold_hours sessions'
  | _ => True
  end.

(** One hour, as [gap_threshold_hours] has it by default. *)
Definition one_hour : float := float_of_int 1.

(** Each session ends before the next one starts. *)
Fixpoint chronological (sessions : list Session.t) : Prop :=
  match sessions with
  | s1 :: (s2 :: _) as sessions' =>
      Session.end_ s1 <= Session.start s2 /\ chronological sessions'
  | _ => True
  end.

(** What [main] leaves behind when the one report of the directory has
    no header. *)
Definition headless_outcome : Outcome :=
  {| status := 1; dashboard := None;
     logged := [LogInfo (u "Found 1 slim diffuse reports");
                LogInfo (u "Parsing 1.0.1-slim.txt...");
                LogError (u "Could not find version info in 1.0.1-slim.txt");
                LogError (u "No reports could be parsed successfully")] |}.

(** * Properties *)

(** ** The error monad *)

Lemma ebind_ok {A B} (m : Err A) (f : A -> Err B) (y : B) :
  ebind m f = ok y -> exists x, m = ok x /\ f x = ok y.
Proof. destruct m as [e|x]; simpl; [discriminate | eauto]. Qed.

Lemma for_each_app {A S} (body : A -> S -> Err S) (l1 l2 : list A) (st : S) :
  for_each body (l1 ++ l2) st =
  let* st' := for_each body l1 st in for_each body l2 st'.
Proof.
  revert st. induction l1 as [|x l1 IH]; intros st; simpl; [done|].
  destruct (body x st) as [e|st']; simpl; [done | apply IH].
Qed.

(** ** [sorted] *)

Section SortedFacts.
Context {A : Type} (key : A -> option Z).

Lemma insert_by_exn x l e : insert_by key x l = raise e -> e = TypeError_lt.
Proof.
  induction l as [|y l IH]; simpl; [discriminate|].
  destruct (key x) as [kx|], (key y) as [ky|]; simpl; try (intros [= <-]; done).
  destruct (kx <? ky); [discriminate|].
  destruct (insert_by key x l) as [e'|l'] eqn:E; simpl; [|discriminate].
  intros [= <-]. by apply IH.
Qed.

Lemma insert_by_perm x l l' : insert_by key x l = ok l' -> l' ≡ₚ x :: l.
Proof.
  revert l'. induction l as [|y l IH]; intros l'; simpl.
  - by intros [= <-].
  - destruct (key_lt (key x) (key y)) as [e|[|]]; simpl; [discriminate| |].
    + by intros [= <-].
    + destruct (insert_by key x l) as [e|l''] eqn:E; simpl; [discriminate|].
      intros [= <-]. rewrite (IH l'' eq_refl). apply perm_swap.
Qed.

Lemma insert_by_total x l :
  has_key key x -> Forall (has_key key) l -> exists l', insert_by key x l = ok l'.
Proof.
  intros [kx Hx] Hl. induction Hl as [|y l [ky Hy] _ IH]; simpl; [eauto|].
  rewrite Hx, Hy. simpl. destruct (kx <? ky); [eauto|].
  destruct IH as [l' ->]. simpl. eauto.
Qed.

Lemma insert_by_sorted x l l' :
  has_key key x -> StronglySorted (key_le key) l -> insert_by key x l = ok l' ->
  StronglySorted (key_le key) l'.
Proof.
  intros [kx Hx] Hs. revert l'.
  induction Hs as [|y l Hs IH Hy]; intros l'; simpl.
  - intros [= <-]. repeat constructor.
  - rewrite Hx. destruct (key y) as [ky|] eqn:Ey; simpl; [|discriminate].
    destruct (kx <? ky) eqn:Hlt.
    + intros [= <-]. apply Z.ltb_lt in Hlt.
      constructor; [by constructor|].
      constructor.
      * unfold key_le. rewrite Hx, Ey. lia.
      * eapply Forall_impl; [exact Hy|]. intros z. unfold key_le.
        rewrite Hx, Ey. destruct (key z); [lia|done].
    + apply Z.ltb_ge in Hlt.
      destruct (insert_by key x l) as [e|l''] eqn:E; simpl; [discriminate|].
      intros [= <-]. constructor; [by apply IH|].
      rewrite (insert_by_perm _ _ _ E). constructor; [|done].
      unfold key_le. rewrite Hx, Ey. done.
Qed.

Lemma for_each_insert_by l acc :
  Forall (has_key key) l -> Forall (has_key key) acc -> StronglySorted (key_le key) acc ->
  exists l', for_each (insert_by key) l acc = ok l'
             /\ l' ≡ₚ acc ++ l /\ StronglySorted (key_le key) l'.
Proof.
  intros Hl. revert acc. induction Hl as [|x l Hx Hl IH]; intros acc Ha Hs; simpl.
  - exists acc. by rewrite app_nil_r.
  - destruct (insert_by_total x acc Hx Ha) as [acc' E]. rewrite E. simpl.
    pose proof (insert_by_perm _ _ _ E) as Hp.
    destruct (IH acc') as (l' & -> & Hp' & Hs').
    + rewrite Hp. by constructor.
    + by eapply insert_by_sorted.
    + exists l'. split; [done|]. split; [|done].
      rewrite Hp', Hp. simpl. apply Permutation_middle.
Qed.

(** With an integer key on every item, [sorted] returns the items in
    ascending order of the key. *)
Lemma py_sorted_spec l :
  Forall (has_key key) l ->
  exists l', py_sorted key l = ok l' /\ l' ≡ₚ l /\ StronglySorted (key_le key) l'.
Proof.
  intros Hl. destruct (for_each_insert_by l [] Hl) as (l' & E & Hp & Hs);
    [constructor | constructor |]. eauto.
Qed.

(** A list in strictly ascending key order is the only ascending
    arrangement of its items. *)
Lemma sorted_unique l1 l2 :
  StronglySorted (key_less key) l1 -> StronglySorted (key_le key) l2 -> l1 ≡ₚ l2 -> l1 = l2.
Proof.
  intros Hs1. revert l2. induction Hs1 as [|x l1 Hs1 IH Hx]; intros l2 Hs2 Hp.
  - by apply Permutation_nil in Hp.
  - destruct l2 as [|y l2]; [by apply Permutation_sym, Permutation_nil in Hp|].
    apply StronglySorted_inv in Hs2 as [Hs2 Hy].
    assert (x = y) as ->.
    { assert (Hyin : y ∈ x :: l1) by (rewrite Hp; left).
      apply elem_of_cons in Hyin as [->|Hyin]; [done|].
      assert (Hxin : x ∈ y :: l2) by (rewrite <- Hp; left).
      apply elem_of_cons in Hxin as [->|Hxin]; [done|].
      rewrite Forall_forall in Hx, Hy.
      specialize (Hx y Hyin). specialize (Hy x Hxin).
      unfold key_less, key_le in *.
      destruct (key x), (key y); try done. lia. }
    f_equal. apply IH; [done|]. by apply Permutation_cons_inv in Hp.
Qed.

(** [sorted] on the items of a strictly ascending list, in any order,
    returns that list. *)
Lemma py_sorted_permutation l p :
  StronglySorted (key_less key) l -> Forall (has_key key) l -> l ≡ₚ p ->
  py_sorted key p = ok l.
Proof.
  intros Hs Hk Hp.
  destruct (py_sorted_spec p) as (l' & E & Hp' & Hs'); [by rewrite <- Hp|].
  rewrite E. f_equal. symmetry. apply sorted_unique; [done|done|].
  by rewrite Hp'.
Qed.

(** A comparison with a missing key raises, and every item of a list of
    two or more takes part in a comparison. *)
Lemma insert_by_none_l x y l :
  key x = None -> insert_by key x (y :: l) = raise TypeError_lt.
Proof. intros Hx. simpl. by rewrite Hx. Qed.

Lemma insert_by_none_r x y l :
  key y = None -> insert_by key x (y :: l) = raise TypeError_lt.
Proof. intros Hy. simpl. rewrite Hy. by destruct (key x). Qed.

Lemma insert_by_not_nil x l : insert_by key x l <> ok [].
Proof.
  destruct l as [|y l]; simpl; [done|].
  destruct (key_lt (key x) (key y)) as [e|[|]]; simpl; [done|done|].
  by destruct (insert_by key x l).
Qed.

Lemma for_each_insert_by_raises l acc :
  (acc <> [] /\ Exists (fun a => key a = None) l)
  \/ (exists y acc', acc = y :: acc' /\ key y = None /\ l <> []) ->
  for_each (insert_by key) l acc = raise TypeError_lt.
Proof.
  revert acc. induction l as [|x l IH]; intros acc H.
  - destruct H as [[_ H]|(? & ? & _ & _ & H)]; [by apply Exists_nil in H|done].
  - simpl. destruct (insert_by key x acc) as [e|acc'] eqn:E; simpl.
    + by rewrite (insert_by_exn _ _ _ E).
    + destruct H as [[Ha H]|(y & acc0 & -> & Hy & _)].
      * destruct acc as [|y acc0]; [done|].
        apply Exists_cons in H as [Hx|H].
        -- by rewrite insert_by_none_l in E.
        -- apply IH. left. split; [|done].
           intros ->. by apply insert_by_not_nil in E.
      * by rewrite insert_by_none_r in E.
Qed.

Lemma py_sorted_raises l :
  (2 <= length l)%nat -> Exists (fun a => key a = None) l ->
  py_sorted key l = raise TypeError_lt.
Proof.
  intros Hlen H. destruct l as [|x [|y l]]; simpl in Hlen; try lia.
  change (for_each (insert_by key) (y :: l) [x] = raise TypeError_lt).
  apply Exists_cons in H as [Hx|H].
  - apply for_each_insert_by_raises. right. exists x, []. done.
  - apply for_each_insert_by_raises. left. done.
Qed.

(** The head of what [sorted] returns is the first of the least items of
    the input: an item moves before the head only with a smaller key. *)
Lemma first_least_insert x y p :
  first_least key y p -> key_less key x y -> first_least key x (p ++ [x]).
Proof.
  intros (before & after & -> & Hb & Ha) Hxy.
  exists (before ++ y :: after), []. split; [done|]. split; [|constructor].
  unfold key_less, key_le in *.
  destruct (key x) as [kx|] eqn:Ex; [|done].
  destruct (key y) as [ky|] eqn:Ey; [|done].
  apply Forall_app. split; [|constructor].
  - eapply Forall_impl; [exact Hb|]. intros z. cbv beta.
    rewrite ?Ey. destruct (key z); [lia|done].
  - by rewrite Ey.
  - eapply Forall_impl; [exact Ha|]. intros z. cbv beta.
    rewrite ?Ey. destruct (key z); [lia|done].
Qed.

Lemma first_least_keep x y p :
  first_least key y p -> key_le key y x -> first_least key y (p ++ [x]).
Proof.
  intros (before & after & -> & Hb & Ha) Hyx.
  exists before, (after ++ [x]). split; [by rewrite <- app_assoc|].
  split; [done|]. apply Forall_app. split; [done|by constructor].
Qed.

Lemma insert_by_head x y acc l' :
  insert_by key x (y :: acc) = ok l' ->
  (key_less key x y /\ l' = x :: y :: acc)
  \/ (key_le key y x /\ exists acc', l' = y :: acc').
Proof.
  simpl. unfold key_less, key_le.
  destruct (key x) as [kx|], (key y) as [ky|]; simpl; try discriminate.
  destruct (kx <? ky) eqn:Hlt.
  - intros [= <-]. left. apply Z.ltb_lt in Hlt. done.
  - apply Z.ltb_ge in Hlt.
    destruct (insert_by key x acc) as [e|acc']; simpl; [discriminate|].
    intros [= <-]. right. eauto.
Qed.

Lemma for_each_insert_by_head l p y acc l' :
  first_least key y p -> for_each (insert_by key) l (y :: acc) = ok l' ->
  exists y' rest, l' = y' :: rest /\ first_least key y' (p ++ l).
Proof.
  revert p y acc. induction l as [|x l IH]; intros p y acc Hp; simpl.
  - intros [= <-]. rewrite app_nil_r. eauto.
  - intros H. apply ebind_ok in H as (acc1 & E & H).
    replace (p ++ x :: l) with ((p ++ [x]) ++ l) by (by rewrite <- app_assoc).
    apply insert_by_head in E as [[Hxy ->]|[Hyx [acc' ->]]].
    + eapply IH; [|exact H]. by eapply first_least_insert.
    + eapply IH; [|exact H]. by apply first_least_keep.
Qed.

Lemma py_sorted_head l first rest :
  py_sorted key l = ok (first :: rest) -> first_least key first l.
Proof.
  destruct l as [|x l]; [discriminate|].
  intros H. change (for_each (insert_by key) l [x] = ok (first :: rest)) in H.
  apply (for_each_insert_by_head l [x] x []) in H as (y' & rest' & [= <- <-] & H);
    [done|].
  exists [], []. by repeat split.
Qed.

End SortedFacts.

(** ** The timeline builder *)

Global Instance code_lt_trans : Transitive code_lt.
Proof. intros [x|] [y|] [z|]; simpl; try done; lia. Qed.

Global Instance key_less_trans {A} (key : A -> option Z) :
  Transitive (key_less key).
Proof.
  intros a b c. unfold key_less.
  destruct (key a), (key b), (key c); try done; lia.
Qed.

Lemma chained_forward rs : chained rs -> Forall forward rs.
Proof. induction 1; constructor; auto. Qed.

Lemma forward_has_key r : forward r -> has_key new_version_code r.
Proof.
  unfold forward, has_key.
  destruct (old_version_code r), (new_version_code r); try done; eauto.
Qed.

Lemma chained_link rs i a b :
  chained rs -> rs !! i = Some a -> rs !! S i = Some b ->
  old_version b = new_version a /\ old_version_code b = new_version_code a.
Proof.
  intros H. revert i. induction H as [r Hr|r r' rs Hr Hv Hc H IH]; intros i.
  - destruct i; simpl; [|done]. done.
  - destruct i as [|i]; simpl.
    + by intros [= <-] [= <-].
    + apply IH.
Qed.

(** The codes along a chain, the old code of the first report included,
    increase strictly. *)
Lemma chained_codes r rs :
  chained (r :: rs) ->
  Sorted code_lt (old_version_code r :: map new_version_code (r :: rs)).
Proof.
  revert r. induction rs as [|r' rs IH]; intros r H; inversion H; subst.
  - unfold forward in *. simpl.
    destruct (old_version_code r) eqn:E1, (new_version_code r) eqn:E2; try done.
    repeat constructor. done.
  - specialize (IH r' ltac:(done)).
    constructor.
    + simpl in IH. simpl.
      match goal with Heq : old_version_code r' = _ |- _ => rewrite Heq in IH end.
      exact IH.
    + constructor. unfold forward in *.
      destruct (old_version_code r), (new_version_code r); done.
Qed.

Lemma chained_sorted rs :
  chained rs -> StronglySorted (key_less new_version_code) rs.
Proof.
  intros H.
  apply Sorted_StronglySorted; [intros x y z; apply key_less_trans|].
  induction H as [r Hr|r r' rs Hr Hv Hc H IH]; [repeat constructor|].
  constructor; [done|]. constructor.
  inversion H; subst; unfold key_less, forward in *; rewrite <- Hc;
    destruct (old_version_code r'), (new_version_code r'); done.
Qed.

Lemma code_lt_sorted_NoDup (l : list (option Z)) :
  StronglySorted code_lt l -> NoDup l.
Proof.
  induction 1 as [|x l Hs IH Hx]; constructor; [|done].
  intros Hin. rewrite Forall_forall in Hx. specialize (Hx x Hin).
  destruct x; simpl in Hx; [lia|done].
Qed.

Lemma build_sorted rs first rest :
  rs <> [] -> py_sorted new_version_code rs = ok (first :: rest) ->
  build_cumulative_data rs = ok (timeline_of first rest).
Proof.
  intros Hne E. unfold build_cumulative_data.
  destruct rs; [done|]. by rewrite E.
Qed.

(** C1: the reports of an unbroken chain A→B, B→C, C→D, given in any
    order, build the timeline [A; B; C; D]: one entry more than there
    are reports, the same list for every order of the input, whose
    entries [i] and [i+1] are the old and the new side of the [i]-th
    report of the chain, with strictly increasing version codes and no
    version code twice. *)
Theorem build_chain (rs p : list ParsedReport) :
  chained rs -> rs ≡ₚ p ->
  exists tl,
    build_cumulative_data p = ok tl
    /\ build_cumulative_data rs = ok tl
    /\ length tl = S (length p)
    /\ (forall i r, rs !! i = Some r ->
          exists a b, tl !! i = Some a /\ tl !! S i = Some b
            /\ Snapshot.version a = old_version r
            /\ Snapshot.versionCode a = old_version_code r
            /\ Snapshot.version b = new_version r
            /\ Snapshot.versionCode b = new_version_code r)
    /\ StronglySorted code_lt (map Snapshot.versionCode tl)
    /\ NoDup (map Snapshot.versionCode tl).
Proof.
  intros Hc Hp.
  assert (Hs := chained_sorted _ Hc).
  assert (Hk : Forall (has_key new_version_code) rs).
  { eapply Forall_impl; [by apply chained_forward|]. apply forward_has_key. }
  destruct rs as [|r0 rs]; [inversion Hc|].
  assert (Hp0 : p <> []).
  { intros ->. by apply Permutation_sym, Permutation_nil in Hp. }
  exists (timeline_of r0 rs).
  assert (Hsorted : StronglySorted code_lt
            (map Snapshot.versionCode (timeline_of r0 rs))).
  { apply Sorted_StronglySorted; [intros x y z; apply code_lt_trans|].
    replace (map Snapshot.versionCode (timeline_of r0 rs))
      with (old_version_code r0 :: map new_version_code (r0 :: rs)).
    - by apply chained_codes.
    - unfold timeline_of. simpl. f_equal. f_equal.
      rewrite map_map. done. }
  split; [|split; [|split; [|split; [|split]]]].
  - apply build_sorted; [done|]. by apply py_sorted_permutation.
  - apply build_sorted; [done|]. by apply py_sorted_permutation.
  - unfold timeline_of. simpl. rewrite length_map.
    by rewrite <- (Permutation_length Hp).
  - intros i r Hi. unfold timeline_of. destruct i as [|i].
    + simpl in Hi. injection Hi as <-.
      exists (seed_snapshot r0), (new_snapshot r0). done.
    + assert (exists r', (r0 :: rs) !! i = Some r') as [r' Hi'].
      { apply lookup_lt_is_Some. apply lookup_lt_Some in Hi. lia. }
      destruct (chained_link _ _ _ _ Hc Hi' Hi) as [Hv Hcode].
      exists (new_snapshot r'), (new_snapshot r).
      change ((seed_snapshot r0 :: map new_snapshot (r0 :: rs)) !! S i)
        with (map new_snapshot (r0 :: rs) !! i).
      change ((seed_snapshot r0 :: map new_snapshot (r0 :: rs)) !! S (S i))
        with (map new_snapshot (r0 :: rs) !! S i).
      rewrite !list_lookup_fmap, Hi, Hi'. simpl. done.
  - done.
  - by apply code_lt_sorted_NoDup.
Qed.

Lemma chained_ABCD : chained [report_AB; report_BC; report_CD].
Proof.
  apply chained_cons; [by compute|done|done|].
  apply chained_cons; [by compute|done|done|].
  apply chained_one. by compute.
Qed.

Lemma build_chain_witness :
  exists tl,
    build_cumulative_data [report_CD; report_AB; report_BC] = ok tl
    /\ build_cumulative_data [report_AB; report_BC; report_CD] = ok tl
    /\ length tl = 4%nat
    /\ (forall i r, [report_AB; report_BC; report_CD] !! i = Some r ->
          exists a b, tl !! i = Some a /\ tl !! S i = Some b
            /\ Snapshot.version a = old_version r
            /\ Snapshot.versionCode a = old_version_code r
            /\ Snapshot.version b = new_version r
            /\ Snapshot.versionCode b = new_version_code r)
    /\ StronglySorted code_lt (map Snapshot.versionCode tl)
    /\ NoDup (map Snapshot.versionCode tl).
Proof.
  apply (build_chain [report_AB; report_BC; report_CD]
           [report_CD; report_AB; report_BC] chained_ABCD).
  apply Permutation_sym, (Permutation_cons_app [report_AB; report_BC] []).
  apply Permutation_refl.
Defined.

(** C10: on an empty list of reports the builder returns an empty
    timeline, and raises nothing. *)
Theorem build_empty : build_cumulative_data [] = ok [].
Proof. reflexivity. Qed.

(** Whatever the builder returns starts with the seed entry and the entry
    of one and the same report. *)
Lemma build_inv rs tl :
  build_cumulative_data rs = ok tl -> rs <> [] ->
  exists first rest,
    py_sorted new_version_code rs = ok (first :: rest)
    /\ tl = timeline_of first rest.
Proof.
  unfold build_cumulative_data. destruct rs as [|r rs]; [done|].
  intros H _. apply ebind_ok in H as (l & E & H).
  destruct l as [|first rest]; [discriminate|].
  injection H as <-. eauto.
Qed.

Lemma py_sorted_perm {A} (key : A -> option Z) l l' :
  py_sorted key l = ok l' -> l' ≡ₚ l.
Proof.
  unfold py_sorted. change l with ([] ++ l) at 2.
  generalize (@nil A). revert l'.
  induction l as [|x l IH]; intros l' acc; simpl.
  - intros [= <-]. by rewrite app_nil_r.
  - intros H. apply ebind_ok in H as (acc' & E & H).
    rewrite (IH _ _ H), (insert_by_perm _ _ _ _ E). simpl.
    apply Permutation_middle.
Qed.

(** C9: on a non-empty list of reports, the first two entries of the
    timeline the builder returns carry the same four metric tables, those
    of the new side of the earliest report; only [version] and
    [versionCode] tell them apart.  The earliest report is the one
    [sorted] puts first: no report has a smaller [new_version_code], and
    those before it in the input have larger ones.  The builder does
    return a timeline when every report has a version code, or when there
    is one report. *)
Theorem build_first_two (rs : list ParsedReport) :
  rs <> [] ->
  (Forall (has_key new_version_code) rs \/ length rs = 1%nat ->
   exists tl, build_cumulative_data rs = ok tl)
  /\ forall tl, build_cumulative_data rs = ok tl ->
     exists r e0 e1 rest,
       tl = e0 :: e1 :: rest /\ r ∈ rs
       /\ first_least new_version_code r rs
       /\ Snapshot.version e0 = old_version r
       /\ Snapshot.versionCode e0 = old_version_code r
       /\ Snapshot.version e1 = new_version r
       /\ Snapshot.versionCode e1 = new_version_code r
       /\ Snapshot.compressed e0 = Snapshot.compressed e1
       /\ Snapshot.uncompressed e0 = Snapshot.uncompressed e1
       /\ Snapshot.dex e0 = Snapshot.dex e1
       /\ Snapshot.arsc e0 = Snapshot.arsc e1
       /\ Snapshot.compressed e1 = compressed (apk_sizes r)
       /\ Snapshot.uncompressed e1 = uncompressed (apk_sizes r)
       /\ Snapshot.dex e1 = dex_metrics r
       /\ Snapshot.arsc e1 = arsc_metrics r.
Proof.
  intros Hne. split.
  - intros [Hk|Hlen].
    + destruct (py_sorted_spec new_version_code rs Hk) as (l & E & Hp & _).
      destruct l as [|first rest].
      { apply Permutation_nil in Hp. done. }
      eexists. by apply build_sorted.
    + destruct rs as [|r [|r' rs]]; try done. eexists. reflexivity.
  - intros tl H. destruct (build_inv _ _ H Hne) as (first & rest & E & ->).
    exists first, (seed_snapshot first), (new_snapshot first),
      (map new_snapshot rest).
    split; [done|]. split; [|split; [by eapply py_sorted_head|done]].
    rewrite <- (py_sorted_perm _ _ _ E). left.
Qed.

Lemma build_first_two_witness :
  (Forall (has_key new_version_code) [report_BC; report_AB]
   \/ length [report_BC; report_AB] = 1%nat ->
   exists tl, build_cumulative_data [report_BC; report_AB] = ok tl)
  /\ forall tl, build_cumulative_data [report_BC; report_AB] = ok tl ->
     exists r e0 e1 rest,
       tl = e0 :: e1 :: rest /\ r ∈ [report_BC; report_AB]
       /\ first_least new_version_code r [report_BC; report_AB]
       /\ Snapshot.version e0 = old_version r
       /\ Snapshot.versionCode e0 = old_version_code r
       /\ Snapshot.version e1 = new_version r
       /\ Snapshot.versionCode e1 = new_version_code r
       /\ Snapshot.compressed e0 = Snapshot.compressed e1
       /\ Snapshot.uncompressed e0 = Snapshot.uncompressed e1
       /\ Snapshot.dex e0 = Snapshot.dex e1
       /\ Snapshot.arsc e0 = Snapshot.arsc e1
       /\ Snapshot.compressed e1 = compressed (apk_sizes r)
       /\ Snapshot.uncompressed e1 = uncompressed (apk_sizes r)
       /\ Snapshot.dex e1 = dex_metrics r
       /\ Snapshot.arsc e1 = arsc_metrics r.
Proof. apply (build_first_two [report_BC; report_AB]). discriminate. Defined.

(** C7, as the code has it: with two or more reports of which one lacks
    a version code, the sort compares the missing key and the builder
    raises TypeError; nothing is sorted last. *)
Theorem build_missing_code_raises (rs : list ParsedReport) :
  (2 <= length rs)%nat ->
  Exists (fun r => new_version_code r = None) rs ->
  build_cumulative_data rs = raise TypeError_lt.
Proof.
  intros Hlen H. unfold build_cumulative_data.
  destruct rs as [|r rs]; [simpl in Hlen; lia|].
  by rewrite py_sorted_raises.
Qed.

Lemma build_missing_code_raises_witness :
  build_cumulative_data [report_AB; report_uncoded] = raise TypeError_lt.
Proof.
  apply (build_missing_code_raises [report_AB; report_uncoded]).
  - simpl. lia.
  - right. left. reflexivity.
Defined.

(** With a version code on every report the builder does sort: the
    entries after the seed follow the reports in ascending order of
    [new_version_code]. *)
Lemma build_sorts rs :
  rs <> [] -> Forall (has_key new_version_code) rs ->
  exists first rest,
    build_cumulative_data rs = ok (timeline_of first rest)
    /\ first :: rest ≡ₚ rs
    /\ StronglySorted (key_le new_version_code) (first :: rest).
Proof.
  intros Hne Hk.
  destruct (py_sorted_spec new_version_code rs Hk) as (l & E & Hp & Hs).
  destruct l as [|first rest]; [by apply Permutation_nil in Hp|].
  exists first, rest. split; [by apply build_sorted|done].
Qed.

(** ** Code points and strings *)

Lemma is_space_spaces c : is_space c = true -> c ∈ spaces.
Proof.
  unfold is_space, spaces. rewrite !orb_true_iff, !andb_true_iff.
  rewrite !N.leb_le, !N.eqb_eq. rewrite !elem_of_cons. lia.
Qed.

(** No whitespace is a decimal digit, a sign, a comma or a dot. *)
Lemma space_not_digit c : is_space c = true -> is_digit c = false.
Proof.
  intros H. apply is_space_spaces in H. unfold spaces in H.
  repeat (apply elem_of_cons in H as [->|H]; [by vm_compute|]).
  by apply elem_of_nil in H.
Qed.

Lemma digit_not_space c : is_digit c = true -> is_space c = false.
Proof.
  intros H. destruct (is_space c) eqn:E; [|done].
  apply space_not_digit in E. congruence.
Qed.

Lemma space_not_punct c :
  is_space c = true ->
  c <> PLUS /\ c <> MINUS /\ c <> COMMA /\ c <> DOT.
Proof. intros H. repeat split; intros ->; by vm_compute in H. Qed.

Lemma drop_while_app p ws s :
  Forall (fun c => p c = true) ws -> drop_while p (ws ++ s) = drop_while p s.
Proof. induction 1 as [|c ws Hc _ IH]; simpl; [done|]. by rewrite Hc. Qed.

Lemma drop_while_stop p c s : p c = false -> drop_while p (c :: s) = c :: s.
Proof. intros H. simpl. by rewrite H. Qed.

(** What [strip] removes is whitespace, on both sides. *)
Lemma lstrip_split s :
  exists ws, s = ws ++ lstrip s /\ Forall (fun c => is_space c = true) ws.
Proof.
  unfold lstrip. induction s as [|c s (ws & E & Hws)]; simpl.
  - by exists [].
  - destruct (is_space c) eqn:Hc.
    + exists (c :: ws). split; [simpl; congruence|by constructor].
    + by exists [].
Qed.

Lemma rstrip_split s :
  exists ws, s = rstrip s ++ ws /\ Forall (fun c => is_space c = true) ws.
Proof.
  unfold rstrip. destruct (lstrip_split (reverse s)) as (ws & E & Hws).
  exists (reverse ws). split.
  - rewrite <- reverse_app. unfold lstrip in E. rewrite <- E.
    by rewrite reverse_involutive.
  - by apply Forall_reverse.
Qed.

Lemma strip_split s :
  exists ws1 ws2,
    s = ws1 ++ strip s ++ ws2
    /\ Forall (fun c => is_space c = true) ws1
    /\ Forall (fun c => is_space c = true) ws2.
Proof.
  destruct (lstrip_split s) as (ws1 & E1 & H1).
  destruct (rstrip_split (lstrip s)) as (ws2 & E2 & H2).
  exists ws1, ws2. unfold strip. by rewrite <- E2.
Qed.

Lemma lstrip_app ws s :
  Forall (fun c => is_space c = true) ws -> lstrip (ws ++ s) = lstrip s.
Proof. apply drop_while_app. Qed.

Lemma rstrip_app s ws :
  Forall (fun c => is_space c = true) ws -> rstrip (s ++ ws) = rstrip s.
Proof.
  intros H. unfold rstrip. rewrite reverse_app.
  rewrite drop_while_app; [done|]. by apply Forall_reverse.
Qed.

Lemma rstrip_snoc s c : is_space c = false -> rstrip (s ++ [c]) = s ++ [c].
Proof.
  intros H. unfold rstrip. rewrite reverse_snoc.
  rewrite drop_while_stop by done.
  by rewrite <- reverse_snoc, reverse_involutive.
Qed.

(** A text that begins and ends with something else than whitespace is
    what [strip] leaves of it, whatever whitespace surrounds it. *)
Lemma strip_core ws1 a body z ws2 :
  Forall (fun c => is_space c = true) ws1 ->
  Forall (fun c => is_space c = true) ws2 ->
  is_space a = false -> is_space z = false ->
  strip (ws1 ++ (a :: body ++ [z]) ++ ws2) = a :: body ++ [z].
Proof.
  intros H1 H2 Ha Hz. unfold strip. rewrite lstrip_app by done.
  unfold lstrip. rewrite <- app_comm_cons, drop_while_stop by done.
  rewrite app_comm_cons, rstrip_app by done.
  by rewrite app_comm_cons, rstrip_snoc.
Qed.

Lemma split_not_nil sep s : split sep s <> [].
Proof.
  destruct s as [|c s]; simpl; [done|].
  destruct (c =? sep)%N; [done|]. by destruct (split sep s).
Qed.

Lemma join_split sep s : join sep (split sep s) = s.
Proof.
  induction s as [|c s IH]; simpl; [done|].
  destruct (c =? sep)%N eqn:E.
  - apply N.eqb_eq in E as ->.
    pose proof (split_not_nil sep s).
    destruct (split sep s) eqn:E'; [done|]. simpl in *. by rewrite IH.
  - pose proof (split_not_nil sep s).
    destruct (split sep s) as [|x [|y l]] eqn:E'; [done| |]; simpl in *;
      by rewrite IH.
Qed.

(** ** The matcher *)

Lemma take_prefix (a r : str) : take (length (a ++ r) - length r) (a ++ r) = a.
Proof.
  rewrite length_app. replace (length a + length r - length r)%nat
    with (length a) by lia.
  by rewrite take_app_length.
Qed.

Section RunFacts.
Context {R : Type}.
Implicit Types (k : str -> caps -> option R) (s t : str) (g : caps).

Lemma run_Chr c k s g : run (Chr c) k (c :: s) g = k s g.
Proof. simpl. unfold set_ok. simpl. by rewrite N.eqb_refl. Qed.

Lemma run_Lit t k s g : run (Lit t) k (t ++ s) g = k s g.
Proof.
  revert k. induction t as [|c t IH]; intros k; [done|].
  change (run (Chr c) (run (Lit t) k) (c :: t ++ s) g = k s g).
  by rewrite run_Chr.
Qed.

(** A greedy repetition of a class takes the whole run of the class when
    what follows the repetition matches behind the run. *)
Lemma star_loop_set l k ds rest g fuel x :
  Forall (fun c => set_ok l c = true) ds ->
  no_head (set_ok l) rest ->
  (length ds <= fuel)%nat ->
  k rest g = Some x ->
  star_loop true (run (Set_ l)) k fuel (ds ++ rest) g = Some x.
Proof.
  intros Hds Hrest. revert fuel.
  induction Hds as [|d ds Hd Hds IH]; intros fuel Hfuel Hk.
  - destruct fuel; simpl; [done|].
    destruct rest as [|c rest]; [by rewrite Hk|].
    simpl in Hrest. by rewrite Hrest, Hk.
  - destruct fuel as [|fuel]; simpl in Hfuel; [lia|].
    simpl. rewrite Hd.
    replace (length (ds ++ rest) <? S (length (ds ++ rest)))%nat with true
      by (symmetry; apply Nat.ltb_lt; lia).
    rewrite IH; [done|lia|done].
Qed.

Lemma run_star_set l k ds rest g x :
  Forall (fun c => set_ok l c = true) ds ->
  no_head (set_ok l) rest ->
  k rest g = Some x ->
  run (Star true (Set_ l)) k (ds ++ rest) g = Some x.
Proof.
  intros. simpl. apply star_loop_set; try done. rewrite length_app. lia.
Qed.

Lemma run_plus_set l k d ds rest g x :
  set_ok l d = true ->
  Forall (fun c => set_ok l c = true) ds ->
  no_head (set_ok l) rest ->
  k rest g = Some x ->
  run (Plus (Set_ l)) k (d :: ds ++ rest) g = Some x.
Proof.
  intros Hd Hds Hrest Hk.
  change (run (Set_ l) (run (Star true (Set_ l)) k) (d :: ds ++ rest) g = Some x).
  simpl run at 1. rewrite Hd. by apply run_star_set.
Qed.

End RunFacts.

Lemma search_unfold r s :
  search r s =
  match run r (fun _ g => Some g) s [] with
  | Some g => Some g
  | None => match s with [] => None | _ :: s' => search r s' end
  end.
Proof. by destruct s. Qed.

Lemma search_here r s g :
  run r (fun _ g => Some g) s [] = Some g -> search r s = Some g.
Proof. intros H. destruct s; simpl; by rewrite H. Qed.

(** ** The size parser *)

Lemma digits_from_digit acc s n :
  digits_from acc s = Some n -> Forall (fun c => is_digit c = true) s.
Proof.
  revert acc. induction s as [|c s IH]; intros acc; simpl; [done|].
  unfold is_digit. destruct (to_decimal c) eqn:E; [|done].
  intros H. constructor; [by rewrite E|]. by eapply IH.
Qed.

Lemma digits_digit s n :
  digits s = Some n -> s <> [] /\ Forall (fun c => is_digit c = true) s.
Proof.
  destruct s as [|c s]; [done|]. unfold digits. intros H.
  split; [done|]. by eapply digits_from_digit.
Qed.

(** The literals [float] accepts are not empty and hold decimal digits
    and dots only. *)
Lemma py_float_chars s v :
  py_float s = ok v ->
  s <> [] /\ Forall (fun c => set_ok [ADigit; AChar DOT] c = true) s.
Proof.
  unfold py_float. pose proof (join_split DOT s) as Hj.
  destruct (split DOT s) as [|ip [|fp [|? ?]]]; [done| | |done].
  - simpl in Hj. subst ip. destruct (digits s) as [n|] eqn:E; [|done].
    intros _. apply digits_digit in E as [Hne Hd]. split; [done|].
    eapply Forall_impl; [exact Hd|]. intros c Hc. unfold set_ok. simpl.
    by rewrite Hc.
  - simpl in Hj. subst s. destruct (digits (ip ++ fp)) as [n|] eqn:E; [|done].
    intros _. apply digits_digit in E as [Hne Hd]. split.
    + by destruct ip.
    + apply Forall_app in Hd as [Hi Hf]. apply Forall_app. split.
      * eapply Forall_impl; [exact Hi|]. intros c Hc. unfold set_ok. simpl.
        by rewrite Hc.
      * constructor; [done|].
        eapply Forall_impl; [exact Hf|]. intros c Hc. unfold set_ok. simpl.
        by rewrite Hc.
Qed.

Lemma digit_or_dot_not_space c :
  set_ok [ADigit; AChar DOT] c = true -> is_space c = false.
Proof.
  unfold set_ok. simpl. rewrite !orb_true_iff. intros [H|[H|H]]; [|
    |done].
  - by apply digit_not_space.
  - apply N.eqb_eq in H as ->. done.
Qed.

Lemma space_not_digit_or_dot c :
  is_space c = true -> set_ok [ADigit; AChar DOT] c = false.
Proof.
  intros H. destruct (set_ok _ c) eqn:E; [|done].
  apply digit_or_dot_not_space in E. congruence.
Qed.

(** On a number, whitespace and a unit, between any whitespace, the
    pattern matches at the start of the stripped text: group 1 is the
    number and group 2 the unit. *)
Lemma search_size_re ws1 num ws2 stem ws3 v :
  Forall (fun c => is_space c = true) ws1 ->
  Forall (fun c => is_space c = true) ws2 ->
  Forall (fun c => is_space c = true) ws3 ->
  py_float num = ok v ->
  stem ∈ unit_stems ->
  search size_re (strip (ws1 ++ num ++ ws2 ++ (stem ++ [66%N]) ++ ws3))
  = Some [(2%nat, stem ++ [66%N]); (1%nat, num)].
Proof.
  intros H1 H2 H3 Hv Hstem.
  apply py_float_chars in Hv as [Hne Hnum].
  destruct num as [|a num]; [done|]. apply Forall_cons in Hnum as [Ha Hnum].
  replace (ws1 ++ (a :: num) ++ ws2 ++ (stem ++ [66%N]) ++ ws3)
    with (ws1 ++ (a :: (num ++ ws2 ++ stem) ++ [66%N]) ++ ws3)
    by (simpl; by rewrite <- !app_assoc).
  rewrite strip_core; [|done|done|by apply digit_or_dot_not_space|done].
  apply search_here.
  replace (a :: (num ++ ws2 ++ stem) ++ [66%N])
    with (a :: num ++ (ws2 ++ stem ++ [66%N]))
    by (by rewrite <- !app_assoc).
  assert (Hhead : no_head (set_ok [ADigit; AChar DOT]) (ws2 ++ stem ++ [66%N])).
  { destruct H2 as [|c ws2 Hc _]; simpl.
    - unfold unit_stems in Hstem.
      repeat (apply elem_of_cons in Hstem as [->|Hstem]; [by vm_compute|]).
      by apply elem_of_nil in Hstem.
    - by apply space_not_digit_or_dot. }
  assert (Hunit : no_head (set_ok [ASpace]) (stem ++ [66%N])).
  { unfold unit_stems in Hstem.
    repeat (apply elem_of_cons in Hstem as [->|Hstem]; [by vm_compute|]).
    by apply elem_of_nil in Hstem. }
  unfold size_re, Seq.
  change (run (Group 1 (Plus digit_or_dot))
            (run (Cat (Star true space)
                    (Cat (Group 2 (Alt (Lit (u "MiB"))
                                     (Alt (Lit (u "KiB")) (Lit (u "B"))))) Eps))
               (fun _ g => Some g))
            (a :: num ++ ws2 ++ stem ++ [66%N]) []
          = Some [(2%nat, stem ++ [66%N]); (1%nat, a :: num)]).
  cbn [run]. apply run_plus_set; [done|done|done|].
  rewrite (app_comm_cons num _ a), take_prefix.
  apply run_star_set; [|done|].
  { eapply Forall_impl; [exact H2|]. intros c Hc. unfold set_ok. simpl.
    by rewrite Hc. }
  unfold unit_stems in Hstem.
  repeat (apply elem_of_cons in Hstem as [->|Hstem]; [reflexivity|]).
  by apply elem_of_nil in Hstem.
Qed.

Lemma split_no_sep sep s : sep ∉ s -> split sep s = [s].
Proof.
  induction s as [|c s IH]; intros H; simpl; [done|].
  apply not_elem_of_cons in H as [Hc Hs].
  destruct (c =? sep)%N eqn:E; [apply N.eqb_eq in E; congruence|].
  by rewrite IH.
Qed.

Lemma split_app_sep sep a b :
  sep ∉ a -> split sep (a ++ sep :: b) = a :: split sep b.
Proof.
  induction a as [|c a IH]; intros H; simpl.
  - by rewrite N.eqb_refl.
  - apply not_elem_of_cons in H as [Hc Ha].
    destruct (c =? sep)%N eqn:E; [apply N.eqb_eq in E; congruence|].
    by rewrite IH.
Qed.

Lemma digits_no_dot s : Forall (fun c => is_digit c = true) s -> DOT ∉ s.
Proof.
  intros H Hin. rewrite Forall_forall in H. specialize (H _ Hin).
  by vm_compute in H.
Qed.

(** [float] of a decimal number is its value, rounded. *)
Lemma py_float_decimal s n k :
  decimal s n k -> py_float s = ok (float_of_decimal n k).
Proof.
  intros [ip n' H|ip fp n' H]; unfold py_float.
  - pose proof (digits_digit _ _ H) as [_ Hd].
    rewrite split_no_sep by (by apply digits_no_dot). by rewrite H.
  - pose proof (digits_digit _ _ H) as [_ Hd].
    apply Forall_app in Hd as [Hi Hf].
    rewrite split_app_sep by (by apply digits_no_dot).
    rewrite split_no_sep by (by apply digits_no_dot). by rewrite H.
Qed.

Lemma parse_size_value_unit ws1 num ws2 stem ws3 v :
  Forall (fun c => is_space c = true) ws1 ->
  Forall (fun c => is_space c = true) ws2 ->
  Forall (fun c => is_space c = true) ws3 ->
  py_float num = ok v ->
  stem ∈ unit_stems ->
  parse_size_value (ws1 ++ num ++ ws2 ++ (stem ++ [66%N]) ++ ws3)
  = if str_eqb (stem ++ [66%N]) (u "MiB") then ok (Some v)
    else if str_eqb (stem ++ [66%N]) (u "KiB")
         then ok (Some (fdiv v (float_of_int 1024)))
         else ok (Some (fdiv v (float_of_int (1024 * 1024)))).
Proof.
  intros H1 H2 H3 Hv Hstem. unfold parse_size_value.
  rewrite (search_size_re _ _ _ _ _ v) by done.
  destruct (ws1 ++ num ++ ws2 ++ (stem ++ [66%N]) ++ ws3) eqn:E.
  { apply py_float_chars in Hv as [Hne _].
    apply app_eq_nil in E as [_ E]. by apply app_eq_nil in E as [E _]. }
  change (group_of 1 [(2%nat, stem ++ [66%N]); (1%nat, num)]) with num.
  change (group_of 2 [(2%nat, stem ++ [66%N]); (1%nat, num)])
    with (stem ++ [66%N]).
  rewrite Hv. simpl ebind.
  unfold unit_stems in Hstem.
  repeat (apply elem_of_cons in Hstem as [->|Hstem]; [reflexivity|]).
  by apply elem_of_nil in Hstem.
Qed.

(** C3: a decimal number followed by a unit, with any whitespace before,
    between and behind them, parses to the number's [float] for MiB, to
    that divided by 1024 for KiB, and to that divided by [1024 * 1024]
    for B; the four examples of the specification hold ([3.2] is the
    float of the literal 3.2, the two quotients are float divisions). *)
Theorem parse_size_value_converts :
  (forall ws1 num ws2 ws3 n k,
     Forall (fun c => is_space c = true) ws1 ->
     Forall (fun c => is_space c = true) ws2 ->
     Forall (fun c => is_space c = true) ws3 ->
     decimal num n k ->
     parse_size_value (ws1 ++ num ++ ws2 ++ u "MiB" ++ ws3)
     = ok (Some (float_of_decimal n k))
     /\ parse_size_value (ws1 ++ num ++ ws2 ++ u "KiB" ++ ws3)
        = ok (Some (fdiv (float_of_decimal n k) (float_of_int 1024)))
     /\ parse_size_value (ws1 ++ num ++ ws2 ++ u "B" ++ ws3)
        = ok (Some (fdiv (float_of_decimal n k) (float_of_int (1024 * 1024)))))
  /\ parse_size_value (u "3.2 MiB") = ok (Some (float_of_decimal 32 1))
  /\ parse_size_value (u "469 KiB")
     = ok (Some (fdiv (float_of_int 469) (float_of_int 1024)))
  /\ parse_size_value (u "912 B")
     = ok (Some (fdiv (float_of_int 912) (float_of_int (1024 * 1024))))
  /\ parse_size_value (u "garbage") = ok None.
Proof.
  split; [|by vm_compute].
  intros ws1 num ws2 ws3 n k H1 H2 H3 Hd.
  apply py_float_decimal in Hd.
  split; [|split].
  - apply (parse_size_value_unit ws1 num ws2 (u "Mi") ws3); try done.
    unfold unit_stems. set_solver.
  - apply (parse_size_value_unit ws1 num ws2 (u "Ki") ws3); try done.
    unfold unit_stems. set_solver.
  - apply (parse_size_value_unit ws1 num ws2 [] ws3); try done.
    unfold unit_stems. set_solver.
Qed.

Lemma parse_size_value_converts_witness :
  parse_size_value (u "  " ++ u "0.75" ++ u " " ++ u "MiB" ++ u "   ")
  = ok (Some (float_of_decimal 75 2))
  /\ parse_size_value (u "  " ++ u "0.75" ++ u " " ++ u "KiB" ++ u "   ")
     = ok (Some (fdiv (float_of_decimal 75 2) (float_of_int 1024)))
  /\ parse_size_value (u "  " ++ u "0.75" ++ u " " ++ u "B" ++ u "   ")
     = ok (Some (fdiv (float_of_decimal 75 2) (float_of_int (1024 * 1024)))).
Proof.
  apply (proj1 parse_size_value_converts (u "  ") (u "0.75") (u " ") (u "   ")
           75%N 2%nat).
  - by repeat constructor.
  - by repeat constructor.
  - by repeat constructor.
  - apply (decimal_frac (u "0") (u "75")). reflexivity.
Defined.

(** The floats of the examples, as mantissa and exponent. *)
Example float_3_2 : float_of_decimal 32 1 = S754_finite false 7205759403792794 (-51).
Proof. reflexivity. Qed.

Example float_469_KiB :
  fdiv (float_of_int 469) (float_of_int 1024)
  = S754_finite false 8250735254831104 (-54).
Proof. reflexivity. Qed.

(** C8, as the code has it: on the text [. MiB] the pattern captures a
    single dot as the number, [float] rejects it, and [parse_size_value]
    raises ValueError. *)
Theorem parse_size_value_raises :
  parse_size_value (u ". MiB") = raise (ValueError_float (u ".")).
Proof. reflexivity. Qed.

(** ** The count parser *)

Lemma int_tail_app s : fst (int_tail s) ++ snd (int_tail s) = s.
Proof.
  induction s as [|c s IH]; simpl; [done|].
  destruct (is_digit c); simpl; [by rewrite IH|].
  destruct ((c =? COMMA)%N && starts_with_digit s); simpl; [by rewrite IH|done].
Qed.

Lemma int_tail_chars s :
  Forall (fun c => is_digit c = true \/ c = COMMA) (fst (int_tail s)).
Proof.
  induction s as [|c s IH]; simpl; [done|].
  destruct (is_digit c) eqn:Hc; simpl; [by constructor; [left|]|].
  destruct (c =? COMMA)%N eqn:E; simpl; [|done].
  destruct (starts_with_digit s); simpl; [|done].
  apply N.eqb_eq in E. constructor; [by right|done].
Qed.

Lemma int_tail_digits ds r :
  Forall (fun c => is_digit c = true) ds ->
  snd (int_tail (ds ++ r)) = snd (int_tail r).
Proof. induction 1 as [|d ds Hd _ IH]; simpl; [done|]. by rewrite Hd. Qed.

Lemma set_ok_digit c : set_ok [ADigit] c = is_digit c.
Proof. unfold set_ok. simpl. by rewrite orb_false_r. Qed.

Lemma set_ok_space c : set_ok [ASpace] c = is_space c.
Proof. unfold set_ok. simpl. by rewrite orb_false_r. Qed.

Lemma set_ok_sign c : set_ok [AChar PLUS; AChar MINUS] c = is_sign c.
Proof. unfold set_ok, is_sign. simpl. by rewrite orb_false_r. Qed.

Lemma digit_not_sign c : is_digit c = true -> is_sign c = false.
Proof.
  intros H. unfold is_sign.
  destruct (c =? PLUS)%N eqn:E1; [apply N.eqb_eq in E1 as ->; done|].
  destruct (c =? MINUS)%N eqn:E2; [apply N.eqb_eq in E2 as ->; done|].
  done.
Qed.

Lemma digit_not_comma c : is_digit c = true -> c <> COMMA.
Proof. intros H ->. done. Qed.

(** A text is a run of digits and a rest that begins with no digit. *)
Lemma digit_run s :
  exists ds r, s = ds ++ r
    /\ Forall (fun c => is_digit c = true) ds /\ starts_with_digit r = false.
Proof.
  induction s as [|c s (ds & r & -> & Hds & Hr)].
  - by exists [], [].
  - destruct (is_digit c) eqn:Hc.
    + exists (c :: ds), r. split; [done|]. split; [by constructor|done].
    + exists [], (c :: ds ++ r). done.
Qed.

Lemma starts_with_digit_no_head r :
  starts_with_digit r = false -> no_head (set_ok [ADigit]) r.
Proof.
  destruct r as [|c r]; [done|]. unfold no_head. rewrite set_ok_digit. done.
Qed.

Lemma Forall_digit_set ds :
  Forall (fun c => is_digit c = true) ds ->
  Forall (fun c => set_ok [ADigit] c = true) ds.
Proof.
  intros H. eapply Forall_impl; [exact H|]. intros c. by rewrite set_ok_digit.
Qed.

Section NumberRe.
Context {R : Type}.
Implicit Types (k : str -> caps -> option R).

Lemma run_plus_digit_fail k s g :
  starts_with_digit s = false -> run (Plus digit) k s g = None.
Proof.
  intros H.
  change (run (Set_ [ADigit]) (run (Star true (Set_ [ADigit])) k) s g = None).
  destruct s as [|c s]; [done|]. simpl in H. cbn [run].
  by rewrite set_ok_digit, H.
Qed.

(** Behind a digit the pattern [\d+] takes the whole run of digits. *)
Lemma run_plus_digit k d ds r g x :
  is_digit d = true -> Forall (fun c => is_digit c = true) ds ->
  starts_with_digit r = false -> k r g = Some x ->
  run (Plus digit) k (d :: ds ++ r) g = Some x.
Proof.
  intros Hd Hds Hr Hk. apply run_plus_set; try done.
  - by rewrite set_ok_digit.
  - by apply Forall_digit_set.
  - by apply starts_with_digit_no_head.
Qed.

(** The greedy repetition of [,\d+] stops where [int_tail] stops. *)
Lemma star_comma_groups n s fuel k g x :
  (length s <= n)%nat -> starts_with_digit s = false ->
  (length s <= fuel)%nat ->
  k (snd (int_tail s)) g = Some x ->
  star_loop true (run (Seq [Chr COMMA; Plus digit])) k fuel s g = Some x.
Proof.
  revert s fuel. induction n as [|n IH]; intros s fuel Hn Hs Hfuel Hk.
  { destruct s; [|simpl in Hn; lia]. simpl in Hk.
    destruct fuel; simpl; by rewrite ?Hk. }
  destruct s as [|c s]; [destruct fuel; simpl; by rewrite ?Hk|].
  destruct fuel as [|fuel]; [simpl in Hfuel; lia|].
  simpl in Hs, Hn, Hfuel, Hk. rewrite Hs in Hk.
  destruct ((c =? COMMA)%N && starts_with_digit s) eqn:E.
  - apply andb_true_iff in E as [Ec Hd]. apply N.eqb_eq in Ec as ->.
    destruct s as [|d s]; [done|]. simpl in Hd.
    destruct (digit_run s) as (ds & r & -> & Hds & Hr).
    simpl in Hk. rewrite Hd in Hk. simpl in Hk.
    rewrite int_tail_digits in Hk by done.
    cbn [star_loop].
    change (run (Seq [Chr COMMA; Plus digit]))
      with (fun k' => run (Chr COMMA) (run (Plus digit) (@run R Eps k'))).
    cbv beta. rewrite run_Chr.
    rewrite (run_plus_digit _ d ds r g x); try done.
    cbn [run].
    replace (length r <? length (COMMA :: d :: ds ++ r))%nat with true
      by (symmetry; apply Nat.ltb_lt; simpl; rewrite length_app; lia).
    apply IH; try done.
    + simpl in Hn. rewrite length_app in Hn. lia.
    + simpl in Hfuel. rewrite length_app in Hfuel. lia.
  - simpl in Hk. cbn [star_loop].
    change (run (Seq [Chr COMMA; Plus digit]))
      with (fun k' => run (Chr COMMA) (run (Plus digit) (@run R Eps k'))).
    cbv beta.
    assert (run (Chr COMMA)
              (run (Plus digit)
                 (run Eps (fun s' g' =>
                    if (length s' <? length (c :: s))%nat
                    then star_loop true
                           (fun k' => run (Chr COMMA)
                                        (run (Plus digit) (@run R Eps k')))
                           k fuel s' g'
                    else None))) (c :: s) g = None) as ->; [|done].
    unfold Chr at 1. cbn [run]. unfold set_ok. simpl existsb.
    rewrite orb_false_r.
    destruct (c =? COMMA)%N; [|done]. simpl in E.
    by apply run_plus_digit_fail.
Qed.

(** Behind its first digit, the pattern of an integer takes what
    [int_tail] takes. *)
Lemma run_integer k d s g x :
  is_digit d = true -> k (snd (int_tail s)) g = Some x ->
  run (Seq [Plus digit; Star true (Seq [Chr COMMA; Plus digit])]) k (d :: s) g
  = Some x.
Proof.
  intros Hd Hk. destruct (digit_run s) as (ds & r & -> & Hds & Hr).
  rewrite int_tail_digits in Hk by done.
  change (run (Plus digit)
            (run (Star true (Seq [Chr COMMA; Plus digit])) (run Eps k))
            (d :: ds ++ r) g = Some x).
  apply run_plus_digit; try done.
  cbn [run]. by apply (star_comma_groups (length r)).
Qed.

End NumberRe.

Lemma take_token (pre s : str) :
  take (length (pre ++ s) - length (snd (int_tail s))) (pre ++ s)
  = pre ++ fst (int_tail s).
Proof.
  pose proof (int_tail_app s) as E.
  set (t := fst (int_tail s)) in *. set (r := snd (int_tail s)) in *.
  rewrite <- E, app_assoc. apply take_prefix.
Qed.

(** The pattern of [parse_number_value] at the head of a text. *)
Lemma run_number_re s :
  run number_re (fun _ g => Some g) s [] =
  match s with
  | [] => None
  | c :: s' =>
      if is_digit c then Some [(1%nat, c :: fst (int_tail s'))]
      else if is_sign c && starts_with_digit s'
      then Some [(1%nat, c :: fst (int_tail s'))]
      else None
  end.
Proof.
  unfold number_re.
  change (run (Group 1 (Seq [Opt (Set_ [AChar PLUS; AChar MINUS]); Plus digit;
                             Star true (Seq [Chr COMMA; Plus digit])]))
            (fun _ g => Some g) s [])
    with (match run (Set_ [AChar PLUS; AChar MINUS])
                  (run (Seq [Plus digit; Star true (Seq [Chr COMMA; Plus digit])])
                     (fun s' g' => Some ((1%nat, take (length s - length s') s) :: g')))
                  s [] with
          | Some x => Some x
          | None =>
              run (Seq [Plus digit; Star true (Seq [Chr COMMA; Plus digit])])
                (fun s' g' => Some ((1%nat, take (length s - length s') s) :: g'))
                s []
          end).
  destruct s as [|c s]; [done|].
  cbn [run]. rewrite set_ok_sign.
  destruct (is_digit c) eqn:Hc.
  - rewrite (digit_not_sign c Hc).
    erewrite run_integer; [|done|reflexivity].
    pose proof (take_token [c] s) as E.
    change ([c] ++ s) with (c :: s) in E. by rewrite E.
  - assert (Hfail : forall k,
              run (Seq [Plus digit; Star true (Seq [Chr COMMA; Plus digit])])
                k (c :: s) [] = None (A:=caps)).
    { intros k.
      change (run (Plus digit)
                (run (Star true (Seq [Chr COMMA; Plus digit])) (run Eps k))
                (c :: s) [] = None).
      apply run_plus_digit_fail. done. }
    rewrite Hfail.
    destruct (is_sign c); simpl andb; [|done].
    destruct s as [|d s]; [done|]. simpl starts_with_digit.
    destruct (is_digit d) eqn:Hd.
    + erewrite run_integer; [|done|reflexivity].
      simpl int_tail. rewrite Hd. simpl fst.
      pose proof (take_token [c; d] s) as E.
      change ([c; d] ++ s) with (c :: d :: s) in E. by rewrite E.
    + change (run (Seq [Plus digit; Star true (Seq [Chr COMMA; Plus digit])])
                (fun s' g' =>
                   Some ((1%nat, take (length (c :: d :: s) - length s') (c :: d :: s)) :: g'))
                (d :: s) [])
        with (run (Plus digit)
                (run (Star true (Seq [Chr COMMA; Plus digit]))
                   (run Eps (fun s' g' =>
                      Some ((1%nat, take (length (c :: d :: s) - length s') (c :: d :: s)) :: g'))))
                (d :: s) []).
      rewrite run_plus_digit_fail; [done|]. done.
Qed.

(** [re.search] with the pattern finds the text of the first integer. *)
Lemma search_number_re s :
  search number_re s = (fun t => [(1%nat, t)]) <$> first_integer_text s.
Proof.
  induction s as [|c s IH].
  - rewrite search_unfold. by rewrite run_number_re.
  - rewrite search_unfold, run_number_re. simpl first_integer_text.
    destruct (is_digit c); [done|].
    destruct (is_sign c && starts_with_digit s); [done|].
    exact IH.
Qed.

Lemma remove_cons_ne c x s : x <> c -> remove c (x :: s) = x :: remove c s.
Proof. intros H. unfold remove. by rewrite filter_cons_True. Qed.

Lemma remove_cons_eq c s : remove c (c :: s) = remove c s.
Proof. unfold remove. rewrite filter_cons_False; [done|]. by intros H. Qed.

Lemma digits_from_remove acc t :
  Forall (fun c => is_digit c = true \/ c = COMMA) t ->
  digits_from acc (remove COMMA t) = Some (magnitude_from acc t).
Proof.
  intros H. revert acc. induction H as [|c t Hc _ IH]; intros acc; [done|].
  destruct Hc as [Hc| ->].
  - rewrite remove_cons_ne by (by apply digit_not_comma). simpl.
    unfold is_digit in Hc. destruct (to_decimal c); [apply IH|done].
  - rewrite remove_cons_eq. simpl. apply IH.
Qed.

(** The digits of a text, counted. *)
Lemma digit_count_cons_digit c s :
  is_digit c = true -> digit_count (c :: s) = S (digit_count s).
Proof. intros H. unfold digit_count. by rewrite filter_cons_True. Qed.

Lemma digit_count_cons_other c s :
  is_digit c = false -> digit_count (c :: s) = digit_count s.
Proof.
  intros H. unfold digit_count. rewrite filter_cons_False; [done|]. congruence.
Qed.

Lemma digit_count_app a b : digit_count (a ++ b) = (digit_count a + digit_count b)%nat.
Proof. unfold digit_count. by rewrite filter_app, length_app. Qed.

Lemma digit_count_digits d :
  Forall (fun c => is_digit c = true) d -> digit_count d = length d.
Proof.
  induction 1 as [|c d Hc _ IH]; [done|].
  rewrite digit_count_cons_digit by done. simpl. by rewrite IH.
Qed.

Lemma take_while_all p s : Forall (fun c => p c = true) s -> take_while p s = s.
Proof. induction 1 as [|c s Hc _ IH]; simpl; [done|]. by rewrite Hc, IH. Qed.

Lemma comma_not_digit : is_digit COMMA = false.
Proof. reflexivity. Qed.

Lemma remove_comma_digits t :
  Forall (fun c => is_digit c = true \/ c = COMMA) t ->
  Forall (fun c => is_digit c = true) (remove COMMA t)
  /\ length (remove COMMA t) = digit_count t.
Proof.
  induction 1 as [|c t Hc _ [IH1 IH2]]; [done|].
  destruct Hc as [Hc| ->].
  - rewrite remove_cons_ne by (by apply digit_not_comma).
    rewrite digit_count_cons_digit by done. simpl. rewrite IH2.
    split; [by constructor|done].
  - rewrite remove_cons_eq.
    by rewrite (digit_count_cons_other COMMA) by apply comma_not_digit.
Qed.

(** [int] on the digits of a captured text: it reads the number they
    spell unless there are more of them than the limit allows. *)
Lemma int_digits_token lit d t :
  is_digit d = true ->
  Forall (fun c => is_digit c = true \/ c = COMMA) t ->
  int_digits lit (remove COMMA (d :: t))
  = if (int_max_str_digits <? digit_count (d :: t))%nat
    then raise (ValueError_int_limit (digit_count (d :: t)))
    else ok (magnitude_from 0 (d :: t)).
Proof.
  intros Hd Ht.
  assert (Hall : Forall (fun c => is_digit c = true \/ c = COMMA) (d :: t))
    by (constructor; [by left|done]).
  destruct (remove_comma_digits _ Hall) as [Hdig Hlen].
  unfold int_digits. rewrite take_while_all by done. rewrite Hlen.
  destruct (int_max_str_digits <? digit_count (d :: t))%nat; [done|].
  unfold digits.
  rewrite (remove_cons_ne COMMA d) at 1 by (by apply digit_not_comma).
  by rewrite digits_from_remove.
Qed.

Lemma sign_not_digit c : is_sign c = true -> is_digit c = false.
Proof.
  intros H. destruct (is_digit c) eqn:E; [|done].
  apply digit_not_sign in E. congruence.
Qed.

(** [int] on the text the pattern captured reads the integer it spells,
    or raises when it has more digits than the limit allows; it never
    finds the text malformed. *)
Lemma py_int_token c s :
  (is_digit c = true \/ (is_sign c = true /\ starts_with_digit s = true)) ->
  py_int (remove COMMA (c :: fst (int_tail s)))
  = if (int_max_str_digits <? digit_count (c :: fst (int_tail s)))%nat
    then raise (ValueError_int_limit (digit_count (c :: fst (int_tail s))))
    else ok (int_of_text (c :: fst (int_tail s))).
Proof.
  pose proof (int_tail_chars s) as Ht. intros [Hc|[Hc Hs]].
  - pose proof (digit_not_sign c Hc) as Hsign. unfold is_sign in Hsign.
    apply orb_false_iff in Hsign as [Hp Hm].
    pose proof (int_digits_token (remove COMMA (c :: (int_tail s).1)) c _ Hc Ht)
      as Hi.
    revert Hi. rewrite (remove_cons_ne COMMA c) by (by apply digit_not_comma).
    intros Hi. unfold py_int, int_of_text. rewrite Hp, Hm, Hi.
    by destruct (_ <? _)%nat.
  - destruct s as [|d s]; [done|]. simpl in Hs.
    simpl int_tail in *. rewrite Hs in *. simpl fst in *.
    assert (Hne : c <> COMMA).
    { intros ->. done. }
    apply Forall_cons in Ht as [_ Ht].
    pose proof (int_digits_token (c :: remove COMMA (d :: (int_tail s).1))
                  d _ Hs Ht) as Hi.
    rewrite (digit_count_cons_other c) by (by apply sign_not_digit).
    rewrite remove_cons_ne by done.
    unfold is_sign in Hc. unfold py_int, int_of_text.
    destruct (c =? PLUS)%N eqn:Ep.
    + apply N.eqb_eq in Ep as ->. rewrite Hi. by destruct (_ <? _)%nat.
    + simpl in Hc. rewrite Hc. apply N.eqb_eq in Hc as ->. rewrite Hi.
      by destruct (_ <? _)%nat.
Qed.

(** Whitespace around a text does not change its first integer. *)
Lemma first_integer_text_lstrip ws s :
  Forall (fun c => is_space c = true) ws ->
  first_integer_text (ws ++ s) = first_integer_text s.
Proof.
  induction 1 as [|c ws Hc _ IH]; [done|]. simpl.
  rewrite (space_not_digit c Hc).
  destruct (space_not_punct c Hc) as (Hp & Hm & _).
  unfold is_sign.
  destruct (c =? PLUS)%N eqn:E1; [by apply N.eqb_eq in E1|].
  destruct (c =? MINUS)%N eqn:E2; [by apply N.eqb_eq in E2|].
  exact IH.
Qed.

Lemma starts_with_digit_spaces s ws :
  Forall (fun c => is_space c = true) ws ->
  starts_with_digit (s ++ ws) = starts_with_digit s.
Proof.
  intros H. destruct s as [|c s]; [|done]. simpl.
  destruct H as [|c ws Hc _]; [done|]. simpl. by apply space_not_digit.
Qed.

Lemma int_tail_spaces s ws :
  Forall (fun c => is_space c = true) ws ->
  fst (int_tail (s ++ ws)) = fst (int_tail s).
Proof.
  intros H. induction s as [|c s IH].
  - simpl. destruct H as [|c ws Hc _]; [done|]. simpl.
    rewrite (space_not_digit c Hc).
    destruct (space_not_punct c Hc) as (_ & _ & Hcomma & _).
    destruct (c =? COMMA)%N eqn:E; [by apply N.eqb_eq in E|]. done.
  - simpl. rewrite starts_with_digit_spaces by done.
    destruct (is_digit c); simpl; [by rewrite IH|].
    destruct ((c =? COMMA)%N && starts_with_digit s); simpl; [by rewrite IH|done].
Qed.

Lemma first_integer_text_spaces ws :
  Forall (fun c => is_space c = true) ws -> first_integer_text ws = None.
Proof.
  intros H. rewrite <- (app_nil_r ws). by rewrite first_integer_text_lstrip.
Qed.

Lemma first_integer_text_rstrip s ws :
  Forall (fun c => is_space c = true) ws ->
  first_integer_text (s ++ ws) = first_integer_text s.
Proof.
  intros H. induction s as [|c s IH].
  - by apply first_integer_text_spaces.
  - simpl. rewrite starts_with_digit_spaces, int_tail_spaces by done.
    by rewrite IH.
Qed.

Lemma first_integer_text_strip s :
  first_integer_text (strip s) = first_integer_text s.
Proof.
  destruct (strip_split s) as (ws1 & ws2 & E & H1 & H2).
  rewrite E at 2.
  by rewrite first_integer_text_lstrip, first_integer_text_rstrip.
Qed.

Lemma first_integer_text_shape s tok :
  first_integer_text s = Some tok ->
  exists c s',
    tok = c :: fst (int_tail s')
    /\ (is_digit c = true \/ (is_sign c = true /\ starts_with_digit s' = true)).
Proof.
  induction s as [|c s IH]; simpl; [done|].
  destruct (is_digit c) eqn:Hc.
  - intros [= <-]. exists c, s. split; [done|by left].
  - destruct (is_sign c && starts_with_digit s) eqn:E.
    + intros [= <-]. apply andb_true_iff in E. exists c, s. split; [done|by right].
    + exact IH.
Qed.

(** What the parser does on every text: it looks for the first integer
    as the scanner does, and hands its digits to [int]. *)
Lemma parse_number_value_cases s :
  parse_number_value s
  = match first_integer_text s with
    | None => ok None
    | Some tok =>
        if (int_max_str_digits <? digit_count tok)%nat
        then raise (ValueError_int_limit (digit_count tok))
        else ok (Some (int_of_text tok))
    end.
Proof.
  unfold parse_number_value.
  destruct s as [|c s]; [done|].
  rewrite search_number_re, first_integer_text_strip.
  destruct (first_integer_text (c :: s)) as [tok|] eqn:E; [|done].
  apply first_integer_text_shape in E as (c' & s' & -> & Hc).
  cbn [fmap option_fmap option_map].
  change (group_of 1 [(1%nat, c' :: (int_tail s').1)])
    with (c' :: (int_tail s').1).
  rewrite py_int_token by done. by destruct (_ <? _)%nat.
Qed.

(** Within the limit the parser and the scanner agree. *)
Lemma parse_number_value_scans s :
  (first_integer_digits s <= int_max_str_digits)%nat ->
  parse_number_value s = ok (first_integer s).
Proof.
  rewrite parse_number_value_cases. unfold first_integer, first_integer_digits.
  destruct (first_integer_text s) as [tok|]; [|done]. simpl.
  intros H. apply Nat.ltb_ge in H. by rewrite H.
Qed.

Lemma parse_number_value_limit s :
  (int_max_str_digits < first_integer_digits s)%nat ->
  parse_number_value s = raise (ValueError_int_limit (first_integer_digits s)).
Proof.
  rewrite parse_number_value_cases. unfold first_integer_digits.
  destruct (first_integer_text s) as [tok|]; simpl; [|lia].
  intros H. apply Nat.ltb_lt in H. by rewrite H.
Qed.

(** What the parser returns is what the scanner finds, and what it
    raises is the refusal of [int] to convert that many digits. *)
Lemma parse_number_value_ok s v :
  parse_number_value s = ok v -> v = first_integer s.
Proof.
  destruct (le_lt_dec (first_integer_digits s) int_max_str_digits) as [H|H].
  - rewrite parse_number_value_scans by done. by intros [= <-].
  - by rewrite parse_number_value_limit.
Qed.

Lemma parse_number_value_exn s e :
  parse_number_value s = raise e ->
  e = ValueError_int_limit (first_integer_digits s)
  /\ (int_max_str_digits < first_integer_digits s)%nat.
Proof.
  destruct (le_lt_dec (first_integer_digits s) int_max_str_digits) as [H|H].
  - by rewrite parse_number_value_scans.
  - rewrite parse_number_value_limit by done. by intros [= <-].
Qed.

(** C4, as the code has it: [parse_number_value] returns the first
    integer of the text, a run of digits with optional comma separators
    behind an optional sign and nothing of what follows it, and [None]
    when the text holds no integer, as long as the first integer has no
    more digits than [int] converts, 4300 by default; on a longer one
    [int] raises ValueError.  The four examples of the specification
    hold. *)
Theorem parse_number_value_first_integer :
  (forall s, (first_integer_digits s <= int_max_str_digits)%nat ->
     parse_number_value s = ok (first_integer s))
  /\ (forall s, (int_max_str_digits < first_integer_digits s)%nat ->
        parse_number_value s
        = raise (ValueError_int_limit (first_integer_digits s)))
  /\ parse_number_value (u "21,481") = ok (Some 21481)
  /\ parse_number_value (u "+7 (+123 -116)") = ok (Some 7)
  /\ parse_number_value (u "  0  ") = ok (Some 0)
  /\ parse_number_value [] = ok None.
Proof.
  split; [exact parse_number_value_scans|].
  split; [exact parse_number_value_limit|by vm_compute].
Qed.

Lemma parse_number_value_first_integer_witness :
  parse_number_value (u "-1,234 (+5 -1,239)")
  = ok (first_integer (u "-1,234 (+5 -1,239)")).
Proof.
  apply (proj1 parse_number_value_first_integer (u "-1,234 (+5 -1,239)")).
  apply Nat.leb_le. vm_compute. reflexivity.
Defined.

(** On a run of 4301 digits the parser raises, where the scanner finds
    an integer. *)
Lemma parse_number_value_first_integer_counterexample :
  parse_number_value long_number = raise (ValueError_int_limit 4301)
  /\ parse_number_value long_number <> ok (first_integer long_number).
Proof.
  assert (E : parse_number_value long_number = raise (ValueError_int_limit 4301))
    by (vm_compute; reflexivity).
  split; [exact E|]. rewrite E. discriminate.
Qed.

Example first_integer_negative : first_integer (u "a-1,234,5x6") = Some (-12345).
Proof. reflexivity. Qed.

(** ** What a match says about the text

    Whatever the matcher finds is a match in the sense of [matches], and
    every group it reports holds a text its own pattern matches. *)

Lemma group_elem_of i (g : caps) t : group i g = Some t -> (i, t) ∈ g.
Proof.
  induction g as [|[j t'] g IH]; [done|]. simpl.
  destruct (Nat.eqb i j) eqn:Ej.
  - apply Nat.eqb_eq in Ej as ->. intros [= ->]. left.
  - intros H. right. by apply IH.
Qed.

Lemma group_app i (g1 g2 : caps) :
  group i (g1 ++ g2) =
  match group i g1 with Some t => Some t | None => group i g2 end.
Proof.
  induction g1 as [|[j t] g1 IH]; [done|]. simpl.
  by destruct (Nat.eqb i j).
Qed.

Lemma caps_from_refl r g : sure r = [] -> caps_from r g g.
Proof.
  intros H. exists []. split; [done|]. split.
  - intros i t Hin. by apply elem_of_nil in Hin.
  - intros i Hi. rewrite H in Hi. by apply elem_of_nil in Hi.
Qed.

Lemma caps_from_comp r1 r2 r g1 g2 g3 :
  (forall x, x ∈ groups_of r1 -> x ∈ groups_of r) ->
  (forall x, x ∈ groups_of r2 -> x ∈ groups_of r) ->
  (forall i, i ∈ sure r -> i ∈ sure r1 \/ i ∈ sure r2) ->
  caps_from r1 g1 g2 -> caps_from r2 g2 g3 -> caps_from r g1 g3.
Proof.
  intros Hs1 Hs2 Hsure (n1 & -> & Hn1 & Hsure1) (n2 & -> & Hn2 & Hsure2).
  exists (n2 ++ n1). split; [by rewrite app_assoc|]. split.
  - intros i t Hin. apply elem_of_app in Hin as [Hin|Hin].
    + destruct (Hn2 i t Hin) as (r' & rest & ? & ?). exists r', rest. auto.
    + destruct (Hn1 i t Hin) as (r' & rest & ? & ?). exists r', rest. auto.
  - intros i Hi. rewrite group_app.
    destruct (group i n2) eqn:E; [eauto|].
    destruct (Hsure i Hi) as [H1|H2]; [by apply Hsure1|].
    apply Hsure2 in H2. rewrite E in H2. by destruct H2.
Qed.

Lemma caps_from_weaken r1 r g1 g2 :
  (forall x, x ∈ groups_of r1 -> x ∈ groups_of r) ->
  (forall i, i ∈ sure r -> i ∈ sure r1) ->
  caps_from r1 g1 g2 -> caps_from r g1 g2.
Proof.
  intros Hs Hsure (n & -> & Hn & Hsn). exists n. split; [done|]. split.
  - intros i t Hin. destruct (Hn i t Hin) as (r' & rest & ? & ?).
    exists r', rest. auto.
  - intros i Hi. auto.
Qed.

Section Soundness.
Context {R : Type}.
Implicit Types (k : str -> caps -> option R).

Lemma star_loop_sound b r fuel k s g x :
  @sound R r ->
  star_loop b (run r) k fuel s g = Some x ->
  exists s1 s2 g', s = s1 ++ s2 /\ matches (Star b r) s1 s2
                   /\ caps_from (Star b r) g g' /\ k s2 g' = Some x.
Proof.
  intros Hr. revert s g. induction fuel as [|fuel IH]; intros s g H.
  { exists [], s, g. split; [done|]. split; [constructor|].
    split; [by apply caps_from_refl|done]. }
  assert (Hstop : k s g = Some x ->
    exists s1 s2 g', s = s1 ++ s2 /\ matches (Star b r) s1 s2
                     /\ caps_from (Star b r) g g' /\ k s2 g' = Some x).
  { intros Hk. exists [], s, g. split; [done|]. split; [constructor|].
    split; [by apply caps_from_refl|done]. }
  assert (Hiter :
    run r (fun s' g' => if (length s' <? length s)%nat
                        then star_loop b (run r) k fuel s' g' else None) s g
    = Some x ->
    exists s1 s2 g', s = s1 ++ s2 /\ matches (Star b r) s1 s2
                     /\ caps_from (Star b r) g g' /\ k s2 g' = Some x).
  { intros Hb. apply Hr in Hb as (s1 & s2 & g1 & -> & Hm & Hc & Hk).
    destruct (length s2 <? length (s1 ++ s2))%nat; [|done].
    apply IH in Hk as (s3 & s4 & g2 & -> & Hm' & Hc' & Hk).
    exists (s1 ++ s3), s4, g2. split; [by rewrite app_assoc|].
    split; [by constructor|]. split; [|done].
    eapply (caps_from_comp r (Star b r)); [done|done| |exact Hc|exact Hc'].
    intros i Hi. by apply elem_of_nil in Hi. }
  simpl in H. destruct b.
  - destruct (run r _ s g) eqn:E; [injection H as ->; by apply Hiter|].
    by apply Hstop.
  - destruct (k s g) eqn:E; [injection H as ->; by apply Hstop|].
    by apply Hiter.
Qed.

End Soundness.

Lemma run_sound {R} (r : regex) : @sound R r.
Proof.
  induction r as [|l|r1 IH1 r2 IH2|r1 IH1 r2 IH2|b r1 IH1|i r1 IH1|];
    intros k s g x H.
  - exists [], s, g. split; [done|]. split; [constructor|].
    split; [by apply caps_from_refl|done].
  - destruct s as [|c s]; [done|]. simpl in H.
    destruct (set_ok l c) eqn:E; [|done].
    exists [c], s, g. split; [done|]. split; [by constructor|].
    split; [by apply caps_from_refl|done].
  - simpl in H. apply IH1 in H as (s1 & s' & g1 & -> & Hm1 & Hc1 & H).
    apply IH2 in H as (s2 & s3 & g2 & -> & Hm2 & Hc2 & H).
    exists (s1 ++ s2), s3, g2. split; [by rewrite app_assoc|].
    split; [by constructor|]. split; [|done].
    eapply (caps_from_comp r1 r2); [| | |exact Hc1|exact Hc2];
      intros y Hy; simpl in *; set_solver.
  - simpl in H. destruct (run r1 k s g) eqn:E.
    + injection H as ->. apply IH1 in E as (s1 & s2 & g1 & -> & Hm & Hc & H).
      exists s1, s2, g1. split; [done|]. split; [by apply matches_alt_l|].
      split; [|done]. eapply caps_from_weaken; [| |exact Hc];
        intros y Hy; simpl in *; set_solver.
    + apply IH2 in H as (s1 & s2 & g1 & -> & Hm & Hc & H).
      exists s1, s2, g1. split; [done|]. split; [by apply matches_alt_r|].
      split; [|done]. eapply caps_from_weaken; [| |exact Hc];
        intros y Hy; simpl in *; set_solver.
  - simpl in H. by apply star_loop_sound in H.
  - simpl in H. apply IH1 in H as (s1 & s2 & g1 & -> & Hm & Hc & H).
    rewrite take_prefix in H.
    exists s1, s2, ((i, s1) :: g1). split; [done|].
    split; [by constructor|]. split; [|done].
    destruct Hc as (n & -> & Hn & Hsn). exists ((i, s1) :: n).
    split; [done|]. split.
    + intros j t Hj. apply elem_of_cons in Hj as [[= -> ->]|Hj].
      * exists r1, s2. simpl. set_solver.
      * destruct (Hn j t Hj) as (r' & rest & ? & ?).
        exists r', rest. simpl. set_solver.
    + intros j Hj. simpl. destruct (Nat.eqb j i) eqn:Ej; [eauto|].
      apply Hsn. simpl in Hj. apply elem_of_cons in Hj as [->|Hj]; [|done].
      by rewrite Nat.eqb_refl in Ej.
  - simpl in H. destruct s as [|c [|c' s]]; [| |done].
    + exists [], [], g. split; [done|]. split; [constructor; by left|].
      split; [by apply caps_from_refl|done].
    + destruct (c =? LF)%N eqn:E; [|done]. apply N.eqb_eq in E as ->.
      exists [], [LF], g. split; [done|]. split; [constructor; by right|].
      split; [by apply caps_from_refl|done].
Qed.

(** A pattern without groups hands the groups on as they are. *)
Lemma run_no_groups {R} r (k : str -> caps -> option R) s g x :
  groups_of r = [] -> run r k s g = Some x -> exists s2, k s2 g = Some x.
Proof.
  intros Hg H. apply run_sound in H as (s1 & s2 & g' & _ & _ & Hc & H).
  destruct Hc as (n & -> & Hn & _). destruct n as [|[i t] n]; [eauto|].
  destruct (Hn i t) as (r' & rest & Hin & _); [left|].
  rewrite Hg in Hin. by apply elem_of_nil in Hin.
Qed.

Lemma search_run r s g :
  search r s = Some g ->
  exists pre s', s = pre ++ s' /\ run r (fun _ g => Some g) s' [] = Some g.
Proof.
  induction s as [|c s IH]; rewrite search_unfold.
  - destruct (run r _ [] []) eqn:E; [|done]. intros [= ->]. by exists [], [].
  - destruct (run r _ (c :: s) []) eqn:E.
    + intros [= ->]. by exists [], (c :: s).
    + intros H. apply IH in H as (pre & s' & -> & H). by exists (c :: pre), s'.
Qed.

(** [re.search] finds a match somewhere in the text; the groups it
    reports are texts that the patterns of the groups match, and the
    groups of [sure r] are all reported. *)
Lemma search_sound r s g :
  search r s = Some g ->
  (exists pre m post, s = pre ++ m ++ post /\ matches r m post)
  /\ (forall i t, group i g = Some t ->
        exists r' rest, (i, r') ∈ groups_of r /\ matches r' t rest)
  /\ (forall i, i ∈ sure r -> is_Some (group i g)).
Proof.
  intros H. apply search_run in H as (pre & s' & -> & H).
  apply run_sound in H as (m & post & g' & -> & Hm & Hc & [= ->]).
  destruct Hc as (n & -> & Hn & Hsn). rewrite app_nil_r.
  split; [eauto|]. split.
  - intros i t Hg. apply group_elem_of in Hg. by apply Hn.
  - done.
Qed.

Lemma matches_cat_inv r1 r2 s rest :
  matches (Cat r1 r2) s rest ->
  exists s1 s2, s = s1 ++ s2 /\ matches r1 s1 (s2 ++ rest) /\ matches r2 s2 rest.
Proof. inversion 1; subst. eauto. Qed.

Lemma matches_group_inv i r s rest :
  matches (Group i r) s rest -> matches r s rest.
Proof. by inversion 1. Qed.

Lemma matches_eps_inv s rest : matches Eps s rest -> s = [].
Proof. by inversion 1. Qed.

Lemma matches_set_inv l s rest :
  matches (Set_ l) s rest -> exists c, s = [c] /\ set_ok l c = true.
Proof. inversion 1; subst. eauto. Qed.

Lemma matches_Chr c s rest : matches (Chr c) s rest -> s = [c].
Proof.
  intros H. apply matches_set_inv in H as (c' & -> & Hc).
  unfold set_ok in Hc. simpl in Hc. rewrite orb_false_r in Hc.
  by apply N.eqb_eq in Hc as ->.
Qed.

Lemma matches_Lit t s rest : matches (Lit t) s rest -> s = t.
Proof.
  revert s. induction t as [|c t IH]; intros s H; simpl in H.
  - by apply matches_eps_inv in H.
  - apply matches_cat_inv in H as (s1 & s2 & -> & H1 & H2).
    apply matches_set_inv in H1 as (c' & -> & Hc). apply IH in H2 as ->.
    unfold set_ok in Hc. simpl in Hc. rewrite orb_false_r in Hc.
    by apply N.eqb_eq in Hc as ->.
Qed.

Lemma matches_star_set b l s rest :
  matches (Star b (Set_ l)) s rest -> Forall (fun c => set_ok l c = true) s.
Proof.
  intros H. remember (Star b (Set_ l)) as r eqn:Er.
  induction H as [| | | | | |b' r' s1 s2 rest H1 _ H2 IH| |]; try done.
  injection Er as -> ->. apply matches_set_inv in H1 as (c & -> & Hc).
  constructor; [done|]. by apply IH.
Qed.

Lemma matches_plus_set l s rest :
  matches (Plus (Set_ l)) s rest ->
  s <> [] /\ Forall (fun c => set_ok l c = true) s.
Proof.
  intros H. apply matches_cat_inv in H as (s1 & s2 & -> & H1 & H2).
  apply matches_set_inv in H1 as (c & -> & Hc).
  apply matches_star_set in H2. split; [done|by constructor].
Qed.

(** A text is a run of a class and a rest that does not begin in it. *)
Lemma class_run (p : N -> bool) s :
  exists ds r, s = ds ++ r
    /\ Forall (fun c => p c = true) ds /\ no_head p r.
Proof.
  induction s as [|c s (ds & r & -> & Hds & Hr)].
  - by exists [], [].
  - destruct (p c) eqn:Hc.
    + exists (c :: ds), r. split; [done|]. split; [by constructor|done].
    + exists [], (c :: ds ++ r). done.
Qed.

Lemma search_app r pre s g :
  run r (fun _ g => Some g) s [] = Some g -> is_Some (search r (pre ++ s)).
Proof.
  intros H. induction pre as [|c pre IH]; simpl app.
  - rewrite (search_here _ _ _ H). eauto.
  - rewrite search_unfold. by destruct (run r _ (c :: pre ++ s) []).
Qed.

(** *** The comparison header *)

Lemma matches_plus_space s rest : matches (Plus space) s rest -> blank s.
Proof.
  intros H. apply matches_plus_set in H as [Hne H]. split; [done|].
  eapply Forall_impl; [exact H|]. intros c Hc. by rewrite <- set_ok_space.
Qed.

Lemma search_version_re_header content g :
  search version_re content = Some g -> has_header content.
Proof.
  intros H. apply search_sound in H as [(pre & m & post & -> & H) _].
  unfold version_re, Seq in H.
  apply matches_cat_inv in H as (s1 & m1 & -> & H1 & H).
  apply matches_cat_inv in H as (s2 & m2 & -> & H2 & H).
  apply matches_cat_inv in H as (s3 & m3 & -> & H3 & H).
  apply matches_cat_inv in H as (s4 & m4 & -> & H4 & H).
  apply matches_cat_inv in H as (s5 & m5 & -> & H5 & H).
  apply matches_cat_inv in H as (s6 & m6 & -> & H6 & H).
  apply matches_cat_inv in H as (s7 & m7 & -> & H7 & H).
  apply matches_eps_inv in H as ->.
  apply matches_Lit in H1 as ->. apply matches_plus_space in H2, H4, H6.
  apply matches_group_inv, matches_plus_set in H3, H7.
  apply matches_Chr in H5 as ->.
  exists pre, s2, s3, s4, s6, s7, post. split; [|done].
  rewrite app_nil_r. by rewrite <- !app_assoc.
Qed.

Lemma blank_no_head_dotted ws s :
  blank ws -> no_head (set_ok [ADigit; AChar DOT]) (ws ++ s).
Proof.
  intros [Hne H]. destruct H as [|c ws Hc _]; [done|].
  change (set_ok [ADigit; AChar DOT] c = false).
  by apply space_not_digit_or_dot.
Qed.

Lemma dotted_no_head_space d s : dotted d -> no_head (set_ok [ASpace]) (d ++ s).
Proof.
  intros [Hne H]. destruct H as [|c d Hc _]; [done|].
  change (set_ok [ASpace] c = false). rewrite set_ok_space.
  by apply digit_or_dot_not_space.
Qed.

Lemma Forall_space_set ws :
  Forall (fun c => is_space c = true) ws ->
  Forall (fun c => set_ok [ASpace] c = true) ws.
Proof.
  intros H. eapply Forall_impl; [exact H|]. intros c Hc.
  by rewrite set_ok_space.
Qed.

Section HeaderRuns.
Context {R : Type}.
Implicit Types (k : str -> caps -> option R).

Lemma run_plus_space k ws rest g x :
  blank ws -> no_head (set_ok [ASpace]) rest -> k rest g = Some x ->
  run (Plus space) k (ws ++ rest) g = Some x.
Proof.
  intros [Hne H] Hrest Hk. destruct H as [|c ws Hc H]; [done|].
  apply run_plus_set; try done; [by rewrite set_ok_space|].
  by apply Forall_space_set.
Qed.

Lemma run_plus_dotted k d rest g x :
  dotted d -> no_head (set_ok [ADigit; AChar DOT]) rest -> k rest g = Some x ->
  run (Plus digit_or_dot) k (d ++ rest) g = Some x.
Proof.
  intros [Hne H] Hrest Hk. destruct H as [|c d Hc H]; [done|].
  by apply run_plus_set.
Qed.

End HeaderRuns.

Lemma header_search_version_re content :
  has_header content -> is_Some (search version_re content).
Proof.
  intros (pre & ws1 & old & ws2 & ws3 & new & post & -> & H1 & Ho & H2 & H3 & Hn).
  destruct (class_run (set_ok [ADigit; AChar DOT]) post)
    as (more & post' & -> & Hmore & Hpost).
  eapply (search_app _ pre).
  unfold version_re, Seq.
  cbn [run].
  rewrite run_Lit.
  eapply run_plus_space; [done|by apply dotted_no_head_space|].
  cbn [run]. eapply run_plus_dotted; [done|by apply blank_no_head_dotted|].
  eapply run_plus_space; [done|done|].
  rewrite run_Chr.
  eapply run_plus_space; [done|by apply dotted_no_head_space|].
  cbn [run]. rewrite (app_assoc new more post').
  eapply run_plus_dotted; [|done|reflexivity].
  destruct Hn as [Hne Hn]. split; [by destruct new|by apply Forall_app].
Qed.

(** The header pattern matches exactly the texts that hold a header. *)
Lemma has_header_search content :
  has_header content <-> is_Some (search version_re content).
Proof.
  split; [apply header_search_version_re|].
  intros [g H]. by eapply search_version_re_header.
Qed.

(** ** The report parser *)






(** What an accepted report is made of. *)
Lemma parse_body_inv name content r log :
  parse_body name content = ok (Some r, log) ->
  log = []
  /\ (exists vm, search version_re content = Some vm
        /\ old_version r = group_of 1 vm /\ new_version r = group_of 2 vm)
  /\ match search apk_re content with
     | Some m => for_each apk_row (table_lines m) no_sizes
     | None => ok no_sizes
     end = ok (apk_sizes r)
  /\ match search dex_re content with
     | Some m => for_each (count_row dex_names) (table_lines m) ∅
     | None => ok ∅
     end = ok (dex_metrics r)
  /\ match search arsc_re content with
     | Some m => for_each (count_row arsc_names) (table_lines m) ∅
     | None => ok ∅
     end = ok (arsc_metrics r).
Proof.
  unfold parse_body. destruct (search version_re content) as [vm|]; [|done].
  intros H.
  apply ebind_ok in H as (oc & _ & H). apply ebind_ok in H as (nc & _ & H).
  apply ebind_ok in H as (sz & Hsz & H). apply ebind_ok in H as (dx & Hdx & H).
  apply ebind_ok in H as (ar & Har & H). injection H as <- <-.
  split; [done|]. split; [by exists vm|]. done.
Qed.

(** *** The rows of the APK table *)

Lemma split_no_contains c s : contains c s = false -> split c s = [s].
Proof.
  unfold contains. induction s as [|x s IH]; simpl; [done|].
  intros H. apply orb_false_iff in H as [Hx Hs].
  rewrite N.eqb_sym, Hx. by rewrite IH.
Qed.

Lemma lookup_put_size k k' v d :
  put_size k v d !! k' =
  if decide (k = k') then (if truthy v then v else d !! k') else d !! k'.
Proof.
  unfold put_size. destruct v as [x|]; [|by destruct (decide (k = k'))].
  destruct (truthy (Some x)) eqn:E.
  - rewrite lookup_insert. by destruct (decide (k = k')).
  - by destruct (decide (k = k')).
Qed.

(** One line of the table: it is skipped, or the two new-side cells are
    parsed and stored under the key of the row. *)
Lemma apk_row_spec line sizes sizes' :
  apk_row line sizes = ok sizes' ->
  (sizes' = sizes
   /\ ((length (row_cells line) < 7)%nat \/ row_key line = []))
  \/ ((7 <= length (row_cells line))%nat /\ row_key line <> []
      /\ exists vc vu,
           parse_size_value (cell 2 (row_cells line)) = ok vc
           /\ parse_size_value (cell 5 (row_cells line)) = ok vu
           /\ sizes' = {| compressed := put_size (row_key line) vc (compressed sizes);
                          uncompressed := put_size (row_key line) vu (uncompressed sizes) |}).
Proof.
  unfold apk_row. fold (row_cells line). fold (row_key line).
  destruct (contains BOX_V line) eqn:Ec; simpl.
  2:{ intros [= <-]. left. split; [done|]. left.
      unfold row_cells. rewrite split_no_contains by done. simpl. lia. }
  destruct (length (row_cells line) <? 7)%nat eqn:El.
  { intros [= <-]. left. split; [done|]. left. by apply Nat.ltb_lt. }
  apply Nat.ltb_ge in El.
  destruct (bool_decide (row_key line = [])) eqn:Ek.
  { apply bool_decide_eq_true in Ek. rewrite Ek. simpl.
    intros [= <-]. left. split; [done|by right]. }
  apply bool_decide_eq_false in Ek. simpl.
  assert (forall sz,
    (let* new_compressed := parse_size_value (cell 2 (row_cells line)) in
     let* new_uncompressed := parse_size_value (cell 5 (row_cells line)) in
     ok {| compressed := put_size (row_key line) new_compressed (compressed sizes);
           uncompressed := put_size (row_key line) new_uncompressed (uncompressed sizes) |})
    = ok sz ->
    exists vc vu,
      parse_size_value (cell 2 (row_cells line)) = ok vc
      /\ parse_size_value (cell 5 (row_cells line)) = ok vu
      /\ sz = {| compressed := put_size (row_key line) vc (compressed sizes);
                 uncompressed := put_size (row_key line) vu (uncompressed sizes) |})
    as Hstore.
  { intros sz H. apply ebind_ok in H as (vc & Hc & H).
    apply ebind_ok in H as (vu & Hu & H). injection H as <-. eauto. }
  unfold str_eqb. destruct (bool_decide (row_key line = u "total")) eqn:Et.
  - apply bool_decide_eq_true in Et. rewrite <- Et.
    intros H. right. split; [done|]. split; [done|]. by apply Hstore.
  - intros H. right. split; [done|]. split; [done|]. by apply Hstore.
Qed.

(** Every entry of the two size tables was read from the new-side cells,
    cell 2 and cell 5, of a row of seven cells or more that has the key
    of the entry. *)
Lemma apk_rows_provenance lines sizes0 sizes k v :
  for_each apk_row lines sizes0 = ok sizes ->
  (compressed sizes !! k = Some v ->
   compressed sizes0 !! k = Some v
   \/ exists line, line ∈ lines /\ (7 <= length (row_cells line))%nat
        /\ row_key line = k
        /\ parse_size_value (cell 2 (row_cells line)) = ok (Some v))
  /\ (uncompressed sizes !! k = Some v ->
      uncompressed sizes0 !! k = Some v
      \/ exists line, line ∈ lines /\ (7 <= length (row_cells line))%nat
           /\ row_key line = k
           /\ parse_size_value (cell 5 (row_cells line)) = ok (Some v)).
Proof.
  revert sizes0. induction lines as [|line lines IH]; intros sizes0 H.
  { injection H as <-. split; by left. }
  simpl in H. apply ebind_ok in H as (sizes1 & Hrow & H).
  destruct (IH _ H) as [IHc IHu].
  assert (Hmore : forall P : str -> Prop,
            (exists l, l ∈ lines /\ P l) -> exists l, l ∈ line :: lines /\ P l).
  { intros P (l & Hl & HP). exists l. split; [by right|done]. }
  apply apk_row_spec in Hrow
    as [[-> _]|(Hlen & Hkey & vc & vu & Hvc & Hvu & ->)].
  { split; intros Hv.
    - destruct (IHc Hv) as [?|?]; [by left|right]. by apply Hmore.
    - destruct (IHu Hv) as [?|?]; [by left|right]. by apply Hmore. }
  split; intros Hv.
  - destruct (IHc Hv) as [Hv'|?]; [|right; by apply Hmore].
    simpl in Hv'. rewrite lookup_put_size in Hv'.
    destruct (decide (row_key line = k)) as [Ek|]; [|by left].
    destruct (truthy vc); [|by left].
    right. exists line. split; [left|]. by rewrite Hvc, Hv'.
  - destruct (IHu Hv) as [Hv'|?]; [|right; by apply Hmore].
    simpl in Hv'. rewrite lookup_put_size in Hv'.
    destruct (decide (row_key line = k)) as [Ek|]; [|by left].
    destruct (truthy vu); [|by left].
    right. exists line. split; [left|]. by rewrite Hvu, Hv'.
Qed.

(** Rows with another key leave an entry as it is. *)
Lemma apk_rows_other lines sizes0 sizes k :
  for_each apk_row lines sizes0 = ok sizes ->
  (forall line, line ∈ lines -> (7 <= length (row_cells line))%nat ->
     row_key line <> k) ->
  compressed sizes !! k = compressed sizes0 !! k
  /\ uncompressed sizes !! k = uncompressed sizes0 !! k.
Proof.
  revert sizes0. induction lines as [|line lines IH]; intros sizes0 H Hk.
  { by injection H as <-. }
  simpl in H. apply ebind_ok in H as (sizes1 & Hrow & H).
  destruct (IH _ H) as [-> ->].
  { intros l Hl. apply Hk. by right. }
  apply apk_row_spec in Hrow
    as [[-> _]|(Hlen & Hkey & vc & vu & Hvc & Hvu & ->)]; [done|].
  simpl. rewrite !lookup_put_size.
  destruct (decide (row_key line = k)) as [Ek|]; [|done].
  exfalso. eapply Hk; [left|done|done].
Qed.

(** The last row of a key decides its entries: a new-side cell that
    parses to a size other than zero is stored under the key. *)
Lemma apk_rows_recorded l1 line l2 sizes0 sizes :
  for_each apk_row (l1 ++ line :: l2) sizes0 = ok sizes ->
  (7 <= length (row_cells line))%nat -> row_key line <> [] ->
  (forall line', line' ∈ l2 -> (7 <= length (row_cells line'))%nat ->
     row_key line' <> row_key line) ->
  (forall v, parse_size_value (cell 2 (row_cells line)) = ok (Some v) ->
     truthy (Some v) = true -> compressed sizes !! row_key line = Some v)
  /\ (forall v, parse_size_value (cell 5 (row_cells line)) = ok (Some v) ->
        truthy (Some v) = true -> uncompressed sizes !! row_key line = Some v).
Proof.
  intros H Hlen Hkey Hlater. rewrite for_each_app in H.
  apply ebind_ok in H as (sizes1 & _ & H). simpl in H.
  apply ebind_ok in H as (sizes2 & Hrow & H).
  destruct (apk_rows_other _ _ _ (row_key line) H Hlater) as [-> ->].
  apply apk_row_spec in Hrow
    as [[_ [?|?]]|(_ & _ & vc & vu & Hvc & Hvu & ->)]; [lia|done|].
  cbn [compressed uncompressed]. rewrite !lookup_put_size.
  destruct (decide (row_key line = row_key line)); [|done].
  split; intros v Hv Ht.
  - rewrite Hvc in Hv. injection Hv as ->. by rewrite Ht.
  - rewrite Hvu in Hv. injection Hv as ->. by rewrite Ht.
Qed.

(** In a report the parser accepts, the size tables hold nothing but
    new-side values, read from cell 2 (compressed) and cell 5
    (uncompressed) of the lines the APK pattern captured that have seven
    cells or more; for such a line with a key that is not empty and that
    no later line has, a new-side cell that parses to a size other than
    zero is stored under the key of the row. *)
Lemma apk_sizes_new_side name content r log m :
  parse_body name content = ok (Some r, log) ->
  search apk_re content = Some m ->
  (forall k v, compressed (apk_sizes r) !! k = Some v ->
     exists line, line ∈ table_lines m
       /\ (7 <= length (row_cells line))%nat /\ row_key line = k
       /\ parse_size_value (cell 2 (row_cells line)) = ok (Some v))
  /\ (forall k v, uncompressed (apk_sizes r) !! k = Some v ->
        exists line, line ∈ table_lines m
          /\ (7 <= length (row_cells line))%nat /\ row_key line = k
          /\ parse_size_value (cell 5 (row_cells line)) = ok (Some v))
  /\ (forall l1 line l2,
        table_lines m = l1 ++ line :: l2 ->
        (7 <= length (row_cells line))%nat -> row_key line <> [] ->
        (forall line', line' ∈ l2 -> (7 <= length (row_cells line'))%nat ->
           row_key line' <> row_key line) ->
        (forall v,
           parse_size_value (cell 2 (row_cells line)) = ok (Some v) ->
           truthy (Some v) = true ->
           compressed (apk_sizes r) !! row_key line = Some v)
        /\ (forall v,
              parse_size_value (cell 5 (row_cells line)) = ok (Some v) ->
              truthy (Some v) = true ->
              uncompressed (apk_sizes r) !! row_key line = Some v)).
Proof.
  intros H Hm.
  apply parse_body_inv in H as (_ & _ & H & _). rewrite Hm in H.
  split; [|split].
  - intros k v Hv.
    destruct (apk_rows_provenance _ _ _ k v H) as [Hc _].
    by destruct (Hc Hv) as [Hnil|?].
  - intros k v Hv.
    destruct (apk_rows_provenance _ _ _ k v H) as [_ Hu].
    by destruct (Hu Hv) as [Hnil|?].
  - intros l1 line l2 E Hlen Hkey Hlater. rewrite E in H.
    by eapply apk_rows_recorded.
Qed.

(** Where the parser accepts a report, an absent section left its table
    empty. *)
Lemma absent_sections_empty name content r log :
  parse_body name content = ok (Some r, log) ->
  (search apk_re content = None -> apk_sizes r = no_sizes)
  /\ (search dex_re content = None -> dex_metrics r = ∅)
  /\ (search arsc_re content = None -> arsc_metrics r = ∅).
Proof.
  intros H. apply parse_body_inv in H as (_ & _ & Ha & Hd & Hr).
  unfold ok in *. split; [|split]; intros E; rewrite E in *; congruence.
Qed.

(** C6, as the code has it: this report has its header and lacks the DEX
    section, and yet the parser rejects it, for [float] raises on the
    lone dot of the dex row and the handler of the parser turns the
    exception into [None].  No report with an empty DEX table comes
    out. *)
Theorem malformed_size_rejects_report :
  has_header malformed_report
  /\ search dex_re malformed_report = None
  /\ parse_diffuse_slim_report (u "bad.txt") malformed_report
     = (None,
        [LogError
           (u "Failed to parse bad.txt: could not convert string to float: '.'")]).
Proof.
  split; [|by vm_compute].
  apply has_header_search. eexists. vm_compute. reflexivity.
Qed.

(** ** What the APK pattern captures *)

Lemma star_loop_ext {R} b
    (body : (str -> caps -> option R) -> str -> caps -> option R)
    (k k' : str -> caps -> option R) fuel s g :
  (forall k1 k2 s g, (forall s g, k1 s g = k2 s g) -> body k1 s g = body k2 s g) ->
  (forall s g, k s g = k' s g) ->
  star_loop b body k fuel s g = star_loop b body k' fuel s g.
Proof.
  intros Hbody Hk. revert s g.
  induction fuel as [|fuel IHf]; intros s g; simpl; [apply Hk|].
  rewrite (Hk s g).
  rewrite (Hbody _ (fun s' g' =>
             if (length s' <? length s)%nat
             then star_loop b body k' fuel s' g' else None)); [done|].
  intros s' g'. destruct (length s' <? length s)%nat; [apply IHf|done].
Qed.

(** The matcher depends on its continuation only through its results. *)
Lemma run_ext {R} r (k k' : str -> caps -> option R) s g :
  (forall s g, k s g = k' s g) -> run r k s g = run r k' s g.
Proof.
  revert k k' s g.
  induction r as [|l|r1 IH1 r2 IH2|r1 IH1 r2 IH2|b r1 IH1|i r1 IH1|];
    intros k k' s g Hk; simpl.
  - apply Hk.
  - destruct s as [|c s]; [done|]. destruct (set_ok l c); [apply Hk|done].
  - apply IH1. intros s' g'. by apply IH2.
  - rewrite (IH1 k k') by done. rewrite (IH2 k k') by done. done.
  - apply star_loop_ext; [|done]. intros k1 k2 s' g' H. by apply IH1.
  - apply IH1. intros s' g'. apply Hk.
  - destruct s as [|c [|c' s]]; [apply Hk| |done].
    destruct (c =? LF)%N; [apply Hk|done].
Qed.

Lemma run_Seq_app {R} l1 l2 (k : str -> caps -> option R) s g :
  run (Seq (l1 ++ l2)) k s g = run (Seq l1) (run (Seq l2) k) s g.
Proof.
  revert k s g. induction l1 as [|r l1 IH]; intros k s g; [done|].
  simpl. apply run_ext. intros s' g'. apply IH.
Qed.

(** A lazy [.*?] stops at the first place where what follows matches:
    the continuation has failed at every place before it. *)
Lemma star_lazy_any_first {R} (k : str -> caps -> option R) fuel s g x :
  star_loop false (run (Set_ [AAny])) k fuel s g = Some x ->
  exists t s2,
    s = t ++ s2 /\ k s2 g = Some x
    /\ forall t1 c t2, t = t1 ++ c :: t2 -> k (c :: t2 ++ s2) g = None.
Proof.
  revert s. induction fuel as [|fuel IH]; intros s H; simpl in H.
  { exists [], s. split; [done|]. split; [done|]. by intros [|] ? ?. }
  destruct (k s g) eqn:E.
  { injection H as ->. exists [], s. split; [done|]. split; [done|].
    by intros [|] ? ?. }
  destruct s as [|c s]; [done|]. simpl in H.
  replace (length s <? S (length s))%nat with true in H
    by (symmetry; apply Nat.ltb_lt; lia).
  apply IH in H as (t & s2 & -> & Hk & Hbefore).
  exists (c :: t), s2. split; [done|]. split; [done|].
  intros [|c1 t1] c' t2 Ht; simpl in Ht; injection Ht as -> ->.
  - exact E.
  - by apply (Hbefore t1 c' t2).
Qed.

(** Before a border rule, [.*?] and the border always match. *)
Lemma star_lazy_border {R} (k : str -> caps -> option R) fuel a b g :
  (forall s g, is_Some (k s g)) -> (length a <= fuel)%nat ->
  is_Some (star_loop false (run (Set_ [AAny])) (run border k) fuel
             (a ++ [BOX_H; BOX_H; BOX_H] ++ b) g).
Proof.
  intros Hk. revert fuel. induction a as [|c a IH]; intros fuel Hfuel.
  - assert (is_Some (run border k ([BOX_H; BOX_H; BOX_H] ++ b) g)) as [x Hx].
    { unfold border. rewrite run_Lit. apply Hk. }
    change ([] ++ [BOX_H; BOX_H; BOX_H] ++ b) with ([BOX_H; BOX_H; BOX_H] ++ b).
    destruct fuel; cbn [star_loop]; rewrite Hx; eauto.
  - destruct fuel as [|fuel]; [simpl in Hfuel; lia|].
    cbn [star_loop].
    destruct (run border k ((c :: a) ++ [BOX_H; BOX_H; BOX_H] ++ b) g);
      [eauto|].
    change ((c :: a) ++ [BOX_H; BOX_H; BOX_H] ++ b)
      with (c :: (a ++ [BOX_H; BOX_H; BOX_H] ++ b)).
    cbn [run]. unfold set_ok at 1. cbn [existsb atom_ok orb].
    replace (length (a ++ [BOX_H; BOX_H; BOX_H] ++ b)
             <? length (c :: a ++ [BOX_H; BOX_H; BOX_H] ++ b))%nat
      with true by (symmetry; apply Nat.ltb_lt; simpl; lia).
    apply IH. simpl in Hfuel. lia.
Qed.

Lemma run_lazy_border {R} (k : str -> caps -> option R) a b g :
  (forall s g, is_Some (k s g)) ->
  is_Some (run lazy_any (run border k) (a ++ [BOX_H; BOX_H; BOX_H] ++ b) g).
Proof.
  intros Hk. unfold lazy_any. simpl run at 1.
  apply star_lazy_border; [done|]. rewrite length_app. lia.
Qed.

Lemma run_lazy_border_inv {R} (k : str -> caps -> option R) s g x :
  run lazy_any (run border k) s g = Some x ->
  exists a b, s = a ++ [BOX_H; BOX_H; BOX_H] ++ b.
Proof.
  intros H. apply run_sound in H as (a & s2 & g1 & -> & _ & _ & H).
  apply run_sound in H as (m & b & g2 & -> & Hm & _ & _).
  apply matches_Lit in Hm as ->. eauto.
Qed.

Lemma run_Chr_inv {R} c (k : str -> caps -> option R) s g x :
  run (Chr c) k s g = Some x -> exists s', s = c :: s' /\ k s' g = Some x.
Proof.
  destruct s as [|c' s]; [done|]. simpl. unfold set_ok. simpl.
  rewrite orb_false_r. destruct (c' =? c)%N eqn:E; [|done].
  apply N.eqb_eq in E as ->. eauto.
Qed.

(** The group of the APK pattern never holds a line break: had it one,
    the lazy group would have stopped there, for the border rule that
    ends the match follows that line break as well. *)
Lemma apk_group_one_line s g x :
  run (Group 1 lazy_any) (run (Seq [Chr LF; lazy_any; border]) (fun _ g => Some g))
    s g = Some x ->
  exists t, x = (1%nat, t) :: g /\ LF ∉ t.
Proof.
  intros H.
  set (K := run (Seq [Chr LF; lazy_any; border]) (fun _ g => Some g)) in *.
  change (star_loop false (run (Set_ [AAny]))
            (fun s' g' => K s' ((1%nat, take (length s - length s') s) :: g'))
            (length s) s g = Some x) in H.
  apply star_lazy_any_first in H as (t & s2 & -> & Hk & Hbefore).
  rewrite take_prefix in Hk.
  assert (Hx : x = (1%nat, t) :: g).
  { unfold K in Hk. apply run_no_groups in Hk as [s3 [= ->]]; done. }
  exists t. split; [done|]. intros Hin.
  apply list_elem_of_split in Hin as (t1 & t2 & ->).
  specialize (Hbefore t1 LF t2 eq_refl).
  change K
    with (run (Chr LF) (run lazy_any (run border
            (@run caps Eps (fun _ g => Some g))))) in Hk, Hbefore.
  apply run_Chr_inv in Hk as (s3 & -> & Hk).
  apply run_lazy_border_inv in Hk as (a & b & ->).
  rewrite run_Chr in Hbefore.
  replace (t2 ++ LF :: a ++ [BOX_H; BOX_H; BOX_H] ++ b)
    with ((t2 ++ LF :: a) ++ [BOX_H; BOX_H; BOX_H] ++ b) in Hbefore
    by (by rewrite <- app_assoc).
  match type of Hbefore with
  | run lazy_any ?K' _ ?G = None =>
      destruct (run_lazy_border (run Eps (fun _ g => Some g))
                  (t2 ++ LF :: a) b G) as [y Hy]
  end.
  { intros s' g'. simpl. eauto. }
  congruence.
Qed.

Lemma apk_re_group content m :
  search apk_re content = Some m -> exists t, m = [(1%nat, t)] /\ LF ∉ t.
Proof.
  intros H. apply search_run in H as (pre & s' & _ & H).
  change apk_re with
    (Seq ([Lit (u "APK"); Plus space; Chr BOX_V; lazy_any; Lit (u "compressed");
           lazy_any; Chr BOX_V; lazy_any; Lit (u "uncompressed"); lazy_any;
           Chr LF; lazy_any; border; lazy_any; Chr LF]
          ++ [Group 1 lazy_any; Chr LF; lazy_any; border])) in H.
  rewrite run_Seq_app in H.
  apply run_no_groups in H as [s2 H]; [|done].
  by apply apk_group_one_line in H.
Qed.

Lemma strip_no_LF t : LF ∉ t -> LF ∉ strip t.
Proof.
  intros H Hin. apply H.
  destruct (strip_split t) as (ws1 & ws2 & -> & _ & _). set_solver.
Qed.

(** Whatever the report, the loop over the APK table runs over one line. *)
Lemma apk_table_one_line content m :
  search apk_re content = Some m -> exists line, table_lines m = [line].
Proof.
  intros H. apply apk_re_group in H as (t & -> & Ht).
  exists (strip t). unfold table_lines.
  change (group_of 1 [(1%nat, t)]) with t.
  by apply split_no_sep, strip_no_LF.
Qed.

(** C2, as the code has it: the lazy group of the APK pattern ends at
    the first line break behind which a border rule follows anywhere, so
    in every report the loop over the table runs over one line, the
    first row.  On a table with a dex row and a total row the parser
    accepts the report, records the new sizes of the dex row, and never
    sees the total row: the size tables have no entry [total], although
    the total row is well formed and its new-side cells parse to 5.9 and
    12.2.  Only with the total row first does the parser record 5.9. *)
Theorem apk_total_row_not_recorded :
  (forall content m,
     search apk_re content = Some m -> exists line, table_lines m = [line])
  /\ exists r m,
    parse_diffuse_slim_report (u "total.txt") total_report = (Some r, [])
    /\ search apk_re total_report = Some m
    /\ table_lines m = [dex_row]
    /\ compressed (apk_sizes r) !! u "dex" = Some (float_of_decimal 32 1)
    /\ uncompressed (apk_sizes r) !! u "dex" = Some (float_of_decimal 72 1)
    /\ row_key total_row = u "total"
    /\ length (row_cells total_row) = 7%nat
    /\ parse_size_value (cell 2 (row_cells total_row))
       = ok (Some (float_of_decimal 59 1))
    /\ parse_size_value (cell 5 (row_cells total_row))
       = ok (Some (float_of_decimal 122 1))
    /\ compressed (apk_sizes r) !! u "total" = None
    /\ uncompressed (apk_sizes r) !! u "total" = None
    /\ exists r',
         parse_diffuse_slim_report (u "total.txt") total_only_report
         = (Some r', [])
         /\ compressed (apk_sizes r') !! u "total" = Some (float_of_decimal 59 1)
         /\ uncompressed (apk_sizes r') !! u "total"
            = Some (float_of_decimal 122 1).
Proof.
  split; [exact apk_table_one_line|].
  eexists _, _. split; [vm_compute; reflexivity|].
  split; [vm_compute; reflexivity|].
  do 9 (split; [by vm_compute|]).
  eexists. split; [vm_compute; reflexivity|]. by vm_compute.
Qed.

Lemma apk_total_row_not_recorded_witness :
  exists line,
    table_lines [(1%nat, u "      dex │   3.1 MiB │   3.2 MiB │ +912 B │   7.1 MiB │   7.2 MiB │ +1 KiB")]
    = [line].
Proof.
  apply (proj1 apk_total_row_not_recorded total_report). by vm_compute.
Defined.

(** ** Runs of digits *)

Lemma digits_from_total acc s :
  Forall (fun c => is_digit c = true) s -> is_Some (digits_from acc s).
Proof.
  intros H. revert acc. induction H as [|c s Hc _ IH]; intros acc; simpl; [eauto|].
  unfold is_digit in Hc. destruct (to_decimal c); [apply IH|done].
Qed.

(** * Further properties of the scripts *)

(** ** The timeline builder on arbitrary reports *)

Section SortedOrder.
Context {A : Type} (key : A -> option Z).

(** An insertion that returns keeps the list ascending. *)
Lemma insert_by_keeps_sorted x l l' :
  StronglySorted (key_le key) l -> insert_by key x l = ok l' ->
  StronglySorted (key_le key) l'.
Proof.
  destruct l as [|y l].
  - intros _ [= <-]. repeat constructor.
  - intros Hs E. eapply insert_by_sorted; [|exact Hs|exact E].
    simpl in E. unfold has_key. destruct (key x); [by eexists|].
    simpl in E. discriminate.
Qed.

Lemma filter_none (P : A -> Prop) `{!forall a, Decision (P a)} l :
  Forall (fun a => ~ P a) l -> filter P l = [].
Proof.
  induction 1 as [|a l Ha _ IH]; [done|].
  rewrite filter_cons, IH. by destruct (decide (P a)).
Qed.

(** The inserted item goes behind the items with the same key. *)
Lemma insert_by_filter (c : Z) x l l' :
  StronglySorted (key_le key) l -> insert_by key x l = ok l' ->
  filter (fun a => key a = Some c) l'
  = filter (fun a => key a = Some c) l
    ++ (if decide (key x = Some c) then [x] else []).
Proof.
  intros Hs. revert l'. induction Hs as [|y l Hs IH Hy]; intros l'; simpl.
  - intros [= <-]. rewrite filter_cons, filter_nil. by destruct (decide _).
  - destruct (key x) as [kx|] eqn:Ex, (key y) as [ky|] eqn:Ey; simpl;
      try discriminate.
    destruct (kx <? ky) eqn:Hlt.
    + intros [= <-]. apply Z.ltb_lt in Hlt.
      rewrite (filter_cons _ x). cbn beta. rewrite Ex.
      destruct (decide (Some kx = Some c)) as [[= ->]|Hne];
        [|by rewrite app_nil_r].
      assert (filter (fun a => key a = Some c) (y :: l) = []) as ->; [|done].
      apply filter_none. constructor.
      * rewrite Ey. intros [= ->]. lia.
      * eapply Forall_impl; [exact Hy|]. intros z. unfold key_le.
        rewrite Ey. destruct (key z); [|done]. intros ? [= ->]. lia.
    + destruct (insert_by key x l) as [e|l''] eqn:E; simpl; [discriminate|].
      intros [= <-]. rewrite !(filter_cons _ y), (IH l'' eq_refl). cbn beta.
      by destruct (decide (key y = Some c)).
Qed.

(** [sorted] is stable: the items with one and the same key keep the
    order they had. *)
Lemma for_each_insert_by_stable (c : Z) l acc l' :
  StronglySorted (key_le key) acc ->
  for_each (insert_by key) l acc = ok l' ->
  StronglySorted (key_le key) l'
  /\ filter (fun a => key a = Some c) l'
     = filter (fun a => key a = Some c) acc
       ++ filter (fun a => key a = Some c) l.
Proof.
  revert acc. induction l as [|x l IH]; intros acc Hs; simpl.
  - intros [= <-]. by rewrite filter_nil, app_nil_r.
  - intros H. apply ebind_ok in H as (acc' & E & H).
    destruct (IH acc' (insert_by_keeps_sorted _ _ _ Hs E) H) as [Hs' ->].
    split; [done|].
    rewrite (insert_by_filter c x acc acc' Hs E), filter_cons, <- app_assoc.
    by destruct (decide (key x = Some c)).
Qed.

Lemma py_sorted_stable (c : Z) l l' :
  py_sorted key l = ok l' ->
  StronglySorted (key_le key) l'
  /\ filter (fun a => key a = Some c) l' = filter (fun a => key a = Some c) l.
Proof.
  intros H. apply (for_each_insert_by_stable c) in H; [|constructor].
  by rewrite filter_nil in H.
Qed.

(** [sorted] returns unless two items or more are compared and one of
    them has no key. *)
Lemma py_sorted_returns l :
  (length l <= 1)%nat \/ Forall (has_key key) l ->
  exists l', py_sorted key l = ok l'.
Proof.
  intros [Hlen|Hk].
  - destruct l as [|x [|y l]]; simpl in Hlen; [by eexists|by eexists|lia].
  - destruct (py_sorted_spec key l Hk) as (l' & E & _). eauto.
Qed.

Lemma py_sorted_exn l e :
  py_sorted key l = raise e ->
  e = TypeError_lt /\ (2 <= length l)%nat /\ Exists (fun a => key a = None) l.
Proof.
  intros H.
  assert (Hlen : (2 <= length l)%nat).
  { destruct (le_lt_dec 2 (length l)) as [|Hlt]; [done|].
    destruct (py_sorted_returns l) as [l' E]; [left; lia|].
    rewrite E in H. discriminate. }
  assert (Hex : Exists (fun a => key a = None) l).
  { destruct (decide (Forall (has_key key) l)) as [Hk|Hk].
    - destruct (py_sorted_returns l) as [l' E]; [by right|].
      rewrite E in H. discriminate.
    - apply not_Forall_Exists in Hk; [|apply _].
      eapply Exists_impl; [exact Hk|]. intros a Ha.
      destruct (key a) eqn:Ea; [|done]. destruct Ha. unfold has_key.
      rewrite Ea. by eexists. }
  split; [|done].
  rewrite (py_sorted_raises key l Hlen Hex) in H. by injection H as <-.
Qed.

End SortedOrder.

Lemma filter_map_new_snapshot (c : Z) rs :
  filter (fun e => Snapshot.versionCode e = Some c) (map new_snapshot rs)
  = map new_snapshot (filter (fun r => new_version_code r = Some c) rs).
Proof.
  induction rs as [|r rs IH]; [done|].
  simpl map. rewrite !filter_cons, IH. simpl.
  by destruct (decide (new_version_code r = Some c)).
Qed.

(** X1: with a version code on every report the builder returns the
    timeline of the reports in ascending order of [new_version_code],
    whatever their order in the input; the seed entry is the old side of
    a report whose code no other report undercuts. *)
Theorem build_ascending (rs : list ParsedReport) :
  rs <> [] -> Forall (has_key new_version_code) rs ->
  exists first rest,
    build_cumulative_data rs = ok (timeline_of first rest)
    /\ first :: rest ≡ₚ rs
    /\ StronglySorted (key_le new_version_code) (first :: rest)
    /\ Forall (key_le new_version_code first) rs.
Proof.
  intros Hne Hk.
  destruct (py_sorted_spec new_version_code rs Hk) as (l & E & Hp & Hs).
  destruct l as [|first rest]; [by apply Permutation_nil in Hp|].
  exists first, rest. split; [by apply build_sorted|]. do 2 (split; [done|]).
  rewrite <- Hp. pose proof Hs as Hs'.
  apply StronglySorted_inv in Hs' as [_ Hf]. constructor; [|done].
  assert (Hin : first ∈ rs) by (rewrite <- Hp; left).
  rewrite Forall_forall in Hk. destruct (Hk first Hin) as [k Hkey].
  unfold key_le. rewrite Hkey. lia.
Qed.

Lemma build_ascending_witness :
  exists first rest,
    build_cumulative_data [report_CD; report_AB; report_BC]
    = ok (timeline_of first rest)
    /\ first :: rest ≡ₚ [report_CD; report_AB; report_BC]
    /\ StronglySorted (key_le new_version_code) (first :: rest)
    /\ Forall (key_le new_version_code first) [report_CD; report_AB; report_BC].
Proof.
  apply (build_ascending [report_CD; report_AB; report_BC]); [done|].
  repeat constructor; by eexists.
Defined.

Lemma build_exn rs e :
  build_cumulative_data rs = raise e ->
  e = TypeError_lt
  /\ (2 <= length rs)%nat
  /\ Exists (fun r => new_version_code r = None) rs.
Proof.
  unfold build_cumulative_data. destruct rs as [|r rs]; [discriminate|].
  destruct (py_sorted new_version_code (r :: rs)) as [e'|l] eqn:E; simpl.
  - intros [= <-]. by apply py_sorted_exn in E.
  - destruct l as [|first rest]; [|discriminate].
    apply py_sorted_perm, Permutation_nil in E. discriminate.
Qed.

(** X2: the only failure of the builder is the TypeError of [sorted]: it
    takes two reports or more, one of them without a version code.  The
    access to [sorted_reports[0]] never fails. *)
Theorem build_fails_only_without_code (rs : list ParsedReport) (e : exn) :
  build_cumulative_data rs = raise e ->
  e = TypeError_lt
  /\ (2 <= length rs)%nat
  /\ Exists (fun r => new_version_code r = None) rs.
Proof. apply build_exn. Qed.

Lemma build_fails_only_without_code_witness :
  TypeError_lt = TypeError_lt
  /\ (2 <= length [report_uncoded; report_AB])%nat
  /\ Exists (fun r => new_version_code r = None) [report_uncoded; report_AB].
Proof.
  apply (build_fails_only_without_code [report_uncoded; report_AB]).
  reflexivity.
Defined.

(** X3: every report gives the timeline exactly one entry, its new
    side, whether or not the reports chain: behind the seed entry the
    timeline is a rearrangement of the new sides of the reports, so it
    has one entry more than there are reports, and the old side of no
    report but the seed's enters it. *)
Theorem build_entry_per_report (rs : list ParsedReport) (tl : list Snapshot.t) :
  build_cumulative_data rs = ok tl -> rs <> [] ->
  exists first entries,
    tl = seed_snapshot first :: entries
    /\ first ∈ rs
    /\ entries ≡ₚ map new_snapshot rs
    /\ length tl = S (length rs).
Proof.
  intros H Hne. destruct (build_inv rs tl H Hne) as (first & rest & E & ->).
  apply py_sorted_perm in E.
  exists first, (map new_snapshot (first :: rest)).
  split; [done|]. split; [rewrite <- E; left|].
  split; [by rewrite E|].
  unfold timeline_of. cbn [length]. by rewrite length_map, E.
Qed.

Lemma build_entry_per_report_witness :
  exists first entries,
    timeline_of report_AB [report_AB'] = seed_snapshot first :: entries
    /\ first ∈ [report_AB; report_AB']
    /\ entries ≡ₚ map new_snapshot [report_AB; report_AB']
    /\ length (timeline_of report_AB [report_AB']) = 3%nat.
Proof.
  apply (build_entry_per_report [report_AB; report_AB']); [reflexivity|done].
Defined.

(** X4: [sorted] is stable, so the entries of reports with one and the
    same version code stand in the timeline in the order the reports had
    in the input. *)
Theorem build_keeps_input_order (rs : list ParsedReport) (tl : list Snapshot.t)
    (c : Z) :
  build_cumulative_data rs = ok tl ->
  filter (fun e => Snapshot.versionCode e = Some c) (tail tl)
  = map new_snapshot (filter (fun r => new_version_code r = Some c) rs).
Proof.
  intros H. destruct rs as [|r rs]; [by injection H as <-|].
  destruct (build_inv _ tl H) as (first & rest & E & ->); [done|].
  apply (py_sorted_stable _ c) in E as [_ E].
  unfold timeline_of. cbn [tail]. by rewrite filter_map_new_snapshot, E.
Qed.

Lemma build_keeps_input_order_witness :
  filter (fun e => Snapshot.versionCode e = Some 2)
    (tail (timeline_of report_AB' [report_AB; report_BC]))
  = map new_snapshot
      (filter (fun r => new_version_code r = Some 2)
         [report_BC; report_AB'; report_AB]).
Proof.
  apply (build_keeps_input_order [report_BC; report_AB'; report_AB]).
  reflexivity.
Defined.

(** ** The count parser on texts without a digit *)


Lemma int_tail_digit_count s :
  (digit_count (fst (int_tail s)) <= digit_count s)%nat.
Proof.
  rewrite <- (int_tail_app s) at 2. rewrite digit_count_app. lia.
Qed.

Lemma first_integer_text_digit_count s tok :
  first_integer_text s = Some tok -> (digit_count tok <= digit_count s)%nat.
Proof.
  induction s as [|c s IH]; simpl; [done|].
  pose proof (int_tail_digit_count s) as Ht.
  destruct (is_digit c) eqn:Hc.
  - intros [= <-]. rewrite !digit_count_cons_digit by done. lia.
  - rewrite (digit_count_cons_other c s) by done.
    destruct (is_sign c && starts_with_digit s).
    + intros [= <-]. by rewrite digit_count_cons_other by done.
    + exact IH.
Qed.

Lemma first_integer_digits_le s : (first_integer_digits s <= digit_count s)%nat.
Proof.
  unfold first_integer_digits.
  destruct (first_integer_text s) as [tok|] eqn:E; simpl; [|lia].
  by apply first_integer_text_digit_count.
Qed.


(** ** The tables of an accepted report *)

Lemma slim_report_body name content r log :
  parse_diffuse_slim_report name content = (Some r, log) ->
  parse_body name content = ok (Some r, log).
Proof.
  unfold parse_diffuse_slim_report.
  destruct (parse_body name content) as [e|res]; [discriminate|].
  by intros ->.
Qed.

Lemma count_row_spec known line metrics metrics' k n :
  count_row known line metrics = ok metrics' ->
  metrics' !! k = Some n ->
  metrics !! k = Some n
  \/ (k ∈ known /\ (3 <= length (row_cells line))%nat /\ row_key line = k
      /\ first_integer (cell 2 (row_cells line)) = Some n).
Proof.
  unfold count_row, row_key, row_cells.
  destruct (contains BOX_V line); simpl; [|intros [= <-]; by left].
  destruct (length (map strip (split BOX_V line)) <? 3)%nat eqn:Hlen;
    [intros [= <-]; by left|].
  apply Nat.ltb_ge in Hlen.
  destruct (bool_decide _) eqn:Hk; [|intros [= <-]; by left].
  apply bool_decide_eq_true in Hk.
  destruct (parse_number_value _) as [e|v] eqn:Hp; simpl; [discriminate|].
  apply parse_number_value_ok in Hp.
  destruct v as [v|]; [|intros [= <-]; by left]. symmetry in Hp.
  intros [= <-] Hn.
  destruct (decide (strip (cell 0 (map strip (split BOX_V line))) = k)) as [<-|Hne].
  - rewrite lookup_insert_eq in Hn. injection Hn as <-. by right.
  - rewrite lookup_insert_ne in Hn by done. by left.
Qed.

Lemma count_rows_provenance known lines metrics0 metrics k n :
  for_each (count_row known) lines metrics0 = ok metrics ->
  metrics !! k = Some n ->
  metrics0 !! k = Some n
  \/ (k ∈ known
      /\ exists line, line ∈ lines /\ (3 <= length (row_cells line))%nat
           /\ row_key line = k
           /\ first_integer (cell 2 (row_cells line)) = Some n).
Proof.
  revert metrics0. induction lines as [|line lines IH]; intros metrics0 H Hn.
  { injection H as <-. by left. }
  simpl in H. apply ebind_ok in H as (metrics1 & Hrow & H).
  destruct (IH _ H Hn) as [Hn'|(Hk & l & Hl & Hrest)].
  - destruct (count_row_spec _ _ _ _ _ _ Hrow Hn') as [?|(Hk & Hrest)];
      [by left|right].
    split; [done|]. exists line. split; [left|done].
  - right. split; [done|]. exists l. split; [by right|done].
Qed.

(** X6: the DEX and ARSC tables of an accepted report hold nothing but
    the known metric names, and the value under a name is the first
    integer of the third cell, the new side, of a row with that name
    among the captured lines of the section; rows with other names are
    ignored. *)
Theorem count_tables_known_names (name content : str) (r : ParsedReport)
    (log : list log_line) :
  parse_diffuse_slim_report name content = (Some r, log) ->
  (forall k n, dex_metrics r !! k = Some n ->
     k ∈ dex_names
     /\ exists m line,
          search dex_re content = Some m /\ line ∈ table_lines m
          /\ (3 <= length (row_cells line))%nat /\ row_key line = k
          /\ first_integer (cell 2 (row_cells line)) = Some n)
  /\ (forall k n, arsc_metrics r !! k = Some n ->
        k ∈ arsc_names
        /\ exists m line,
             search arsc_re content = Some m /\ line ∈ table_lines m
             /\ (3 <= length (row_cells line))%nat /\ row_key line = k
             /\ first_integer (cell 2 (row_cells line)) = Some n).
Proof.
  intros H. apply slim_report_body, parse_body_inv in H
    as (_ & _ & _ & Hdex & Harsc).
  split; intros k n Hn.
  - destruct (search dex_re content) as [m|];
      [|injection Hdex as Hd; rewrite <- Hd in Hn; by rewrite lookup_empty in Hn].
    destruct (count_rows_provenance _ _ _ _ _ _ Hdex Hn)
      as [?|(Hk & line & Hl)]; [done|].
    split; [done|]. by exists m, line.
  - destruct (search arsc_re content) as [m|];
      [|injection Harsc as Hd; rewrite <- Hd in Hn; by rewrite lookup_empty in Hn].
    destruct (count_rows_provenance _ _ _ _ _ _ Harsc Hn)
      as [?|(Hk & line & Hl)]; [done|].
    split; [done|]. by exists m, line.
Qed.

Lemma sample_report_parsed :
  parse_diffuse_slim_report (u "1.0.1-slim.txt") sample_report
  = (Some (parsed (u "1.0.1-slim.txt") sample_report), []).
Proof. vm_compute. reflexivity. Qed.

Lemma count_tables_known_names_witness :
  (forall k n,
     dex_metrics (parsed (u "1.0.1-slim.txt") sample_report) !! k = Some n ->
     k ∈ dex_names
     /\ exists m line,
          search dex_re sample_report = Some m /\ line ∈ table_lines m
          /\ (3 <= length (row_cells line))%nat /\ row_key line = k
          /\ first_integer (cell 2 (row_cells line)) = Some n)
  /\ (forall k n,
        arsc_metrics (parsed (u "1.0.1-slim.txt") sample_report) !! k = Some n ->
        k ∈ arsc_names
        /\ exists m line,
             search arsc_re sample_report = Some m /\ line ∈ table_lines m
             /\ (3 <= length (row_cells line))%nat /\ row_key line = k
             /\ first_integer (cell 2 (row_cells line)) = Some n).
Proof.
  apply (count_tables_known_names (u "1.0.1-slim.txt") sample_report _ []).
  exact sample_report_parsed.
Defined.

(** ** The header and the version codes of an accepted report *)

(** [re.search] returns the match at the first position that has one. *)
Lemma search_first r s g :
  search r s = Some g ->
  exists pre s',
    s = pre ++ s' /\ run r (fun _ g => Some g) s' [] = Some g
    /\ forall p1 p2, pre = p1 ++ p2 -> p2 <> [] ->
         run r (fun _ g => Some g) (p2 ++ s') [] = None.
Proof.
  induction s as [|c s IH]; rewrite search_unfold.
  - destruct (run r _ [] []) eqn:E; [|done]. intros [= ->].
    exists [], []. split; [done|]. split; [done|].
    intros p1 p2 Hp. by destruct p1, p2.
  - destruct (run r _ (c :: s) []) eqn:E.
    + intros [= ->]. exists [], (c :: s). split; [done|]. split; [done|].
      intros p1 p2 Hp. by destruct p1, p2.
    + intros H. apply IH in H as (pre & s' & -> & H & Hfirst).
      exists (c :: pre), s'. split; [done|]. split; [done|].
      intros [|c' p1] p2 Hp Hne; simpl in Hp.
      * by subst p2.
      * injection Hp as <- ->. by apply (Hfirst p1).
Qed.

Lemma search_none r pre s :
  search r (pre ++ s) = None -> run r (fun _ g => Some g) s [] = None.
Proof.
  intros H. destruct (run r _ s []) as [g|] eqn:E; [|done].
  destruct (search_app r pre s g E) as [g' Hg]. congruence.
Qed.

Lemma version_re_forward s old new :
  header_at s old new ->
  run version_re (fun _ g => Some g) s [] = Some [(2%nat, new); (1%nat, old)].
Proof.
  intros (ws1 & ws2 & ws3 & post & -> & H1 & Ho & H2 & H3 & Hn & Hpost).
  unfold version_re, Seq. cbn [run]. rewrite run_Lit.
  eapply run_plus_space; [done|by apply dotted_no_head_space|].
  cbn [run]. eapply run_plus_dotted; [done|by apply blank_no_head_dotted|].
  cbv beta. rewrite take_prefix.
  eapply run_plus_space; [done|done|].
  rewrite run_Chr.
  eapply run_plus_space; [done|by apply dotted_no_head_space|].
  cbn [run]. eapply run_plus_dotted; [done|done|].
  cbv beta. by rewrite take_prefix.
Qed.

Lemma version_re_backward s vm :
  run version_re (fun _ g => Some g) s [] = Some vm ->
  exists old new, header_at s old new /\ vm = [(2%nat, new); (1%nat, old)].
Proof.
  intros Hrun. pose proof Hrun as H.
  apply run_sound in H as (m & post & g' & -> & H & _ & _).
  unfold version_re, Seq in H.
  apply matches_cat_inv in H as (s1 & m1 & -> & H1 & H).
  apply matches_cat_inv in H as (s2 & m2 & -> & H2 & H).
  apply matches_cat_inv in H as (s3 & m3 & -> & H3 & H).
  apply matches_cat_inv in H as (s4 & m4 & -> & H4 & H).
  apply matches_cat_inv in H as (s5 & m5 & -> & H5 & H).
  apply matches_cat_inv in H as (s6 & m6 & -> & H6 & H).
  apply matches_cat_inv in H as (s7 & m7 & -> & H7 & H).
  apply matches_eps_inv in H as ->.
  apply matches_Lit in H1 as ->. apply matches_plus_space in H2, H4, H6.
  apply matches_group_inv, matches_plus_set in H3, H7.
  apply matches_Chr in H5 as ->.
  destruct (class_run (set_ok [ADigit; AChar DOT]) post)
    as (more & post' & -> & Hmore & Hpost).
  assert (Hh : header_at
            ((u "Diffuse Comparison:" ++ s2 ++ s3 ++ s4 ++ [ARROW] ++ s6 ++ s7 ++ [])
             ++ more ++ post') s3 (s7 ++ more)).
  { exists s2, s4, s6, post'. split.
    - rewrite app_nil_r. by rewrite <- !app_assoc.
    - do 4 (split; [done|]). split; [|done].
      destruct H7 as [Hne H7]. split; [by destruct s7|by apply Forall_app]. }
  exists s3, (s7 ++ more). split; [done|].
  apply version_re_forward in Hh. congruence.
Qed.

Lemma numeral_no_head_space d s : numeral d -> no_head (set_ok [ASpace]) (d ++ s).
Proof.
  intros [Hne H]. destruct H as [|c d Hc _]; [done|].
  change (set_ok [ASpace] c = false). rewrite set_ok_space.
  by apply digit_not_space.
Qed.

Lemma blank_no_head_digit ws s : blank ws -> no_head (set_ok [ADigit]) (ws ++ s).
Proof.
  intros [Hne H]. destruct H as [|c ws Hc _]; [done|].
  change (set_ok [ADigit] c = false). rewrite set_ok_digit.
  by apply space_not_digit.
Qed.

Lemma run_plus_numeral {R} (k : str -> caps -> option R) d rest g x :
  numeral d -> no_head (set_ok [ADigit]) rest -> k rest g = Some x ->
  run (Plus digit) k (d ++ rest) g = Some x.
Proof.
  intros [Hne H] Hrest Hk. destruct H as [|c d Hc H]; [done|].
  apply run_plus_set; try done; [by rewrite set_ok_digit|].
  by apply Forall_digit_set.
Qed.

Lemma matches_plus_digit s rest : matches (Plus digit) s rest -> numeral s.
Proof.
  intros H. apply matches_plus_set in H as [Hne H]. split; [done|].
  eapply Forall_impl; [exact H|]. intros c Hc. by rewrite <- set_ok_digit.
Qed.

Lemma version_code_re_forward s d1 d2 :
  code_row_at s d1 d2 ->
  run version_code_re (fun _ g => Some g) s [] = Some [(2%nat, d2); (1%nat, d1)].
Proof.
  intros (ws1 & ws2 & ws3 & ws4 & post & -> & H1 & H2 & Hd1 & H3 & H4 & Hd2 & Hpost).
  unfold version_code_re, Seq. cbn [run]. rewrite run_Lit.
  eapply run_plus_space; [done|by vm_compute|].
  rewrite run_Chr.
  eapply run_plus_space; [done|by apply numeral_no_head_space|].
  cbn [run]. eapply run_plus_numeral; [done|by apply blank_no_head_digit|].
  cbv beta. rewrite take_prefix.
  eapply run_plus_space; [done|by vm_compute|].
  rewrite run_Chr.
  eapply run_plus_space; [done|by apply numeral_no_head_space|].
  cbn [run]. eapply run_plus_numeral; [done|done|].
  cbv beta. by rewrite take_prefix.
Qed.

Lemma version_code_re_backward s m :
  run version_code_re (fun _ g => Some g) s [] = Some m ->
  exists d1 d2, code_row_at s d1 d2 /\ m = [(2%nat, d2); (1%nat, d1)].
Proof.
  intros Hrun. pose proof Hrun as H.
  apply run_sound in H as (mt & post & g' & -> & H & _ & _).
  unfold version_code_re, Seq in H.
  apply matches_cat_inv in H as (s1 & m1 & -> & H1 & H).
  apply matches_cat_inv in H as (s2 & m2 & -> & H2 & H).
  apply matches_cat_inv in H as (s3 & m3 & -> & H3 & H).
  apply matches_cat_inv in H as (s4 & m4 & -> & H4 & H).
  apply matches_cat_inv in H as (s5 & m5 & -> & H5 & H).
  apply matches_cat_inv in H as (s6 & m6 & -> & H6 & H).
  apply matches_cat_inv in H as (s7 & m7 & -> & H7 & H).
  apply matches_cat_inv in H as (s8 & m8 & -> & H8 & H).
  apply matches_cat_inv in H as (s9 & m9 & -> & H9 & H).
  apply matches_eps_inv in H as ->.
  apply matches_Lit in H1 as ->.
  apply matches_plus_space in H2, H4, H6, H8.
  apply matches_group_inv, matches_plus_digit in H5, H9.
  apply matches_Chr in H3 as ->. apply matches_Chr in H7 as ->.
  destruct (class_run (set_ok [ADigit]) post)
    as (more & post' & -> & Hmore & Hpost).
  assert (Hh : code_row_at
            ((u "version code" ++ s2 ++ [BOX_V] ++ s4 ++ s5 ++ s6 ++ [BOX_V]
              ++ s8 ++ s9 ++ []) ++ more ++ post') s5 (s9 ++ more)).
  { exists s2, s4, s6, s8, post'. split.
    - rewrite app_nil_r. by rewrite <- !app_assoc.
    - do 5 (split; [done|]). split; [|done].
      destruct H9 as [Hne H9]. split; [by destruct s9|].
      apply Forall_app. split; [done|].
      eapply Forall_impl; [exact Hmore|]. intros c Hc. by rewrite <- set_ok_digit. }
  exists s5, (s9 ++ more). split; [done|].
  apply version_code_re_forward in Hh. congruence.
Qed.

Lemma py_int_numeral d :
  numeral d ->
  exists n,
    digits d = Some n
    /\ py_int d = if (int_max_str_digits <? length d)%nat
                  then raise (ValueError_int_limit (length d))
                  else ok (Z.of_N n).
Proof.
  intros [Hne Hd]. destruct d as [|c d]; [done|].
  pose proof (Forall_inv Hd) as Hc. cbv beta in Hc.
  pose proof (digit_not_sign c Hc) as Hs. unfold is_sign in Hs.
  apply orb_false_iff in Hs as [Hp Hm].
  unfold py_int. rewrite Hp, Hm. unfold int_digits.
  rewrite take_while_all by done. unfold digits.
  destruct (digits_from_total 0 (c :: d) Hd) as [n ->].
  exists n. split; [done|]. by destruct (_ <? _)%nat.
Qed.

(** X7: the versions of an accepted report are read from the first
    comparison header of the text: [old_version] is the run of digits and
    dots before the arrow and [new_version] the whole run behind it. *)
Theorem versions_from_first_header (name content : str) (r : ParsedReport)
    (log : list log_line) :
  parse_diffuse_slim_report name content = (Some r, log) ->
  exists s,
    first_at (fun s => exists old new, header_at s old new) content s
    /\ header_at s (old_version r) (new_version r).
Proof.
  intros H. apply slim_report_body, parse_body_inv in H
    as (_ & (vm & Hvm & -> & ->) & _).
  apply search_first in Hvm as (pre & s & -> & Hrun & Hfirst).
  destruct (version_re_backward _ _ Hrun) as (old & new & Hh & ->).
  exists s. split; [|done]. exists pre. split; [done|].
  split; [by exists old, new|].
  intros p1 p2 -> Hne (o & n & Ho). apply version_re_forward in Ho.
  rewrite (Hfirst p1 p2) in Ho; done.
Qed.

Lemma versions_from_first_header_witness :
  exists s,
    first_at (fun s => exists old new, header_at s old new) sample_report s
    /\ header_at s (old_version (parsed (u "1.0.1-slim.txt") sample_report))
         (new_version (parsed (u "1.0.1-slim.txt") sample_report)).
Proof.
  apply (versions_from_first_header (u "1.0.1-slim.txt") sample_report _ []).
  exact sample_report_parsed.
Defined.

Lemma parse_body_codes name content r log :
  parse_body name content = ok (Some r, log) ->
  match search version_code_re content with
  | None => old_version_code r = None /\ new_version_code r = None
  | Some m =>
      exists n1 n2,
        py_int (group_of 1 m) = ok n1 /\ py_int (group_of 2 m) = ok n2
        /\ old_version_code r = Some n1 /\ new_version_code r = Some n2
  end.
Proof.
  unfold parse_body. destruct (search version_re content) as [vm|]; [|done].
  intros H.
  apply ebind_ok in H as (oc & Hoc & H). apply ebind_ok in H as (nc & Hnc & H).
  apply ebind_ok in H as (sz & _ & H). apply ebind_ok in H as (dx & _ & H).
  apply ebind_ok in H as (ar & _ & H). injection H as <- <-. simpl.
  destruct (search version_code_re content) as [m|].
  - apply ebind_ok in Hoc as (n1 & H1 & [= <-]).
    apply ebind_ok in Hnc as (n2 & H2 & [= <-]). by exists n1, n2.
  - by injection Hoc as <-; injection Hnc as <-.
Qed.

Lemma version_codes_cases name content r log :
  parse_diffuse_slim_report name content = (Some r, log) ->
  ((forall pre s d1 d2, content = pre ++ s -> ~ code_row_at s d1 d2)
   /\ old_version_code r = None /\ new_version_code r = None)
  \/ (exists s d1 d2 n1 n2,
        first_at (fun s => exists d1 d2, code_row_at s d1 d2) content s
        /\ code_row_at s d1 d2
        /\ digits d1 = Some n1 /\ digits d2 = Some n2
        /\ old_version_code r = Some (Z.of_N n1)
        /\ new_version_code r = Some (Z.of_N n2)).
Proof.
  intros H. apply slim_report_body, parse_body_codes in H.
  destruct (search version_code_re content) as [m|] eqn:Hm.
  - right. destruct H as (n1 & n2 & H1 & H2 & Ho & Hn).
    apply search_first in Hm as (pre & s & -> & Hrun & Hfirst).
    destruct (version_code_re_backward _ _ Hrun) as (d1 & d2 & Hrow & ->).
    pose proof Hrow as (ws1 & ws2 & ws3 & ws4 & post & _ & _ & _ & Hd1 & _ & _ & Hd2 & _).
    destruct (py_int_numeral d1 Hd1) as (k1 & Hk1 & E1).
    destruct (py_int_numeral d2 Hd2) as (k2 & Hk2 & E2).
    change (group_of 1 [(2%nat, d2); (1%nat, d1)]) with d1 in H1.
    change (group_of 2 [(2%nat, d2); (1%nat, d1)]) with d2 in H2.
    rewrite E1 in H1. rewrite E2 in H2.
    destruct (int_max_str_digits <? length d1)%nat; [discriminate|].
    destruct (int_max_str_digits <? length d2)%nat; [discriminate|].
    injection H1 as <-. injection H2 as <-.
    exists s, d1, d2, k1, k2. split; [|done].
    exists pre. split; [done|]. split; [by exists d1, d2|].
    intros p1 p2 -> Hne (e1 & e2 & He). apply version_code_re_forward in He.
    rewrite (Hfirst p1 p2) in He; done.
  - left. split; [|done]. intros pre s d1 d2 -> Hrow.
    apply version_code_re_forward in Hrow.
    by rewrite (search_none _ _ _ Hm) in Hrow.
Qed.

(** X8: the two version codes of an accepted report are present
    together or absent together.  They are absent when no tail of the text
    begins with a version code row, and read from the first such row
    otherwise: the two runs of digits, as numbers that are never
    negative. *)
Theorem version_codes_from_first_row (name content : str) (r : ParsedReport)
    (log : list log_line) :
  parse_diffuse_slim_report name content = (Some r, log) ->
  ((forall pre s d1 d2, content = pre ++ s -> ~ code_row_at s d1 d2)
   /\ old_version_code r = None /\ new_version_code r = None)
  \/ (exists s d1 d2 n1 n2,
        first_at (fun s => exists d1 d2, code_row_at s d1 d2) content s
        /\ code_row_at s d1 d2
        /\ digits d1 = Some n1 /\ digits d2 = Some n2
        /\ old_version_code r = Some (Z.of_N n1)
        /\ new_version_code r = Some (Z.of_N n2)).
Proof. apply version_codes_cases. Qed.

Lemma version_codes_from_first_row_witness :
  ((forall pre s d1 d2, sample_report = pre ++ s -> ~ code_row_at s d1 d2)
   /\ old_version_code (parsed (u "1.0.1-slim.txt") sample_report) = None
   /\ new_version_code (parsed (u "1.0.1-slim.txt") sample_report) = None)
  \/ (exists s d1 d2 n1 n2,
        first_at (fun s => exists d1 d2, code_row_at s d1 d2) sample_report s
        /\ code_row_at s d1 d2
        /\ digits d1 = Some n1 /\ digits d2 = Some n2
        /\ old_version_code (parsed (u "1.0.1-slim.txt") sample_report)
           = Some (Z.of_N n1)
        /\ new_version_code (parsed (u "1.0.1-slim.txt") sample_report)
           = Some (Z.of_N n2)).
Proof.
  apply (version_codes_from_first_row (u "1.0.1-slim.txt") sample_report _ []).
  exact sample_report_parsed.
Defined.

(** ** The size parser on every text *)

Lemma take_drop_while p s : take_while p s ++ drop_while p s = s.
Proof.
  induction s as [|c s IH]; simpl; [done|].
  destruct (p c); simpl; [by rewrite IH|done].
Qed.

Lemma take_while_Forall p s : Forall (fun c => p c = true) (take_while p s).
Proof.
  induction s as [|c s IH]; simpl; [done|].
  destruct (p c) eqn:Hc; [by constructor|done].
Qed.

Lemma drop_while_no_head p s : no_head p (drop_while p s).
Proof.
  induction s as [|c s IH]; simpl; [done|].
  by destruct (p c) eqn:Hc.
Qed.

Lemma startswith_spec s t : startswith s t = true <-> exists r, s = t ++ r.
Proof.
  revert s. induction t as [|p t IH]; intros s; simpl.
  - split; [by exists s|done].
  - destruct s as [|c s]; [split; [done|by intros [r Hr]]|].
    rewrite andb_true_iff, IH, N.eqb_eq. split.
    + intros [-> [r ->]]. by exists r.
    + intros [r [= -> ->]]. split; [done|by exists r].
Qed.

Lemma unit_at_spec s unit :
  unit_at s = Some unit ->
  (unit = u "MiB" \/ unit = u "KiB" \/ unit = u "B")
  /\ exists r, s = unit ++ r.
Proof.
  unfold unit_at.
  destruct (startswith s (u "MiB")) eqn:E1;
    [intros [= <-]; split; [auto|by apply startswith_spec]|].
  destruct (startswith s (u "KiB")) eqn:E2;
    [intros [= <-]; split; [auto|by apply startswith_spec]|].
  destruct (startswith s (u "B")) eqn:E3; [|done].
  intros [= <-]; split; [auto|by apply startswith_spec].
Qed.

Lemma unit_at_head c t unit :
  unit_at (c :: t) = Some unit -> c = 77%N \/ c = 75%N \/ c = 66%N.
Proof.
  intros H. apply unit_at_spec in H as [[-> | [-> | ->]] [r Hr]];
    vm_compute in Hr; injection Hr as -> _; auto.
Qed.

Lemma size_char_not_unit c t : size_char c = true -> unit_at (c :: t) = None.
Proof.
  intros Hc. destruct (unit_at (c :: t)) eqn:E; [|done].
  apply unit_at_head in E as [-> | [-> | ->]]; by vm_compute in Hc.
Qed.

Lemma space_not_unit c t : is_space c = true -> unit_at (c :: t) = None.
Proof.
  intros Hc. destruct (unit_at (c :: t)) eqn:E; [|done].
  apply unit_at_head in E as [-> | [-> | ->]]; by vm_compute in Hc.
Qed.

Section SizeRuns.
Context {R : Type}.
Implicit Types (k : str -> caps -> option R).

Lemma run_Lit_startswith t k s g :
  run (Lit t) k s g = if startswith s t then k (drop (length t) s) g else None.
Proof.
  revert s k. induction t as [|c t IH]; intros s k; [done|].
  change (run (Chr c) (run (Lit t) k) s g
          = if startswith s (c :: t) then k (drop (length (c :: t)) s) g else None).
  destruct s as [|a s]; [done|]. simpl. unfold set_ok. simpl.
  rewrite orb_false_r. destruct (a =? c)%N; [apply IH|done].
Qed.

(** A greedy repetition of a class gives back one code point after the
    other, and fails when what follows fails at every one of them. *)
Lemma star_loop_set_fail l k fuel ds rest g :
  Forall (fun c => set_ok l c = true) ds ->
  no_head (set_ok l) rest ->
  (forall d1 d2, ds = d1 ++ d2 -> k (d2 ++ rest) g = None) ->
  star_loop true (run (Set_ l)) k fuel (ds ++ rest) g = None.
Proof.
  intros Hds Hrest. revert fuel.
  induction Hds as [|d ds Hd Hds IH]; intros fuel Hk.
  - pose proof (Hk [] [] eq_refl) as Hk0. simpl in Hk0.
    destruct fuel; simpl; [done|].
    destruct rest as [|c rest]; [by rewrite Hk0|].
    simpl in Hrest. by rewrite Hrest, Hk0.
  - pose proof (Hk [] (d :: ds) eq_refl) as Hk0.
    destruct fuel as [|fuel]; [exact Hk0|].
    simpl. rewrite Hd.
    replace (length (ds ++ rest) <? S (length (ds ++ rest)))%nat with true
      by (symmetry; apply Nat.ltb_lt; lia).
    rewrite IH; [exact Hk0|].
    intros d1 d2 ->. apply (Hk (d :: d1) d2 eq_refl).
Qed.

Lemma run_star_set_fail l k ds rest g :
  Forall (fun c => set_ok l c = true) ds ->
  no_head (set_ok l) rest ->
  (forall d1 d2, ds = d1 ++ d2 -> k (d2 ++ rest) g = None) ->
  run (Star true (Set_ l)) k (ds ++ rest) g = None.
Proof.
  intros.
  change (star_loop true (run (Set_ l)) k (length (ds ++ rest)) (ds ++ rest) g
          = None).
  by apply star_loop_set_fail.
Qed.

Lemma run_plus_set_fail l k d ds rest g :
  Forall (fun c => set_ok l c = true) ds ->
  no_head (set_ok l) rest ->
  (forall d1 d2, ds = d1 ++ d2 -> k (d2 ++ rest) g = None) ->
  run (Plus (Set_ l)) k (d :: ds ++ rest) g = None.
Proof.
  intros Hds Hrest Hk.
  change (run (Set_ l) (run (Star true (Set_ l)) k) (d :: ds ++ rest) g = None).
  simpl run at 1. destruct (set_ok l d); [|done].
  by apply run_star_set_fail.
Qed.

Lemma run_plus_set_head l k c s g :
  set_ok l c = false -> run (Plus (Set_ l)) k (c :: s) g = None.
Proof.
  intros Hc.
  change (run (Set_ l) (run (Star true (Set_ l)) k) (c :: s) g = None).
  simpl run at 1. by rewrite Hc.
Qed.

Lemma run_units k s g :
  run (Group 2 (Alt (Lit (u "MiB")) (Alt (Lit (u "KiB")) (Lit (u "B"))))) k s g
  = match unit_at s with
    | Some unit => k (drop (length unit) s) ((2%nat, unit) :: g)
    | None => None
    end.
Proof.
  cbn [run]. rewrite !run_Lit_startswith. unfold unit_at.
  destruct (startswith s (u "MiB")) eqn:E1.
  { apply startswith_spec in E1 as [r ->]. rewrite drop_app_length, take_prefix.
    change (startswith (u "MiB" ++ r) (u "KiB")) with false.
    change (startswith (u "MiB" ++ r) (u "B")) with false.
    by destruct (k r _). }
  destruct (startswith s (u "KiB")) eqn:E2.
  { apply startswith_spec in E2 as [r ->]. rewrite drop_app_length, take_prefix.
    change (startswith (u "KiB" ++ r) (u "B")) with false.
    by destruct (k r _). }
  destruct (startswith s (u "B")) eqn:E3; [|done].
  apply startswith_spec in E3 as [r ->]. by rewrite drop_app_length, take_prefix.
Qed.

Lemma run_spaces_units k ws r2 g :
  Forall (fun c => is_space c = true) ws -> no_head is_space r2 ->
  run (Star true space)
    (run (Group 2 (Alt (Lit (u "MiB")) (Alt (Lit (u "KiB")) (Lit (u "B"))))) k)
    (ws ++ r2) g
  = match unit_at r2 with
    | Some unit => k (drop (length unit) r2) ((2%nat, unit) :: g)
    | None => None
    end.
Proof.
  intros Hws Hr2.
  assert (Hr2' : no_head (set_ok [ASpace]) r2).
  { destruct r2 as [|c r2]; [done|].
    change (set_ok [ASpace] c = false). by rewrite set_ok_space. }
  destruct (match unit_at r2 with
            | Some unit => k (drop (length unit) r2) ((2%nat, unit) :: g)
            | None => None
            end) as [x|] eqn:E.
  - apply run_star_set; [by apply Forall_space_set|done|by rewrite run_units].
  - apply run_star_set_fail; [by apply Forall_space_set|done|].
    intros d1 d2 ->. rewrite run_units. destruct d2 as [|c d2]; [done|].
    apply Forall_app in Hws as [_ Hws]. apply Forall_cons in Hws as [Hc _].
    simpl. by rewrite space_not_unit.
Qed.

End SizeRuns.

Lemma size_char_not_space c : size_char c = true -> is_space c = false.
Proof. apply digit_or_dot_not_space. Qed.

(** The pattern of [parse_size_value] at the head of a text. *)
Lemma run_size_re s :
  run size_re (fun _ g => Some g) s [] =
  match s with
  | [] => None
  | c :: _ =>
      if size_char c then
        match unit_at (drop_while is_space (drop_while size_char s)) with
        | Some unit => Some [(2%nat, unit); (1%nat, take_while size_char s)]
        | None => None
        end
      else None
  end.
Proof.
  destruct s as [|c s]; [done|].
  destruct (size_char c) eqn:Hc;
    [|unfold size_re, Seq; cbn [run]; by apply run_plus_set_head].
  simpl drop_while. simpl take_while. rewrite Hc.
  rewrite <- (take_drop_while size_char s) at 1.
  pose proof (take_while_Forall size_char s) as Hds.
  pose proof (drop_while_no_head size_char s) as Hr1.
  set (ds := take_while size_char s) in *. set (r1 := drop_while size_char s) in *.
  pose proof (take_while_Forall is_space r1) as Hws.
  pose proof (drop_while_no_head is_space r1) as Hr2.
  assert (Hspaces : forall (g : caps),
    run (Star true space)
      (run (Group 2 (Alt (Lit (u "MiB")) (Alt (Lit (u "KiB")) (Lit (u "B")))))
         (run Eps (fun _ g => Some g))) r1 g
    = match unit_at (drop_while is_space r1) with
      | Some unit => Some ((2%nat, unit) :: g)
      | None => None
      end).
  { intros g. rewrite <- (take_drop_while is_space r1) at 1.
    rewrite run_spaces_units by done. by destruct (unit_at _). }
  unfold size_re, Seq.
  change (run (Plus digit_or_dot)
            (fun s' g' =>
               run (Star true space)
                 (run (Group 2 (Alt (Lit (u "MiB"))
                                  (Alt (Lit (u "KiB")) (Lit (u "B")))))
                    (run Eps (fun _ g => Some g)))
                 s' ((1%nat, take (length (c :: ds ++ r1) - length s')
                               (c :: ds ++ r1)) :: g'))
            (c :: ds ++ r1) []
          = match unit_at (drop_while is_space r1) with
            | Some unit => Some [(2%nat, unit); (1%nat, c :: ds)]
            | None => None
            end).
  destruct (unit_at (drop_while is_space r1)) as [unit|] eqn:E.
  - apply run_plus_set; [done|done|done|].
    by rewrite (app_comm_cons ds r1 c), take_prefix, Hspaces.
  - apply run_plus_set_fail; [done|done|].
    intros d1 d2 ->. destruct d2 as [|a d2].
    + simpl app. by rewrite Hspaces.
    + apply Forall_app in Hds as [_ Hds]. apply Forall_cons in Hds as [Ha _].
      rewrite <- (app_nil_l ((a :: d2) ++ r1)).
      rewrite run_spaces_units; [|done|by apply size_char_not_space].
      simpl. by rewrite size_char_not_unit.
Qed.

Lemma search_size_re_scan s :
  search size_re s
  = (fun '(num, unit) => [(2%nat, unit); (1%nat, num)]) <$> first_size s.
Proof.
  induction s as [|c s IH]; rewrite search_unfold, run_size_re; [done|].
  cbn [first_size]. destruct (size_char c); [|exact IH].
  destruct (unit_at _); [done|exact IH].
Qed.

Lemma first_size_skip pre s :
  Forall (fun c => size_char c = false) pre -> first_size (pre ++ s) = first_size s.
Proof.
  induction 1 as [|c pre Hc _ IH]; [done|]. simpl app. cbn [first_size].
  by rewrite Hc.
Qed.

Lemma spaces_not_size_chars ws :
  Forall (fun c => is_space c = true) ws ->
  Forall (fun c => size_char c = false) ws.
Proof.
  intros H. eapply Forall_impl; [exact H|]. intros c Hc.
  by apply space_not_digit_or_dot.
Qed.

Lemma drop_while_app_no_head p s t :
  no_head p t -> drop_while p (s ++ t) = drop_while p s ++ t.
Proof.
  intros Ht. induction s as [|c s IH]; simpl.
  - destruct t as [|a t]; [done|]. simpl in *. by rewrite Ht.
  - by destruct (p c).
Qed.

Lemma take_while_app_no_head p s t :
  no_head p t -> take_while p (s ++ t) = take_while p s.
Proof.
  intros Ht. induction s as [|c s IH]; simpl.
  - destruct t as [|a t]; [done|]. simpl in *. by rewrite Ht.
  - destruct (p c); [by rewrite IH|done].
Qed.

Lemma drop_while_spaces x ws :
  Forall (fun c => is_space c = true) ws ->
  drop_while is_space (x ++ ws)
  = match drop_while is_space x with [] => [] | y => y ++ ws end.
Proof.
  intros Hws. induction x as [|c x IH]; simpl.
  - rewrite <- (app_nil_r ws). by rewrite drop_while_app.
  - by destruct (is_space c).
Qed.

Lemma startswith_spaces y ws t :
  Forall (fun c => is_space c = true) ws ->
  Forall (fun c => is_space c = false) t ->
  startswith (y ++ ws) t = startswith y t.
Proof.
  intros Hws Ht. revert y. induction Ht as [|p t Hp _ IH]; intros y; [done|].
  destruct y as [|c y]; simpl; [|by rewrite IH].
  destruct Hws as [|w ws Hw _]; [done|].
  destruct (w =? p)%N eqn:E; [|done].
  apply N.eqb_eq in E as ->. congruence.
Qed.

Lemma unit_at_spaces y ws :
  Forall (fun c => is_space c = true) ws -> unit_at (y ++ ws) = unit_at y.
Proof.
  intros Hws. unfold unit_at.
  rewrite !(startswith_spaces y ws) by (done || by vm_compute; repeat constructor).
  done.
Qed.

Lemma size_tail_spaces s ws :
  Forall (fun c => is_space c = true) ws ->
  unit_at (drop_while is_space (drop_while size_char (s ++ ws)))
  = unit_at (drop_while is_space (drop_while size_char s))
  /\ take_while size_char (s ++ ws) = take_while size_char s.
Proof.
  intros Hws.
  assert (Hh : no_head size_char ws).
  { destruct Hws as [|c ws Hc _]; [done|]. by apply space_not_digit_or_dot. }
  split; [|by apply take_while_app_no_head].
  rewrite drop_while_app_no_head, drop_while_spaces by done.
  destruct (drop_while is_space (drop_while size_char s)) as [|a y]; [done|].
  by apply unit_at_spaces.
Qed.

Lemma first_size_rstrip s ws :
  Forall (fun c => is_space c = true) ws -> first_size (s ++ ws) = first_size s.
Proof.
  intros Hws. induction s as [|c s IH].
  - rewrite <- (app_nil_r ws) at 1. rewrite app_nil_l.
    by rewrite first_size_skip by by apply spaces_not_size_chars.
  - change ((c :: s) ++ ws) with (c :: s ++ ws). cbn [first_size].
    change (c :: s ++ ws) with ((c :: s) ++ ws).
    destruct (size_tail_spaces (c :: s) ws Hws) as [-> ->].
    by rewrite IH.
Qed.

Lemma first_size_strip s : first_size (strip s) = first_size s.
Proof.
  destruct (strip_split s) as (ws1 & ws2 & E & H1 & H2).
  rewrite E at 2.
  rewrite first_size_skip by by apply spaces_not_size_chars.
  by rewrite first_size_rstrip.
Qed.

Lemma first_size_unit s num unit :
  first_size s = Some (num, unit) ->
  (unit = u "MiB" \/ unit = u "KiB" \/ unit = u "B")
  /\ num <> [] /\ Forall (fun c => size_char c = true) num.
Proof.
  induction s as [|c s IH]; [done|]. cbn [first_size].
  destruct (size_char c) eqn:Hc; [|exact IH].
  destruct (unit_at _) as [unit'|] eqn:E; [|exact IH].
  intros [= Hnum <-]. apply unit_at_spec in E as [E _]. split; [done|].
  rewrite <- Hnum. split; [by rewrite Hc|].
  apply (take_while_Forall size_char (c :: s)).
Qed.

Lemma parse_size_value_size_of_text s : parse_size_value s = size_of_text s.
Proof.
  destruct s as [|c s]; [done|].
  unfold parse_size_value, size_of_text.
  rewrite search_size_re_scan, first_size_strip.
  destruct (first_size (c :: s)) as [[num unit]|] eqn:E; [|done].
  cbn [fmap option_fmap option_map].
  change (group_of 1 [(2%nat, unit); (1%nat, num)]) with num.
  change (group_of 2 [(2%nat, unit); (1%nat, num)]) with unit.
  destruct (py_float num) as [e|v]; [done|]. simpl ebind.
  apply first_size_unit in E as [[-> | [-> | ->]] _]; reflexivity.
Qed.

(** X9: [parse_size_value] reads, on every text, the first number that
    a unit follows: it returns what [size_of_text] returns, and raises
    what it raises.  The call of [strip] changes nothing, and the last
    [return None] of the function is never reached. *)
Theorem parse_size_value_first_size (s : str) :
  parse_size_value s = size_of_text s.
Proof. apply parse_size_value_size_of_text. Qed.

(** X10: text without digits and dots in front of a size is skipped, a
    sign as well: the size of a negative difference is read as its
    magnitude. *)
Theorem parse_size_value_skips_sign (pre s : str) :
  Forall (fun c => size_char c = false) pre ->
  parse_size_value (pre ++ s) = parse_size_value s.
Proof.
  intros H. rewrite !parse_size_value_size_of_text. unfold size_of_text.
  by rewrite first_size_skip.
Qed.

Lemma parse_size_value_skips_sign_witness :
  parse_size_value (u "-" ++ u "1.5 KiB") = parse_size_value (u "1.5 KiB").
Proof.
  apply (parse_size_value_skips_sign (u "-") (u "1.5 KiB")).
  repeat constructor.
Defined.

Lemma py_float_exn s e : py_float s = raise e -> e = ValueError_float s.
Proof.
  unfold py_float. destruct (split DOT s) as [|ip [|fp [|]]]; try by intros [= <-].
  - destruct (digits ip); [done|by intros [= <-]].
  - destruct (digits (ip ++ fp)); [done|by intros [= <-]].
Qed.

Lemma py_float_ok s v :
  py_float s = ok v -> exists n k, decimal s n k /\ v = float_of_decimal n k.
Proof.
  unfold py_float. intros H. pose proof (join_split DOT s) as Hj.
  destruct (split DOT s) as [|ip [|fp [|]]]; try done.
  - destruct (digits ip) as [n|] eqn:E; [|done]. injection H as <-.
    simpl in Hj. subst ip. exists n, 0%nat. split; [by constructor|done].
  - destruct (digits (ip ++ fp)) as [n|] eqn:E; [|done]. injection H as <-.
    simpl in Hj. subst s. exists n, (length fp). split; [by constructor|done].
Qed.

Lemma parse_size_value_exn s e :
  parse_size_value s = raise e
  <-> exists num unit,
        first_size s = Some (num, unit)
        /\ (forall n k, ~ decimal num n k)
        /\ e = ValueError_float num.
Proof.
  rewrite parse_size_value_size_of_text. unfold size_of_text. split.
  - destruct (first_size s) as [[num unit]|]; [|done].
    destruct (py_float num) as [e'|v] eqn:E; [|done].
    intros [= <-]. exists num, unit. split; [done|].
    split; [|by apply py_float_exn].
    intros n k Hd. apply py_float_decimal in Hd. rewrite Hd in E. discriminate.
  - intros (num & unit & -> & Hd & ->).
    destruct (py_float num) as [e'|v] eqn:E.
    + by rewrite (py_float_exn _ _ E).
    + apply py_float_ok in E as (n & k & Hdec & _). by destruct (Hd n k).
Qed.

(** X11: the only exception of [parse_size_value] is the ValueError of
    [float]: it is raised on exactly the texts whose first number with a
    unit is not a decimal number, such as a lone dot or a number with two
    dots, and it carries that number. *)
Theorem parse_size_value_raises_iff (s : str) (e : exn) :
  parse_size_value s = raise e
  <-> exists num unit,
        first_size s = Some (num, unit)
        /\ (forall n k, ~ decimal num n k)
        /\ e = ValueError_float num.
Proof. apply parse_size_value_exn. Qed.

(** ** What the parser stores of the sizes *)

Lemma ebind_raise {A B} (m : Err A) (f : A -> Err B) e :
  ebind m f = raise e -> m = raise e \/ exists x, m = ok x /\ f x = raise e.
Proof. destruct m as [e'|x]; simpl; [intros [= ->]; by left|eauto]. Qed.



Lemma apk_rows_truthy lines sizes0 sizes :
  for_each apk_row lines sizes0 = ok sizes ->
  (forall k v, compressed sizes0 !! k = Some v -> truthy (Some v) = true) ->
  (forall k v, uncompressed sizes0 !! k = Some v -> truthy (Some v) = true) ->
  (forall k v, compressed sizes !! k = Some v -> truthy (Some v) = true)
  /\ (forall k v, uncompressed sizes !! k = Some v -> truthy (Some v) = true).
Proof.
  revert sizes0. induction lines as [|line lines IH]; intros sizes0 H Hc Hu.
  { by injection H as <-. }
  simpl in H. apply ebind_ok in H as (sizes1 & Hrow & H).
  apply (IH _ H).
  - apply apk_row_spec in Hrow as [[-> _]|(_ & _ & vc & vu & _ & _ & ->)]; [done|].
    intros k v. simpl. rewrite lookup_put_size.
    destruct (decide (row_key line = k)); [|apply Hc].
    destruct (truthy vc) eqn:Et; [|apply Hc]. by intros ->.
  - apply apk_row_spec in Hrow as [[-> _]|(_ & _ & vc & vu & _ & _ & ->)]; [done|].
    intros k v. simpl. rewrite lookup_put_size.
    destruct (decide (row_key line = k)); [|apply Hu].
    destruct (truthy vu) eqn:Et; [|apply Hu]. by intros ->.
Qed.

(** X13: a size in the tables of an accepted report is never zero, and
    it is what [parse_size_value] returns on the third cell (for the
    compressed size) or the sixth cell (for the uncompressed one) of a
    captured line with seven cells or more whose first cell is the key:
    the new sides of the row.  The old sides and the differences are never
    stored, and a new size of zero leaves no entry. *)
Theorem apk_sizes_new_and_nonzero (name content : str) (r : ParsedReport)
    (log : list log_line) :
  parse_diffuse_slim_report name content = (Some r, log) ->
  (forall k v, compressed (apk_sizes r) !! k = Some v ->
     truthy (Some v) = true
     /\ exists m line,
          search apk_re content = Some m /\ line ∈ table_lines m
          /\ (7 <= length (row_cells line))%nat /\ row_key line = k
          /\ parse_size_value (cell 2 (row_cells line)) = ok (Some v))
  /\ (forall k v, uncompressed (apk_sizes r) !! k = Some v ->
        truthy (Some v) = true
        /\ exists m line,
             search apk_re content = Some m /\ line ∈ table_lines m
             /\ (7 <= length (row_cells line))%nat /\ row_key line = k
             /\ parse_size_value (cell 5 (row_cells line)) = ok (Some v)).
Proof.
  intros H. apply slim_report_body, parse_body_inv in H
    as (_ & _ & Hapk & _).
  destruct (search apk_re content) as [m|].
  - destruct (apk_rows_truthy _ _ _ Hapk) as [Tc Tu]; [done|done|].
    split; intros k v Hv.
    + split; [by eapply Tc|].
      destruct (proj1 (apk_rows_provenance _ _ _ k v Hapk) Hv)
        as [?|(line & Hl)]; [done|]. by exists m, line.
    + split; [by eapply Tu|].
      destruct (proj2 (apk_rows_provenance _ _ _ k v Hapk) Hv)
        as [?|(line & Hl)]; [done|]. by exists m, line.
  - injection Hapk as <-.
    split; intros k v Hv; unfold no_sizes in Hv; simpl in Hv;
      by rewrite lookup_empty in Hv.
Qed.

Lemma apk_sizes_new_and_nonzero_witness :
  (forall k v,
     compressed (apk_sizes (parsed (u "1.0.1-slim.txt") sample_report)) !! k
     = Some v ->
     truthy (Some v) = true
     /\ exists m line,
          search apk_re sample_report = Some m /\ line ∈ table_lines m
          /\ (7 <= length (row_cells line))%nat /\ row_key line = k
          /\ parse_size_value (cell 2 (row_cells line)) = ok (Some v))
  /\ (forall k v,
        uncompressed (apk_sizes (parsed (u "1.0.1-slim.txt") sample_report)) !! k
        = Some v ->
        truthy (Some v) = true
        /\ exists m line,
             search apk_re sample_report = Some m /\ line ∈ table_lines m
             /\ (7 <= length (row_cells line))%nat /\ row_key line = k
             /\ parse_size_value (cell 5 (row_cells line)) = ok (Some v)).
Proof.
  apply (apk_sizes_new_and_nonzero (u "1.0.1-slim.txt") sample_report _ []).
  exact sample_report_parsed.
Defined.

(** ** What the DEX pattern captures *)

(** A pattern without groups leaves the groups as they are, and what it
    matched is the head of the text. *)
Lemma run_prefix_inv {R} r (k : str -> caps -> option R) s g x :
  groups_of r = [] -> run r k s g = Some x ->
  exists s1 s2, s = s1 ++ s2 /\ matches r s1 s2 /\ k s2 g = Some x.
Proof.
  intros Hg H. apply run_sound in H as (s1 & s2 & g' & -> & Hm & Hc & H).
  exists s1, s2. split; [done|]. split; [done|].
  destruct Hc as (n & -> & Hn & _). destruct n as [|[i t] n]; [done|].
  destruct (Hn i t) as (r' & rest & Hin & _); [left|].
  rewrite Hg in Hin. by apply elem_of_nil in Hin.
Qed.

(** A lazy [.*?] before a literal stops at an occurrence of the literal. *)
Lemma star_lazy_lit {R} p (k : str -> caps -> option R) fuel a b g :
  (forall s g, is_Some (k s g)) -> (length a <= fuel)%nat ->
  is_Some (star_loop false (run (Set_ [AAny])) (run (Lit p) k) fuel
             (a ++ p ++ b) g).
Proof.
  intros Hk. revert fuel. induction a as [|c a IH]; intros fuel Hfuel.
  - assert (is_Some (run (Lit p) k (p ++ b) g)) as [x Hx].
    { rewrite run_Lit. apply Hk. }
    change ([] ++ p ++ b) with (p ++ b).
    destruct fuel; cbn [star_loop]; rewrite Hx; eauto.
  - destruct fuel as [|fuel]; [simpl in Hfuel; lia|].
    cbn [star_loop].
    destruct (run (Lit p) k ((c :: a) ++ p ++ b) g); [eauto|].
    change ((c :: a) ++ p ++ b) with (c :: (a ++ p ++ b)).
    cbn [run]. unfold set_ok at 1. cbn [existsb atom_ok orb].
    replace (length (a ++ p ++ b) <? length (c :: a ++ p ++ b))%nat
      with true by (symmetry; apply Nat.ltb_lt; simpl; lia).
    apply IH. simpl in Hfuel. lia.
Qed.

Lemma run_lazy_lit {R} p (k : str -> caps -> option R) a b g :
  (forall s g, is_Some (k s g)) ->
  is_Some (run lazy_any (run (Lit p) k) (a ++ p ++ b) g).
Proof.
  intros Hk. unfold lazy_any. simpl run at 1.
  apply star_lazy_lit; [done|]. rewrite length_app. lia.
Qed.

(** The end of the DEX pattern matches at a line break when the text
    ARSC occurs anywhere behind it. *)
Lemma dex_end_before_arsc {R} (k : str -> caps -> option R) s g :
  (forall s g, is_Some (k s g)) -> occurs (u "ARSC") s ->
  is_Some (run (Alt (Seq [Chr LF; Star true space; Chr LF])
                    (Seq [Chr LF; lazy_any; Lit (u "ARSC")])) k (LF :: s) g).
Proof.
  intros Hk (a & b & ->). cbn [run].
  destruct (run (Seq [Chr LF; Star true space; Chr LF]) k _ g); [eauto|].
  change (is_Some (run (Chr LF)
                     (run lazy_any (run (Lit (u "ARSC")) (run Eps k)))
                     (LF :: a ++ u "ARSC" ++ b) g)).
  rewrite run_Chr. apply run_lazy_lit. intros s' g'. apply Hk.
Qed.

(** A lazy [.*?] finds a way when what follows it succeeds somewhere
    behind, and so does a lazy group. *)
Lemma star_lazy_some {R} (k : str -> caps -> option R) fuel a b g :
  is_Some (k b g) -> (length a <= fuel)%nat ->
  is_Some (star_loop false (run (Set_ [AAny])) k fuel (a ++ b) g).
Proof.
  intros Hk. revert fuel. induction a as [|c a IH]; intros fuel Hfuel.
  - simpl app. destruct Hk as [x Hx].
    destruct fuel; cbn [star_loop]; rewrite Hx; eauto.
  - destruct fuel as [|fuel]; [simpl in Hfuel; lia|].
    cbn [star_loop].
    destruct (k ((c :: a) ++ b) g); [eauto|].
    change ((c :: a) ++ b) with (c :: (a ++ b)).
    cbn [run]. unfold set_ok at 1. cbn [existsb atom_ok orb].
    replace (length (a ++ b) <? length (c :: a ++ b))%nat
      with true by (symmetry; apply Nat.ltb_lt; simpl; lia).
    apply IH. simpl in Hfuel. lia.
Qed.

Lemma run_lazy_some {R} (k : str -> caps -> option R) a b g :
  is_Some (k b g) -> is_Some (run lazy_any k (a ++ b) g).
Proof.
  intros Hk. unfold lazy_any. simpl run at 1.
  apply star_lazy_some; [done|]. rewrite length_app. lia.
Qed.

Lemma run_group_lazy_some {R} i (k : str -> caps -> option R) a b g :
  (forall g', is_Some (k b g')) ->
  is_Some (run (Group i lazy_any) k (a ++ b) g).
Proof.
  intros Hk.
  change (is_Some (star_loop false (run (Set_ [AAny]))
            (fun s' g' =>
               k s' ((i, take (length (a ++ b) - length s') (a ++ b)) :: g'))
            (length (a ++ b)) (a ++ b) g)).
  apply star_lazy_some; [apply Hk|]. rewrite length_app. lia.
Qed.

Lemma run_lazy_inv {R} (k : str -> caps -> option R) s g x :
  run lazy_any k s g = Some x ->
  exists t s2,
    s = t ++ s2 /\ k s2 g = Some x
    /\ forall t1 c t2, t = t1 ++ c :: t2 -> k (c :: t2 ++ s2) g = None.
Proof. intros H. exact (star_lazy_any_first _ _ _ _ _ H). Qed.

Lemma run_Lit_inv {R} p (k : str -> caps -> option R) s g x :
  run (Lit p) k s g = Some x -> exists s', s = p ++ s' /\ k s' g = Some x.
Proof.
  revert s. induction p as [|c p IH]; intros s H; [by exists s|].
  change (run (Chr c) (run (Lit p) k) s g = Some x) in H.
  apply run_Chr_inv in H as (s1 & -> & H).
  apply IH in H as (s2 & -> & H). by exists s2.
Qed.

(** The head of the DEX and ARSC patterns, which the two have in common
    behind their titles: [\s+│.*?\n.*?───.*?\n].  Each lazy [.*?] stops
    at the first place from which the rest of the pattern matches. *)
Lemma table_head_run {R} title l (k : str -> caps -> option R) s g x :
  run (Seq ([Lit title; Plus space; Chr BOX_V; lazy_any; Chr LF; lazy_any;
             border; lazy_any; Chr LF] ++ l)) k s g = Some x ->
  exists ws h1 h2 h3 s4,
    s = title ++ (ws ++ BOX_V :: h1 ++ LF :: h2 ++ [BOX_H; BOX_H; BOX_H] ++ h3)
              ++ LF :: s4
    /\ blank ws /\ (LF ∉ h1)
    /\ (forall a b,
          h2 ++ [BOX_H; BOX_H; BOX_H] = a ++ [BOX_H; BOX_H; BOX_H] ++ b ->
          b = [])
    /\ run (Seq l) k s4 g = Some x
    /\ (forall t1 t2, h3 = t1 ++ LF :: t2 ->
          run (Seq l) k (t2 ++ LF :: s4) g = None).
Proof.
  rewrite run_Seq_app. set (K := run (Seq l) k). intros H.
  change (run (Lit title)
            (run (Seq [Plus space; Chr BOX_V])
               (run lazy_any (run (Chr LF) (run lazy_any (run border
                  (run lazy_any (run (Chr LF) K))))))) s g = Some x) in H.
  apply run_Lit_inv in H as (s0 & -> & H).
  apply run_prefix_inv in H as (s1 & s2 & -> & Hm & H); [|done].
  unfold Seq in Hm.
  apply matches_cat_inv in Hm as (ws & m1 & -> & Hws & Hm).
  apply matches_cat_inv in Hm as (bv & m2 & -> & Hbv & Hm).
  apply matches_eps_inv in Hm as ->.
  apply matches_plus_space in Hws. apply matches_Chr in Hbv as ->.
  apply run_lazy_inv in H as (h1 & s3 & -> & H & Hb1).
  apply run_Chr_inv in H as (s3' & -> & H).
  apply run_lazy_inv in H as (h2 & s5 & -> & H & Hb2).
  unfold border in H, Hb2.
  apply run_Lit_inv in H as (s6 & -> & H).
  apply run_lazy_inv in H as (h3 & s7 & -> & H & Hb3).
  apply run_Chr_inv in H as (s4 & -> & H).
  assert (Htail : forall a, is_Some (run lazy_any (run (Chr LF) K)
                                       (a ++ h3 ++ LF :: s4) g)).
  { intros a. rewrite app_assoc. apply run_lazy_some.
    rewrite run_Chr, H. eauto. }
  exists ws, h1, h2, h3, s4.
  split; [|split; [done|split; [|split; [|split; [done|]]]]].
  - rewrite app_nil_r. by repeat (rewrite <- app_assoc; cbn [app]).
  - intros Hin. apply list_elem_of_split in Hin as (t1 & t2 & ->).
    specialize (Hb1 t1 LF t2 eq_refl). rewrite run_Chr in Hb1.
    replace (t2 ++ LF :: h2 ++ [BOX_H; BOX_H; BOX_H] ++ h3 ++ LF :: s4)
      with ((t2 ++ LF :: h2) ++ [BOX_H; BOX_H; BOX_H] ++ h3 ++ LF :: s4)
      in Hb1 by (by rewrite <- app_assoc).
    destruct (run_lazy_some
                (run (Lit [BOX_H; BOX_H; BOX_H]) (run lazy_any (run (Chr LF) K)))
                (t2 ++ LF :: h2) ([BOX_H; BOX_H; BOX_H] ++ h3 ++ LF :: s4) g)
      as [y Hy]; [|unfold border in Hb1; congruence].
    rewrite run_Lit. apply (Htail []).
  - intros a b Hab.
    destruct b as [|cb b]; [done|]. exfalso.
    apply app_eq_inv in Hab as [(k1 & -> & Hk1)|(k1 & -> & Hk1)].
    + destruct k1 as [|c1 k1].
      { apply (f_equal length) in Hk1. rewrite !length_app in Hk1.
        simpl in Hk1. lia. }
      specialize (Hb2 a c1 k1 eq_refl).
      replace (c1 :: k1 ++ [BOX_H; BOX_H; BOX_H] ++ h3 ++ LF :: s4)
        with (((c1 :: k1) ++ [BOX_H; BOX_H; BOX_H]) ++ h3 ++ LF :: s4) in Hb2
        by (by rewrite <- !app_assoc).
      rewrite <- Hk1, <- app_assoc, run_Lit in Hb2.
      destruct (Htail (cb :: b)) as [y Hy]. congruence.
    + apply (f_equal length) in Hk1. rewrite !length_app in Hk1.
      simpl in Hk1. lia.
  - intros t1 t2 ->. specialize (Hb3 t1 LF t2 eq_refl).
    by rewrite run_Chr in Hb3.
Qed.

(** A greedy repetition of a class finds a way when what follows
    succeeds behind some run of the class. *)
Lemma star_greedy_some {R} l (k : str -> caps -> option R) fuel a b g :
  Forall (fun c => set_ok l c = true) a -> is_Some (k b g) ->
  (length a <= fuel)%nat ->
  is_Some (star_loop true (run (Set_ l)) k fuel (a ++ b) g).
Proof.
  intros Ha Hk. revert fuel. induction Ha as [|c a Hc Ha IH]; intros fuel Hfuel.
  - simpl app. destruct fuel; cbn [star_loop]; [done|].
    by destruct (run (Set_ l) _ b g).
  - destruct fuel as [|fuel]; [simpl in Hfuel; lia|].
    simpl. rewrite Hc.
    replace (length (a ++ b) <? S (length (a ++ b)))%nat with true
      by (symmetry; apply Nat.ltb_lt; lia).
    destruct (IH fuel) as [x Hx]; [simpl in Hfuel; lia|].
    simpl in Hx. rewrite Hx. eauto.
Qed.

(** The end of the DEX and ARSC patterns matches at a line break that a
    blank line follows. *)
Lemma end_blank_line {R} r (k : str -> caps -> option R) ws rest g :
  (forall s g, is_Some (k s g)) ->
  Forall (fun c => is_space c = true) ws ->
  is_Some (run (Alt (Seq [Chr LF; Star true space; Chr LF]) r) k
             (LF :: ws ++ LF :: rest) g).
Proof.
  intros Hk Hws. cbn [run].
  assert (is_Some (run (Seq [Chr LF; Star true space; Chr LF]) k
                     (LF :: ws ++ LF :: rest) g)) as [x ->]; [|eauto].
  change (is_Some (run (Chr LF)
                     (run (Star true (Set_ [ASpace])) (run (Chr LF) (run Eps k)))
                     (LF :: ws ++ LF :: rest) g)).
  rewrite run_Chr.
  change (is_Some (star_loop true (run (Set_ [ASpace]))
                     (run (Chr LF) (run Eps k))
                     (length (ws ++ LF :: rest)) (ws ++ LF :: rest) g)).
  apply star_greedy_some; [by apply Forall_space_set| |rewrite length_app; lia].
  rewrite run_Chr. apply Hk.
Qed.

Lemma matches_alt_inv r1 r2 s rest :
  matches (Alt r1 r2) s rest -> matches r1 s rest \/ matches r2 s rest.
Proof. inversion 1; auto. Qed.

Lemma matches_eos_inv s rest :
  matches Eos s rest -> s = [] /\ (rest = [] \/ rest = [LF]).
Proof. by inversion 1. Qed.

Lemma arsc_end_shape {R} (k : str -> caps -> option R) after g x :
  run (Seq [Alt (Seq [Chr LF; Star true space; Chr LF]) Eos]) k after g = Some x ->
  after = [] \/ after = [LF]
  \/ exists ws rest,
       after = LF :: ws ++ LF :: rest /\ Forall (fun c => is_space c = true) ws.
Proof.
  intros H. apply run_sound in H as (s1 & s2 & g' & -> & H & _ & _).
  unfold Seq in H. apply matches_cat_inv in H as (m1 & m2 & -> & H & He).
  apply matches_eps_inv in He as ->. rewrite app_nil_r in *.
  apply matches_alt_inv in H as [H|H].
  - right. right.
    apply matches_cat_inv in H as (a1 & b1 & -> & H1 & H).
    apply matches_cat_inv in H as (a2 & b2 & -> & H2 & H).
    apply matches_cat_inv in H as (a3 & b3 & -> & H3 & H).
    apply matches_eps_inv in H as ->.
    apply matches_Chr in H1 as ->. apply matches_Chr in H3 as ->.
    apply matches_star_set in H2.
    exists a2, s2. split; [by rewrite app_nil_r, <- !app_assoc|].
    eapply Forall_impl; [exact H2|]. intros c Hc. by rewrite <- set_ok_space.
  - apply matches_eos_inv in H as [-> [->| ->]]; auto.
Qed.

(** The end of the DEX pattern matches exactly where the rows of the
    table may end. *)
Lemma dex_end_some {R} (k : str -> caps -> option R) s g :
  (forall s g, is_Some (k s g)) -> dex_end s ->
  is_Some (run (Alt (Seq [Chr LF; Star true space; Chr LF])
                    (Seq [Chr LF; lazy_any; Lit (u "ARSC")])) k s g).
Proof.
  intros Hk (s' & -> & [(ws & rest & -> & Hws)|Hocc]).
  - by apply end_blank_line.
  - by apply dex_end_before_arsc.
Qed.

Lemma dex_end_shape {R} (k : str -> caps -> option R) after g x :
  run (Seq [Alt (Seq [Chr LF; Star true space; Chr LF])
                (Seq [Chr LF; lazy_any; Lit (u "ARSC")])]) k after g = Some x ->
  dex_end after.
Proof.
  intros H. apply run_sound in H as (s1 & s2 & g' & -> & H & _ & _).
  unfold Seq in H. apply matches_cat_inv in H as (m1 & m2 & -> & H & He).
  apply matches_eps_inv in He as ->. rewrite app_nil_r in *.
  apply matches_alt_inv in H as [H|H].
  - apply matches_cat_inv in H as (a1 & b1 & -> & H1 & H).
    apply matches_cat_inv in H as (a2 & b2 & -> & H2 & H).
    apply matches_cat_inv in H as (a3 & b3 & -> & H3 & H).
    apply matches_eps_inv in H as ->.
    apply matches_Chr in H1 as ->. apply matches_Chr in H3 as ->.
    apply matches_star_set in H2.
    exists (a2 ++ LF :: s2). split; [by rewrite app_nil_r, <- !app_assoc|].
    left. exists a2, s2. split; [done|].
    eapply Forall_impl; [exact H2|]. intros c Hc. by rewrite <- set_ok_space.
  - apply matches_cat_inv in H as (a1 & b1 & -> & H1 & H).
    apply matches_cat_inv in H as (a2 & b2 & -> & H2 & H).
    apply matches_cat_inv in H as (a3 & b3 & -> & H3 & H).
    apply matches_eps_inv in H as ->.
    apply matches_Chr in H1 as ->. apply matches_Lit in H3 as ->.
    exists (a2 ++ u "ARSC" ++ s2). split; [by rewrite app_nil_r, <- !app_assoc|].
    right. by exists a2, s2.
Qed.

(** The lazy group of the DEX pattern ends at the first line break
    where the rows may end. *)
Lemma dex_group s g x :
  run (Seq [Group 1 lazy_any;
            Alt (Seq [Chr LF; Star true space; Chr LF])
                (Seq [Chr LF; lazy_any; Lit (u "ARSC")])])
    (fun _ g => Some g) s g = Some x ->
  exists t after,
    s = t ++ after /\ x = (1%nat, t) :: g
    /\ dex_end after
    /\ (forall t1 t2, t = t1 ++ LF :: t2 -> ~ dex_end (LF :: t2 ++ after)).
Proof.
  intros H.
  set (K := run (Seq [Alt (Seq [Chr LF; Star true space; Chr LF])
                          (Seq [Chr LF; lazy_any; Lit (u "ARSC")])])
              (fun _ g => Some g)) in *.
  change (star_loop false (run (Set_ [AAny]))
            (fun s' g' => K s' ((1%nat, take (length s - length s') s) :: g'))
            (length s) s g = Some x) in H.
  apply star_lazy_any_first in H as (t & after & -> & Hk & Hbefore).
  rewrite take_prefix in Hk.
  assert (Hx : x = (1%nat, t) :: g).
  { unfold K in Hk. apply run_no_groups in Hk as [s3 [= ->]]; done. }
  exists t, after. split; [done|]. split; [done|].
  split; [unfold K in Hk; by eapply dex_end_shape|].
  intros t1 t2 -> Hend.
  specialize (Hbefore t1 LF t2 eq_refl).
  unfold K in Hbefore. cbn [Seq] in Hbefore.
  match type of Hbefore with
  | _ _ _ ?G = None =>
      destruct (dex_end_some (run Eps (fun _ g => Some g)) (LF :: t2 ++ after) G)
        as [y Hy]; [intros s' g'; simpl; eauto|done|]
  end.
  change (run (Alt (Seq [Chr LF; Star true space; Chr LF])
                   (Seq [Chr LF; lazy_any; Lit (u "ARSC")]))
            (run Eps (fun _ g => Some g)) (LF :: t2 ++ after)
            ((1%nat, take (length ((t1 ++ LF :: t2) ++ after)
                           - length (LF :: t2 ++ after))
                       ((t1 ++ LF :: t2) ++ after)) :: g) = None) in Hbefore.
  congruence.
Qed.

Lemma dex_group_some after a g :
  dex_end after ->
  is_Some (run (Seq [Group 1 lazy_any;
                     Alt (Seq [Chr LF; Star true space; Chr LF])
                         (Seq [Chr LF; lazy_any; Lit (u "ARSC")])])
             (fun _ g => Some g) (a ++ after) g).
Proof.
  intros Hend.
  change (is_Some (run (Group 1 lazy_any)
            (run (Alt (Seq [Chr LF; Star true space; Chr LF])
                      (Seq [Chr LF; lazy_any; Lit (u "ARSC")]))
               (run Eps (run Eps (fun _ g => Some g)))) (a ++ after) g)).
  apply run_group_lazy_some. intros g'.
  apply dex_end_some; [|done]. intros s' g''. simpl. eauto.
Qed.

Lemma dex_re_group content m :
  search dex_re content = Some m ->
  exists pre head t after,
    content = pre ++ u "DEX" ++ head ++ LF :: t ++ after
    /\ m = [(1%nat, t)]
    /\ table_head head
    /\ dex_end after
    /\ (forall t1 t2, t = t1 ++ LF :: t2 -> ~ dex_end (LF :: t2 ++ after)).
Proof.
  intros H. apply search_run in H as (pre & s' & -> & H).
  change dex_re with
    (Seq ([Lit (u "DEX"); Plus space; Chr BOX_V; lazy_any; Chr LF; lazy_any;
           border; lazy_any; Chr LF]
          ++ [Group 1 lazy_any;
              Alt (Seq [Chr LF; Star true space; Chr LF])
                  (Seq [Chr LF; lazy_any; Lit (u "ARSC")])])) in H.
  apply table_head_run in H
    as (ws & h1 & h2 & h3 & s4 & -> & Hws & Hh1 & Hh2 & H & Hh3).
  apply dex_group in H as (t & after & -> & -> & Hend & Hfirst).
  exists pre, (ws ++ BOX_V :: h1 ++ LF :: h2 ++ [BOX_H; BOX_H; BOX_H] ++ h3),
    t, after.
  split; [done|]. split; [done|]. split; [|done].
  exists ws, h1, h2, h3. split; [done|]. split; [done|]. split; [done|].
  split; [|done].
  intros Hin. apply list_elem_of_split in Hin as (t1 & t2 & ->).
  specialize (Hh3 t1 t2 eq_refl).
  destruct (dex_group_some after (t2 ++ LF :: t) []) as [y Hy]; [done|].
  rewrite <- app_assoc in Hy. cbn [app] in Hy. congruence.
Qed.

(** X14: behind the title DEX, its line and the line of the border
    rule, the lazy group of the DEX pattern captures the text up to the
    first line break that is followed at once by a blank line or anywhere
    later by the text ARSC.  So when ARSC occurs behind the captured rows,
    as it does when the ARSC table follows the DEX table, the captured
    rows hold no line break: the loop over the DEX table sees one line,
    and the rows behind the first are not read. *)
Theorem dex_table_one_line_before_arsc (content : str) (m : caps) :
  search dex_re content = Some m ->
  exists pre head t after,
    content = pre ++ u "DEX" ++ head ++ LF :: t ++ after
    /\ m = [(1%nat, t)]
    /\ table_head head
    /\ dex_end after
    /\ (forall t1 t2, t = t1 ++ LF :: t2 -> ~ dex_end (LF :: t2 ++ after))
    /\ (occurs (u "ARSC") after -> (LF ∉ t) /\ table_lines m = [strip t]).
Proof.
  intros H.
  apply dex_re_group in H
    as (pre & head & t & after & -> & -> & Hhead & Hend & Hfirst).
  exists pre, head, t, after. do 5 (split; [done|]).
  intros (a & b & ->).
  assert (Hone : LF ∉ t).
  { intros Hin. apply list_elem_of_split in Hin as (t1 & t2 & ->).
    apply (Hfirst t1 t2 eq_refl). eexists. split; [done|]. right.
    exists (t2 ++ a), b. by rewrite <- app_assoc. }
  split; [done|].
  unfold table_lines. change (group_of 1 [(1%nat, t)]) with t.
  by apply split_no_sep, strip_no_LF.
Qed.

Lemma dex_table_one_line_before_arsc_witness :
  exists pre head t after,
    sample_report = pre ++ u "DEX" ++ head ++ LF :: t ++ after
    /\ [(1%nat, u " files   │     1 │     1 │ 0")] = [(1%nat, t)]
    /\ table_head head
    /\ dex_end after
    /\ (forall t1 t2, t = t1 ++ LF :: t2 -> ~ dex_end (LF :: t2 ++ after))
    /\ (occurs (u "ARSC") after ->
        (LF ∉ t)
        /\ table_lines [(1%nat, u " files   │     1 │     1 │ 0")] = [strip t]).
Proof.
  apply (dex_table_one_line_before_arsc sample_report).
  vm_compute. reflexivity.
Defined.

(** ** What the trend script keeps of a report *)

Lemma contains_false c s : contains c s = false -> c ∉ s.
Proof.
  unfold contains. induction s as [|x s IH]; simpl; [intros _; apply not_elem_of_nil|].
  intros H. apply orb_false_iff in H as [Hx Hs]. apply N.eqb_neq in Hx.
  apply not_elem_of_cons. split; [done|by apply IH].
Qed.

Lemma slim_lines_cons line lines :
  slim_lines (line :: lines)
  = if dex_title line then [] else line :: slim_lines lines.
Proof. reflexivity. Qed.

Lemma slim_lines_prefix lines : exists rest, lines = slim_lines lines ++ rest.
Proof.
  induction lines as [|line lines [rest IH]]; [by exists []|].
  rewrite slim_lines_cons.
  destruct (dex_title line); [by exists (line :: lines)|].
  exists rest. simpl. by rewrite <- IH.
Qed.

Lemma slim_lines_no_title lines :
  Forall (fun line => dex_title line = false) (slim_lines lines).
Proof.
  induction lines as [|line lines IH]; [done|]. rewrite slim_lines_cons.
  destruct (dex_title line) eqn:E; [done|]. by constructor.
Qed.

Lemma slim_lines_cut before title after :
  Forall (fun line => dex_title line = false) before ->
  dex_title title = true ->
  slim_lines (before ++ title :: after) = before.
Proof.
  intros Hb Ht. induction Hb as [|line before Hl _ IH].
  - simpl app. by rewrite slim_lines_cons, Ht.
  - change ((line :: before) ++ title :: after)
      with (line :: (before ++ title :: after)).
    by rewrite slim_lines_cons, Hl, IH.
Qed.

Lemma slim_lines_id lines :
  Forall (fun line => dex_title line = false) lines -> slim_lines lines = lines.
Proof.
  induction 1 as [|line lines Hl _ IH]; [done|].
  by rewrite slim_lines_cons, Hl, IH.
Qed.

Lemma join_cons sep x cells :
  join sep (x :: cells)
  = match cells with [] => x | _ => x ++ sep :: join sep cells end.
Proof. by destruct cells. Qed.

Lemma join_app_prefix sep a b : exists rest, join sep (a ++ b) = join sep a ++ rest.
Proof.
  induction a as [|x a [rest IH]]; [by eexists|].
  change ((x :: a) ++ b) with (x :: (a ++ b)). rewrite !join_cons.
  destruct a as [|y a].
  - simpl app. destruct b; [exists []; by rewrite app_nil_r|by eexists].
  - change ((y :: a) ++ b) with (y :: (a ++ b)) in *.
    rewrite IH. exists rest. by rewrite <- app_assoc.
Qed.

Lemma split_lines_no_sep sep s : Forall (fun line => sep ∉ line) (split sep s).
Proof.
  induction s as [|c s IH]; simpl.
  - repeat constructor. apply not_elem_of_nil.
  - destruct (c =? sep)%N eqn:E.
    + constructor; [apply not_elem_of_nil|done].
    + apply N.eqb_neq in E.
      destruct (split sep s) as [|cell cells] eqn:Es;
        [by apply split_not_nil in Es|].
      apply Forall_cons in IH as [Hc Hcs]. constructor; [|done].
      apply not_elem_of_cons. by split; [congruence|].
Qed.

Lemma split_join sep lines :
  lines <> [] -> Forall (fun line => sep ∉ line) lines ->
  split sep (join sep lines) = lines.
Proof.
  intros Hne H. induction H as [|x lines Hx H IH]; [done|].
  rewrite join_cons. destruct lines as [|y lines]; [by apply split_no_sep|].
  rewrite split_app_sep by done. by rewrite IH.
Qed.

Lemma split_app sep a b :
  split sep (a ++ sep :: b) = split sep a ++ split sep b.
Proof.
  induction a as [|c a IH]; simpl.
  - by rewrite N.eqb_refl.
  - destruct (c =? sep)%N; [by rewrite IH|].
    rewrite IH. pose proof (split_not_nil sep a).
    by destruct (split sep a).
Qed.

Lemma generate_slim_report_lines s :
  Forall (fun line => dex_title line = false)
    (split LF (generate_slim_report s)).
Proof.
  unfold generate_slim_report.
  destruct (slim_lines (split LF s)) as [|x kept] eqn:E.
  - simpl. repeat constructor.
  - rewrite split_join; [|done|].
    + rewrite <- E. apply slim_lines_no_title.
    + destruct (slim_lines_prefix (split LF s)) as [rest Hrest].
      pose proof (split_lines_no_sep LF s) as H. rewrite Hrest, E in H.
      by apply Forall_app in H as [H _].
Qed.

Lemma generate_slim_report_id s :
  Forall (fun line => dex_title line = false) (split LF s) ->
  generate_slim_report s = s.
Proof.
  intros H. unfold generate_slim_report. rewrite slim_lines_id by done.
  apply join_split.
Qed.

(** X15: the slim report is the head of the full report, none of its
    lines starts with the title of the DEX section, a report without such
    a line is returned as it is, and slimming a slim report changes
    nothing. *)
Theorem generate_slim_report_head (s : str) :
  (exists rest, s = generate_slim_report s ++ rest)
  /\ Forall (fun line => dex_title line = false)
       (split LF (generate_slim_report s))
  /\ (Forall (fun line => dex_title line = false) (split LF s) ->
      generate_slim_report s = s)
  /\ generate_slim_report (generate_slim_report s) = generate_slim_report s.
Proof.
  split; [|split; [apply generate_slim_report_lines|split]].
  - unfold generate_slim_report.
    destruct (slim_lines_prefix (split LF s)) as [rest Hrest].
    destruct (join_app_prefix LF (slim_lines (split LF s)) rest) as [rest' H].
    exists rest'. by rewrite <- H, <- Hrest, join_split.
  - apply generate_slim_report_id.
  - apply generate_slim_report_id, generate_slim_report_lines.
Qed.

(** X16: the slim report ends right before the line break in front of
    the first line that starts with the title of the DEX section; when the
    first line of the report is such a line, the slim report is empty. *)
Theorem generate_slim_report_cut (before title after : str) :
  Forall (fun line => dex_title line = false) (split LF before) ->
  dex_title title = true -> LF ∉ title ->
  after = [] \/ (exists rest, after = LF :: rest) ->
  generate_slim_report (before ++ LF :: title ++ after) = before
  /\ generate_slim_report (title ++ after) = [].
Proof.
  intros Hb Ht Hlf Hafter.
  assert (Hs : exists lines, split LF (title ++ after) = title :: lines).
  { destruct Hafter as [->|[rest ->]].
    - rewrite app_nil_r. exists []. by apply split_no_sep.
    - exists (split LF rest). by apply split_app_sep. }
  destruct Hs as [lines Hs]. unfold generate_slim_report. split.
  - rewrite split_app, Hs, slim_lines_cut by done. apply join_split.
  - rewrite Hs. change (title :: lines) with ([] ++ title :: lines).
    by rewrite slim_lines_cut.
Qed.

Lemma generate_slim_report_cut_witness :
  generate_slim_report
    (u "summary" ++ LF :: u " ====   DEX   ==== " ++ LF :: u "details") = u "summary"
  /\ generate_slim_report (u " ====   DEX   ==== " ++ LF :: u "details") = [].
Proof.
  apply (generate_slim_report_cut (u "summary") (u " ====   DEX   ==== ")
           (LF :: u "details")).
  - assert (split LF (u "summary") = [u "summary"]) as ->
      by (vm_compute; reflexivity).
    constructor; [vm_compute; reflexivity|constructor].
  - vm_compute. reflexivity.
  - apply contains_false. vm_compute. reflexivity.
  - right. by eexists.
Defined.

(** ** From the trend script to the dashboard script *)

Lemma dex_title_head c s :
  c <> 61%N -> is_space c = false -> dex_title (c :: s) = false.
Proof.
  intros Hc Hs. destruct (dex_title (c :: s)) eqn:E; [|done].
  unfold dex_title in E. apply startswith_spec in E as [r E].
  unfold strip, lstrip in E. rewrite drop_while_stop in E by done.
  destruct (rstrip_split (c :: s)) as (ws & Hsplit & Hws).
  rewrite E in Hsplit. vm_compute in Hsplit. by injection Hsplit as -> _.
Qed.

Lemma generate_slim_report_first_line line rest :
  LF ∉ line -> dex_title line = false ->
  exists post,
    generate_slim_report (line ++ LF :: rest) = line ++ post
    /\ (post = [] \/ exists r, post = LF :: r).
Proof.
  intros Hlf Ht. unfold generate_slim_report.
  rewrite split_app_sep, slim_lines_cons, Ht by done. rewrite join_cons.
  destruct (slim_lines (split LF rest)) as [|x kept].
  - exists []. split; [by rewrite app_nil_r|by left].
  - eexists. split; [reflexivity|]. right. by eexists.
Qed.

Lemma dotted_no_LF d : dotted d -> LF ∉ d.
Proof.
  intros [_ H] Hin. rewrite Forall_forall in H. by apply H in Hin.
Qed.

Lemma slim_report_header old_tag new_tag diff_output :
  dotted old_tag -> dotted new_tag ->
  header_at (generate_slim_report (full_report old_tag new_tag diff_output))
    old_tag new_tag.
Proof.
  intros Ho Hn. unfold full_report.
  set (line := u "Diffuse Comparison: " ++ old_tag ++ u " → " ++ new_tag).
  replace (u "Diffuse Comparison: " ++ old_tag ++ u " → " ++ new_tag ++ [LF]
           ++ replicate 80 61%N ++ [LF; LF] ++ diff_output)
    with (line ++ LF :: (replicate 80 61%N ++ [LF; LF] ++ diff_output))
    by (unfold line; by rewrite <- !app_assoc).
  destruct (generate_slim_report_first_line line
              (replicate 80 61%N ++ [LF; LF] ++ diff_output))
    as (post & -> & Hpost).
  - unfold line. intros Hin.
    apply elem_of_app in Hin as [Hin|Hin];
      [revert Hin; apply contains_false; vm_compute; reflexivity|].
    apply elem_of_app in Hin as [Hin|Hin]; [by apply dotted_no_LF in Hin|].
    apply elem_of_app in Hin as [Hin|Hin];
      [revert Hin; apply contains_false; vm_compute; reflexivity|].
    by apply dotted_no_LF in Hin.
  - unfold line.
    assert (Hlit : u "Diffuse Comparison: " = 68%N :: u "iffuse Comparison: ")
      by (vm_compute; reflexivity).
    rewrite Hlit. apply (dex_title_head 68%N); [discriminate|reflexivity].
  - assert (Hblank : blank [32%N]).
    { split; [discriminate|]. repeat constructor. }
    assert (Hlit : u "Diffuse Comparison: " = u "Diffuse Comparison:" ++ [32%N])
      by (vm_compute; reflexivity).
    assert (Harrow : u " → " = [32%N] ++ ARROW :: [32%N])
      by (vm_compute; reflexivity).
    exists [32%N], [32%N], [32%N], post. split.
    + unfold line. rewrite Hlit, Harrow. by rewrite <- !app_assoc.
    + do 5 (split; [done|]). destruct Hpost as [->|[r ->]]; [done|reflexivity].
Qed.

(** X17: for two release tags made of digits and dots, the slim report
    that the trend script writes begins with the header the dashboard
    script looks for, whatever Diffuse printed; and when the dashboard
    script accepts that report, the versions it reads are the two tags. *)
Theorem slim_report_versions_round_trip (old_tag new_tag diff_output : str) :
  dotted old_tag -> dotted new_tag ->
  header_at (generate_slim_report (full_report old_tag new_tag diff_output))
    old_tag new_tag
  /\ forall name r log,
       parse_diffuse_slim_report name
         (generate_slim_report (full_report old_tag new_tag diff_output))
       = (Some r, log) ->
       old_version r = old_tag /\ new_version r = new_tag.
Proof.
  intros Ho Hn. pose proof (slim_report_header _ _ diff_output Ho Hn) as Hh.
  split; [done|]. intros name r log H.
  apply slim_report_body, parse_body_inv in H
    as (_ & (vm & Hvm & -> & ->) & _).
  apply version_re_forward, search_here in Hh. rewrite Hh in Hvm.
  by injection Hvm as <-.
Qed.

Lemma slim_report_versions_round_trip_witness :
  header_at
    (generate_slim_report
       (full_report (u "1.0.0") (u "1.0.1") (u "====   DEX   ====")))
    (u "1.0.0") (u "1.0.1")
  /\ forall name r log,
       parse_diffuse_slim_report name
         (generate_slim_report
            (full_report (u "1.0.0") (u "1.0.1") (u "====   DEX   ====")))
       = (Some r, log) ->
       old_version r = u "1.0.0" /\ new_version r = u "1.0.1".
Proof.
  apply (slim_report_versions_round_trip (u "1.0.0") (u "1.0.1")
           (u "====   DEX   ===="));
    (split; [by vm_compute|repeat constructor]).
Defined.

(** ** The entry point *)

Lemma parse_reports_cons name content rest :
  (parse_reports ((name, content) :: rest)).1
  = match (parse_diffuse_slim_report name content).1 with
    | Some r => r :: (parse_reports rest).1
    | None => (parse_reports rest).1
    end.
Proof.
  simpl. destruct (parse_diffuse_slim_report name content) as [[r|] log];
    by destruct (parse_reports rest).
Qed.

(** The reports of the loop are the reports of the accepted files. *)
Lemma parse_reports_elem files r :
  r ∈ (parse_reports files).1
  <-> exists name content,
        (name, content) ∈ files
        /\ parse_diffuse_slim_report name content = (Some r, []).
Proof.
  induction files as [|[name content] files IH].
  - simpl. split; [by intros ?%elem_of_nil|]. by intros (? & ? & ?%elem_of_nil & _).
  - rewrite parse_reports_cons.
    destruct (parse_diffuse_slim_report name content) as [[r'|] log] eqn:E; simpl.
    + pose proof (slim_report_body _ _ _ _ E) as Hlog.
      apply parse_body_inv in Hlog as [-> _].
      rewrite elem_of_cons, IH. split.
      * intros [->|(n & c & Hin & H)].
        -- exists name, content. split; [left|done].
        -- exists n, c. split; [by right|done].
      * intros (n & c & Hin & H). apply elem_of_cons in Hin as [[= -> ->]|Hin].
        -- left. congruence.
        -- right. by exists n, c.
    + rewrite IH. split.
      * intros (n & c & Hin & H). exists n, c. split; [by right|done].
      * intros (n & c & Hin & H). apply elem_of_cons in Hin as [[= -> ->]|Hin].
        -- congruence.
        -- by exists n, c.
Qed.

Lemma main_unfold files :
  main (Some files) =
  match files with
  | [] =>
      ok {| status := 1; dashboard := None;
            logged := [LogError (u "No slim diffuse reports found in docs/apk-diffs")] |}
  | _ =>
      let found :=
        LogInfo (u "Found " ++ str_of_nat (length files)
                 ++ u " slim diffuse reports") in
      match (parse_reports files).1 with
      | [] =>
          ok {| status := 1; dashboard := None;
                logged := found :: (parse_reports files).2
                  ++ [LogError (u "No reports could be parsed successfully")] |}
      | _ =>
          let* cumulative_data := build_cumulative_data (parse_reports files).1 in
          ok {| status := 0; dashboard := Some cumulative_data;
                logged := found :: (parse_reports files).2
                  ++ [LogSuccess (u "Successfully parsed "
                                  ++ str_of_nat (length (parse_reports files).1)
                                  ++ u " reports");
                      LogInfo (u "Building cumulative version data...");
                      LogSuccess (u "Generated data for "
                                  ++ str_of_nat (length cumulative_data)
                                  ++ u " versions");
                      LogInfo (u "Generating dashboard HTML...");
                      LogSuccess (u "Dashboard generated: docs/apk-metrics-dashboard.html");
                      LogInfo (u "Dashboard: docs/apk-metrics-dashboard.html");
                      LogInfo (u "Open with: open docs/apk-metrics-dashboard.html")] |}
      end
  end.
Proof.
  unfold main. destruct files as [|f files]; [done|].
  by destruct (parse_reports (f :: files)) as [[|r rs] log].
Qed.

(** X18: [main] ends with status 0 exactly when it wrote the dashboard,
    and it writes the dashboard only with data for two versions or more:
    one entry more than there are accepted reports.  It ends with status
    1, and writes nothing, exactly when it ends without an exception and
    no report was accepted: the directory is missing, holds no slim
    report, or all its reports were rejected. *)
Theorem main_outcome (slim_reports_dir : option (list (str * str))) (o : Outcome) :
  main slim_reports_dir = ok o ->
  (status o = 0
   /\ exists files tl,
        slim_reports_dir = Some files /\ dashboard o = Some tl
        /\ build_cumulative_data (parse_reports files).1 = ok tl
        /\ length tl = S (length (parse_reports files).1)
        /\ (2 <= length tl)%nat)
  \/ (status o = 1 /\ dashboard o = None
      /\ forall files, slim_reports_dir = Some files -> (parse_reports files).1 = []).
Proof.
  destruct slim_reports_dir as [files|]; [|intros [= <-]; right; done].
  rewrite main_unfold. destruct files as [|f files].
  { intros [= <-]. right. split; [done|]. split; [done|]. by intros ? [= <-]. }
  destruct (parse_reports (f :: files)).1 as [|r rs] eqn:E.
  { intros [= <-]. right. split; [done|]. split; [done|]. by intros ? [= <-]. }
  intros H. apply ebind_ok in H as (tl & Hb & [= <-]). left. split; [done|].
  exists (f :: files), tl. rewrite E. split; [done|]. split; [done|].
  split; [done|].
  destruct (build_inv _ _ Hb) as (first & rest & Hs & ->); [done|].
  apply py_sorted_perm, Permutation_length in Hs.
  unfold timeline_of. cbn [length] in *. rewrite length_map. cbn [length]. lia.
Qed.

Lemma main_outcome_witness :
  (status headless_outcome = 0
   /\ exists files tl,
        Some [(u "1.0.1-slim.txt", headless_report)] = Some files
        /\ dashboard headless_outcome = Some tl
        /\ build_cumulative_data (parse_reports files).1 = ok tl
        /\ length tl = S (length (parse_reports files).1)
        /\ (2 <= length tl)%nat)
  \/ (status headless_outcome = 1 /\ dashboard headless_outcome = None
      /\ forall files,
           Some [(u "1.0.1-slim.txt", headless_report)] = Some files ->
           (parse_reports files).1 = []).
Proof.
  apply (main_outcome (Some [(u "1.0.1-slim.txt", headless_report)])
           headless_outcome).
  vm_compute. reflexivity.
Defined.

(** X19: [main] ends with an exception, the TypeError of [sorted] that
    nothing catches, exactly when two files or more are accepted and the
    text of one accepted file holds no version code row. *)
Theorem main_raises_iff (files : list (str * str)) (e : exn) :
  main (Some files) = raise e
  <-> e = TypeError_lt
      /\ (2 <= length (parse_reports files).1)%nat
      /\ exists name content r,
           (name, content) ∈ files
           /\ parse_diffuse_slim_report name content = (Some r, [])
           /\ forall pre s d1 d2, content = pre ++ s -> ~ code_row_at s d1 d2.
Proof.
  rewrite main_unfold. split.
  - destruct files as [|f files]; [done|].
    destruct (parse_reports (f :: files)).1 as [|r0 rs] eqn:E; [done|].
    intros H. apply ebind_raise in H as [H|(tl & _ & H)]; [|done].
    apply build_exn in H as (-> & Hlen & Hex). split; [done|]. split; [done|].
    apply Exists_exists in Hex as (r & Hin & Hnone).
    rewrite <- E in Hin. apply parse_reports_elem in Hin as (name & content & Hin & Hp).
    exists name, content, r. split; [done|]. split; [done|].
    destruct (version_codes_cases _ _ _ _ Hp)
      as [(Hrow & _)|(s & d1 & d2 & n1 & n2 & _ & _ & _ & _ & _ & Hn)]; [done|].
    congruence.
  - intros (-> & Hlen & name & content & r & Hin & Hp & Hrow).
    assert (Hr : r ∈ (parse_reports files).1).
    { apply parse_reports_elem. by exists name, content. }
    assert (Hnone : new_version_code r = None).
    { destruct (version_codes_cases _ _ _ _ Hp)
        as [(_ & _ & Hn)|(s & d1 & d2 & n1 & n2 & (pre & -> & _) & Hd & _)];
        [done|]. by destruct (Hrow pre s d1 d2). }
    assert (Hb : build_cumulative_data (parse_reports files).1 = raise TypeError_lt).
    { unfold build_cumulative_data.
      destruct (parse_reports files).1 as [|r0 rs] eqn:E; [simpl in Hlen; lia|].
      rewrite py_sorted_raises; [done|done|].
      apply Exists_exists. by exists r. }
    destruct files as [|f files]; [simpl in Hlen; lia|].
    destruct (parse_reports (f :: files)).1 as [|r0 rs] eqn:E; [simpl in Hlen; lia|].
    by rewrite Hb.
Qed.

(** ** The sessions of the development time script *)

Lemma total_commits_app l1 l2 :
  total_commits (l1 ++ l2) = total_commits l1 + total_commits l2.
Proof.
  unfold total_commits. induction l1 as [|s l1 IH]; simpl; [done|].
  rewrite IH. lia.
Qed.

(** The sessions closed so far are kept as they are. *)
Lemma sessions_loop_acc thr prev rest s e c acc :
  sessions_loop thr prev rest s e c acc
  = acc ++ sessions_loop thr prev rest s e c [].
Proof.
  revert prev s e c acc. induction rest as [|t rest IH]; intros prev s e c acc;
    simpl; [done|].
  destruct (SFleb (hours prev t) thr); [apply IH|].
  rewrite IH, (IH _ _ _ _ [_]). by rewrite <- app_assoc.
Qed.

Lemma sessions_loop_count thr prev rest s e c :
  total_commits (sessions_loop thr prev rest s e c []) = c + Z.of_nat (length rest)
  /\ length (sessions_loop thr prev rest s e c []) = S (breaks thr prev rest).
Proof.
  revert prev s e c. induction rest as [|t rest IH]; intros prev s e c.
  - simpl. unfold total_commits. simpl. split; [lia|done].
  - cbn [sessions_loop breaks]. unfold close.
    destruct (SFleb (hours prev t) thr).
    + destruct (IH t s t (c + 1)) as [-> ->]. cbn [length]. split; [lia|done].
    + rewrite sessions_loop_acc, total_commits_app, length_app.
      destruct (IH t t t 1) as [-> ->]. unfold total_commits. cbn. split; [lia|done].
Qed.

(** X20: every commit is counted in exactly one session: the commits of
    the sessions add up to the number of timestamps.  There is one session
    more than there are gaps, from one commit to the next, that exceed
    the threshold; so a list of timestamps that is not empty gives a
    session, and the average that [print_analysis] takes over the sessions
    never divides by zero. *)
Theorem calculate_sessions_counts (timestamps : list Z) (gap_threshold_hours : float) :
  total_commits (calculate_sessions timestamps gap_threshold_hours)
  = Z.of_nat (length timestamps)
  /\ length (calculate_sessions timestamps gap_threshold_hours)
     = match timestamps with
       | [] => 0%nat
       | t0 :: rest => S (breaks gap_threshold_hours t0 rest)
       end.
Proof.
  destruct timestamps as [|t0 rest]; [done|]. unfold calculate_sessions.
  destruct (sessions_loop_count gap_threshold_hours t0 rest t0 t0 1) as [-> ->].
  cbn [length]. split; [lia|done].
Qed.

Lemma tight_snoc thr chunk prev t :
  last chunk = Some prev -> tight thr chunk -> close thr prev t = true ->
  tight thr (chunk ++ [t]).
Proof.
  induction chunk as [|a [|b chunk] IH]; [done| |].
  - intros [= ->] _ H. by split.
  - intros Hl [Hab Ht] H. split; [done|]. by apply IH.
Qed.

(** The loop, entered with the run of commits [cur] of the session that
    is open. *)
Lemma sessions_loop_covers thr rest cur prev s c :
  head cur = Some s -> last cur = Some prev -> c = Z.of_nat (length cur) ->
  tight thr cur ->
  exists first sessions chunks,
    sessions_loop thr prev rest s prev c [] = first :: sessions
    /\ Session.start first = s
    /\ concat chunks = cur ++ rest
    /\ Forall2 (covers thr) (first :: sessions) chunks
    /\ separated thr (first :: sessions).
Proof.
  revert cur prev s c. induction rest as [|t rest IH]; intros cur prev s c Hh Hl Hc Ht.
  - exists (session_of s prev c), [], [cur]. simpl. rewrite !app_nil_r.
    split; [done|]. split; [done|]. split; [done|]. split; [|done].
    repeat constructor; done.
  - cbn [sessions_loop]. destruct (SFleb (hours prev t) thr) eqn:E.
    + destruct (IH (cur ++ [t]) t s (c + 1))
        as (first & sessions & chunks & -> & Hs & Hcat & Hcov & Hsep).
      * destruct cur; [done|]. done.
      * apply last_snoc.
      * rewrite length_app. simpl. lia.
      * by eapply tight_snoc.
      * exists first, sessions, chunks. split; [done|]. split; [done|].
        split; [by rewrite Hcat, <- app_assoc|done].
    + destruct (IH [t] t t 1)
        as (first & sessions & chunks & Hloop & Hs & Hcat & Hcov & Hsep);
        [done..|].
      rewrite sessions_loop_acc, Hloop.
      exists (session_of s prev c), (first :: sessions), (cur :: chunks).
      split; [done|]. split; [done|]. split; [simpl; by rewrite Hcat|].
      split.
      * constructor; [|done]. repeat split; done.
      * split; [|done]. simpl. unfold close. by rewrite Hs.
Qed.

(** X21: the sessions cut the list of timestamps into consecutive runs,
    one run for each session and in the same order: a session starts at
    the first commit of its run and ends at the last, counts the commits
    of the run, and lasts the hours from its start to its end; inside a
    run every gap is within the threshold, and from the end of a session
    to the start of the next it is not. *)
Theorem calculate_sessions_partition (timestamps : list Z)
    (gap_threshold_hours : float) :
  exists chunks,
    concat chunks = timestamps
    /\ Forall2 (covers gap_threshold_hours)
         (calculate_sessions timestamps gap_threshold_hours) chunks
    /\ separated gap_threshold_hours
         (calculate_sessions timestamps gap_threshold_hours).
Proof.
  destruct timestamps as [|t0 rest]; [by exists []|].
  destruct (sessions_loop_covers gap_threshold_hours rest [t0] t0 t0 1)
    as (first & sessions & chunks & Hloop & _ & Hcat & Hcov & Hsep); [done..|].
  exists chunks. unfold calculate_sessions. by rewrite Hloop.
Qed.

(** Three commits, the second half an hour after the first and the
    third two hours later: two sessions. *)
Example calculate_sessions_half_hour :
  calculate_sessions [0; 1800000000; 9000000000] one_hour
  = [session_of 0 1800000000 2; session_of 9000000000 9000000000 1].
Proof. vm_compute. reflexivity. Qed.

Lemma hours_same a : hours a a = S754_zero false.
Proof. unfold hours. rewrite Z.sub_diag. vm_compute. reflexivity. Qed.

(** X22: a session of a single commit starts and ends at that commit
    and lasts zero hours: a commit that stands alone adds nothing to the
    development time. *)
Theorem single_commit_session (timestamps : list Z) (gap_threshold_hours : float)
    (s : Session.t) :
  s ∈ calculate_sessions timestamps gap_threshold_hours ->
  Session.commits s = 1 ->
  Session.start s = Session.end_ s /\ Session.duration s = S754_zero false.
Proof.
  intros Hin Hc.
  destruct timestamps as [|t0 rest]; [by apply elem_of_nil in Hin|].
  destruct (sessions_loop_covers gap_threshold_hours rest [t0] t0 t0 1)
    as (first & sessions & chunks & Hloop & _ & _ & Hcov & _); [done..|].
  unfold calculate_sessions in Hin. rewrite Hloop in Hin.
  apply list_elem_of_lookup in Hin as [i Hi].
  destruct (Forall2_lookup_l _ _ _ _ _ Hcov Hi) as (chunk & _ & Hs).
  destruct Hs as (Hh & Hl & Hn & Hd & _). rewrite Hc in Hn.
  destruct chunk as [|x [|y chunk]]; simpl in Hn; try lia.
  injection Hh as Hh. injection Hl as Hl.
  assert (E : Session.start s = Session.end_ s) by congruence.
  split; [done|]. rewrite Hd, E. apply hours_same.
Qed.

Lemma single_commit_session_witness :
  Session.start (session_of 9000000000 9000000000 1)
  = Session.end_ (session_of 9000000000 9000000000 1)
  /\ Session.duration (session_of 9000000000 9000000000 1) = S754_zero false.
Proof.
  apply (single_commit_session [0; 1800000000; 9000000000] one_hour).
  - rewrite calculate_sessions_half_hour. apply elem_of_cons. right.
    apply elem_of_cons. by left.
  - reflexivity.
Defined.

Lemma sessions_loop_sorted thr rest prev s c :
  s <= prev -> StronglySorted Z.le (prev :: rest) ->
  exists first sessions,
    sessions_loop thr prev rest s prev c [] = first :: sessions
    /\ Session.start first = s
    /\ Forall (fun x => Session.start x <= Session.end_ x) (first :: sessions)
    /\ chronological (first :: sessions).
Proof.
  revert prev s c. induction rest as [|t rest IH]; intros prev s c Hs Hsorted.
  - exists (session_of s prev c), []. simpl. split; [done|]. split; [done|].
    split; [|done]. by repeat constructor.
  - apply StronglySorted_inv in Hsorted as [Hsorted Hprev].
    apply Forall_cons in Hprev as [Hpt _].
    cbn [sessions_loop]. destruct (SFleb (hours prev t) thr).
    + apply IH; [lia|done].
    + destruct (IH t t 1) as (first & sessions & Hloop & Hstart & Hall & Hchr);
        [lia|done|].
      rewrite sessions_loop_acc, Hloop.
      exists (session_of s prev c), (first :: sessions).
      split; [done|]. split; [done|]. split; [by constructor|].
      split; [|done]. simpl. lia.
Qed.

(** X23: on timestamps in ascending order, as [get_git_timestamps]
    returns them, no session ends before it starts, and each session ends
    before the next one starts: the sessions are disjoint stretches of
    time in chronological order. *)
Theorem calculate_sessions_chronological (timestamps : list Z)
    (gap_threshold_hours : float) :
  StronglySorted Z.le timestamps ->
  Forall (fun s => Session.start s <= Session.end_ s)
    (calculate_sessions timestamps gap_threshold_hours)
  /\ chronological (calculate_sessions timestamps gap_threshold_hours).
Proof.
  intros Hsorted. destruct timestamps as [|t0 rest]; [done|].
  destruct (sessions_loop_sorted gap_threshold_hours rest t0 t0 1)
    as (first & sessions & Hloop & _ & Hall & Hchr); [lia|done|].
  unfold calculate_sessions. by rewrite Hloop.
Qed.

Lemma calculate_sessions_chronological_witness :
  Forall (fun s => Session.start s <= Session.end_ s)
    (calculate_sessions [0; 1800000000; 9000000000] one_hour)
  /\ chronological (calculate_sessions [0; 1800000000; 9000000000] one_hour).
Proof.
  apply (calculate_sessions_chronological [0; 1800000000; 9000000000] one_hour).
  repeat constructor; lia.
Defined.

(** ** What the ARSC pattern captures *)

Lemma arsc_group s g x :
  run (Group 1 lazy_any)
    (run (Seq [Alt (Seq [Chr LF; Star true space; Chr LF]) Eos])
       (fun _ g => Some g)) s g = Some x ->
  exists t after,
    s = t ++ after /\ x = (1%nat, t) :: g
    /\ (after = [] \/ after = [LF]
        \/ exists ws rest,
             after = LF :: ws ++ LF :: rest
             /\ Forall (fun c => is_space c = true) ws)
    /\ (forall t1 ws t2, t = t1 ++ LF :: ws ++ LF :: t2 ->
          ~ Forall (fun c => is_space c = true) ws).
Proof.
  intros H.
  set (K := run (Seq [Alt (Seq [Chr LF; Star true space; Chr LF]) Eos])
              (fun _ g => Some g)) in *.
  change (star_loop false (run (Set_ [AAny]))
            (fun s' g' => K s' ((1%nat, take (length s - length s') s) :: g'))
            (length s) s g = Some x) in H.
  apply star_lazy_any_first in H as (t & after & -> & Hk & Hbefore).
  rewrite take_prefix in Hk.
  assert (Hx : x = (1%nat, t) :: g).
  { unfold K in Hk. apply run_no_groups in Hk as [s3 [= ->]]; done. }
  exists t, after. split; [done|]. split; [done|].
  split; [unfold K in Hk; by eapply arsc_end_shape|].
  intros t1 ws t2 -> Hws.
  specialize (Hbefore t1 LF (ws ++ LF :: t2) eq_refl).
  unfold K in Hbefore. cbn [Seq] in Hbefore.
  change (run (Alt (Seq [Chr LF; Star true space; Chr LF]) Eos)
            (run Eps (fun _ g => Some g)) (LF :: (ws ++ LF :: t2) ++ after)
            ((1%nat, take (length ((t1 ++ LF :: ws ++ LF :: t2) ++ after)
                           - length (LF :: (ws ++ LF :: t2) ++ after))
                       ((t1 ++ LF :: ws ++ LF :: t2) ++ after)) :: g) = None)
    in Hbefore.
  replace ((ws ++ LF :: t2) ++ after) with (ws ++ LF :: t2 ++ after) in Hbefore
    by (by rewrite <- app_assoc).
  match type of Hbefore with
  | run _ _ _ ?G = None =>
      destruct (end_blank_line Eos (run Eps (fun _ g => Some g)) ws
                  (t2 ++ after) G) as [y Hy];
        [intros s' g'; simpl; eauto|done|]
  end.
  congruence.
Qed.

(** The end of the ARSC pattern matches where the text ends, so the
    lazy group and the end find a way in every text. *)
Lemma arsc_group_some s g :
  is_Some (run (Seq [Group 1 lazy_any;
                     Alt (Seq [Chr LF; Star true space; Chr LF]) Eos])
             (fun _ g => Some g) s g).
Proof.
  rewrite <- (app_nil_r s).
  change (is_Some (run (Group 1 lazy_any)
            (run (Alt (Seq [Chr LF; Star true space; Chr LF]) Eos)
               (run Eps (run Eps (fun _ g => Some g)))) (s ++ []) g)).
  apply run_group_lazy_some. intros g'. simpl. eauto.
Qed.

Lemma arsc_re_group content m :
  search arsc_re content = Some m ->
  exists pre head t after,
    content = pre ++ u "ARSC" ++ head ++ LF :: t ++ after
    /\ m = [(1%nat, t)]
    /\ table_head head
    /\ (after = [] \/ after = [LF]
        \/ exists ws rest,
             after = LF :: ws ++ LF :: rest
             /\ Forall (fun c => is_space c = true) ws)
    /\ (forall t1 ws t2, t = t1 ++ LF :: ws ++ LF :: t2 ->
          ~ Forall (fun c => is_space c = true) ws).
Proof.
  intros H. apply search_run in H as (pre & s' & -> & H).
  change arsc_re with
    (Seq ([Lit (u "ARSC"); Plus space; Chr BOX_V; lazy_any; Chr LF; lazy_any;
           border; lazy_any; Chr LF]
          ++ [Group 1 lazy_any;
              Alt (Seq [Chr LF; Star true space; Chr LF]) Eos])) in H.
  apply table_head_run in H
    as (ws & h1 & h2 & h3 & s4 & -> & Hws & Hh1 & Hh2 & H & Hh3).
  change (run (Group 1 lazy_any)
            (run (Seq [Alt (Seq [Chr LF; Star true space; Chr LF]) Eos])
               (fun _ g => Some g)) s4 [] = Some m) in H.
  apply arsc_group in H as (t & after & -> & -> & Hend & Hin).
  exists pre, (ws ++ BOX_V :: h1 ++ LF :: h2 ++ [BOX_H; BOX_H; BOX_H] ++ h3),
    t, after.
  split; [done|]. split; [done|]. split; [|done].
  exists ws, h1, h2, h3. split; [done|]. split; [done|]. split; [done|].
  split; [|done].
  intros Hlf. apply list_elem_of_split in Hlf as (t1 & t2 & ->).
  specialize (Hh3 t1 t2 eq_refl).
  destruct (arsc_group_some (t2 ++ LF :: t ++ after) []) as [y Hy].
  congruence.
Qed.

(** X24: behind the title ARSC, its line and the line of the first
    border rule after it, the ARSC pattern captures the rows up to the
    first line break that a blank line follows, or to where the text ends
    (a last line break left out); the captured rows hold no blank line
    themselves. *)
Theorem arsc_rows_until_blank_line (content : str) (m : caps) :
  search arsc_re content = Some m ->
  exists pre head t after,
    content = pre ++ u "ARSC" ++ head ++ LF :: t ++ after
    /\ m = [(1%nat, t)]
    /\ table_head head
    /\ (after = [] \/ after = [LF]
        \/ exists ws rest,
             after = LF :: ws ++ LF :: rest
             /\ Forall (fun c => is_space c = true) ws)
    /\ (forall t1 ws t2, t = t1 ++ LF :: ws ++ LF :: t2 ->
          ~ Forall (fun c => is_space c = true) ws).
Proof. apply arsc_re_group. Qed.

Lemma arsc_rows_until_blank_line_witness :
  exists pre head t after,
    sample_report = pre ++ u "ARSC" ++ head ++ LF :: t ++ after
    /\ [(1%nat, u " configs │ 108 │ 108 │ 0
 entries │ 4,052 │ 4,060 │ +8")] = [(1%nat, t)]
    /\ table_head head
    /\ (after = [] \/ after = [LF]
        \/ exists ws rest,
             after = LF :: ws ++ LF :: rest
             /\ Forall (fun c => is_space c = true) ws)
    /\ (forall t1 ws t2, t = t1 ++ LF :: ws ++ LF :: t2 ->
          ~ Forall (fun c => is_space c = true) ws).
Proof.
  apply (arsc_rows_until_blank_line sample_report).
  vm_compute. reflexivity.
Defined.

(** ** Which reports the parser accepts, and which it rejects *)

Lemma digit_count_cons_le c a b :
  (digit_count a <= digit_count b)%nat ->
  (digit_count a <= digit_count (c :: b))%nat
  /\ (digit_count (c :: a) <= digit_count (c :: b))%nat.
Proof.
  intros H. destruct (is_digit c) eqn:Hc.
  - rewrite !digit_count_cons_digit by done. lia.
  - rewrite !digit_count_cons_other by done. lia.
Qed.

Lemma digit_count_strip t : (digit_count (strip t) <= digit_count t)%nat.
Proof.
  destruct (strip_split t) as (ws1 & ws2 & E & _). rewrite E at 2.
  rewrite !digit_count_app. lia.
Qed.

Lemma digit_count_split sep s line :
  line ∈ split sep s -> (digit_count line <= digit_count s)%nat.
Proof.
  revert line. induction s as [|c s IH]; intros line; simpl.
  - intros Hin. apply list_elem_of_singleton in Hin as ->. done.
  - destruct (c =? sep)%N.
    + intros Hin. apply elem_of_cons in Hin as [->|Hin].
      * unfold digit_count at 1. simpl. lia.
      * by apply digit_count_cons_le, IH.
    + destruct (split sep s) as [|cell cells] eqn:E.
      * by apply split_not_nil in E.
      * intros Hin. apply elem_of_cons in Hin as [->|Hin].
        -- apply digit_count_cons_le, IH. left.
        -- apply digit_count_cons_le, IH. by right.
Qed.

Lemma digit_count_cell i line :
  (digit_count (cell i (row_cells line)) <= digit_count line)%nat.
Proof.
  unfold cell, row_cells.
  destruct (le_lt_dec (length (split BOX_V line)) i) as [Hi|Hi].
  - rewrite nth_overflow by (by rewrite length_map).
    unfold digit_count at 1. simpl. lia.
  - change (@nil N) with (strip []) at 1. rewrite map_nth.
    etrans; [apply digit_count_strip|].
    apply digit_count_split with BOX_V.
    by apply nth_elem_of.
Qed.

(** A row of a count table raises only when [int] refuses the digits of
    its third cell. *)
Lemma count_row_exn known line metrics e :
  count_row known line metrics = raise e ->
  exists n, e = ValueError_int_limit n
            /\ (int_max_str_digits < n <= digit_count line)%nat.
Proof.
  unfold count_row. fold (row_cells line).
  destruct (contains BOX_V line); simpl; [|done].
  destruct (length (row_cells line) <? 3)%nat; [done|].
  destruct (bool_decide _); [|done].
  destruct (parse_number_value (cell 2 (row_cells line))) as [e'|v] eqn:Hp;
    simpl; [|by destruct v].
  intros [= <-]. apply parse_number_value_exn in Hp as [-> Hn].
  eexists. split; [done|].
  pose proof (first_integer_digits_le (cell 2 (row_cells line))).
  pose proof (digit_count_cell 2 line). lia.
Qed.

Lemma count_rows_exn known lines metrics e :
  for_each (count_row known) lines metrics = raise e ->
  exists n line,
    line ∈ lines /\ e = ValueError_int_limit n
    /\ (int_max_str_digits < n <= digit_count line)%nat.
Proof.
  revert metrics. induction lines as [|line lines IH]; intros metrics; [done|].
  simpl. intros H. apply ebind_raise in H as [H|(metrics' & _ & H)].
  - apply count_row_exn in H as (n & -> & Hn). exists n, line.
    split; [left|done].
  - destruct (IH _ H) as (n & l & Hl & Hrest). exists n, l.
    split; [by right|done].
Qed.

Lemma table_lines_digit_count t line :
  line ∈ table_lines [(1%nat, t)] -> (digit_count line <= digit_count t)%nat.
Proof.
  unfold table_lines. change (group_of 1 [(1%nat, t)]) with t. intros H.
  etrans; [by eapply digit_count_split|]. apply digit_count_strip.
Qed.

Lemma count_table_exn content known t pre mid post e :
  content = pre ++ mid ++ LF :: t ++ post ->
  for_each (count_row known) (table_lines [(1%nat, t)]) ∅ = raise e ->
  exists n, e = ValueError_int_limit n
            /\ (int_max_str_digits < n <= digit_count content)%nat.
Proof.
  intros -> H. apply count_rows_exn in H as (n & line & Hl & -> & Hn).
  apply table_lines_digit_count in Hl.
  exists n. split; [done|].
  rewrite !digit_count_app.
  pose proof (proj1 (digit_count_cons_le LF (t ++ post) (t ++ post) (le_n _))).
  rewrite digit_count_app in *. lia.
Qed.

(** [int] refuses a version code only when it has more digits than the
    limit allows. *)
Lemma version_code_exn content m i e :
  search version_code_re content = Some m -> i = 1%nat \/ i = 2%nat ->
  py_int (group_of i m) = raise e ->
  exists n, e = ValueError_int_limit n
            /\ (int_max_str_digits < n <= digit_count content)%nat.
Proof.
  intros Hm Hi H. apply search_run in Hm as (pre & s & -> & Hrun).
  destruct (version_code_re_backward _ _ Hrun) as (d1 & d2 & Hrow & ->).
  destruct Hrow
    as (ws1 & ws2 & ws3 & ws4 & post & -> & _ & _ & Hd1 & _ & _ & Hd2 & _).
  assert (Hd : exists d, group_of i [(2%nat, d2); (1%nat, d1)] = d /\ numeral d
             /\ (length d <= digit_count
                   (pre ++ u "version code" ++ ws1 ++ BOX_V :: ws2 ++ d1 ++ ws3
                    ++ BOX_V :: ws4 ++ d2 ++ post))%nat).
  { pose proof (proj2 Hd1) as H1. pose proof (proj2 Hd2) as H2.
    apply digit_count_digits in H1, H2.
    pose proof (proj1 (digit_count_cons_le BOX_V (ws4 ++ d2 ++ post)
                         (ws4 ++ d2 ++ post) (le_n _))) as Hb4.
    pose proof (proj1 (digit_count_cons_le BOX_V
                         (ws2 ++ d1 ++ ws3 ++ BOX_V :: ws4 ++ d2 ++ post)
                         (ws2 ++ d1 ++ ws3 ++ BOX_V :: ws4 ++ d2 ++ post)
                         (le_n _))) as Hb2.
    rewrite !digit_count_app in *.
    destruct Hi as [-> | ->]; [exists d1|exists d2];
      (split; [reflexivity|]); (split; [done|]); lia. }
  destruct Hd as (d & Hg & Hnum & Hlen). rewrite Hg in H.
  destruct (py_int_numeral d Hnum) as (k & _ & E). rewrite E in H.
  destruct (int_max_str_digits <? length d)%nat eqn:Hlt; [|discriminate].
  apply Nat.ltb_lt in Hlt. injection H as <-. eexists. split; [done|lia].
Qed.

(** What makes the body of the parser raise: a size of the APK table
    that [float] rejects, or a number of more digits than [int]
    converts. *)
Lemma parse_body_exn name content e :
  parse_body name content = raise e ->
  has_header content
  /\ ((exists m, search apk_re content = Some m
         /\ for_each apk_row (table_lines m) no_sizes = raise e)
      \/ exists n, e = ValueError_int_limit n
           /\ (int_max_str_digits < n <= digit_count content)%nat).
Proof.
  unfold parse_body.
  destruct (search version_re content) as [vm|] eqn:Hvm; [|done].
  cbv zeta. intros H. split; [by eapply search_version_re_header|].
  apply ebind_raise in H as [H|(oc & _ & H)].
  { right. destruct (search version_code_re content) as [m|] eqn:E; [|done].
    apply ebind_raise in H as [H|(n & _ & H)]; [|done].
    eapply version_code_exn; [exact E|by left|exact H]. }
  apply ebind_raise in H as [H|(nc & _ & H)].
  { right. destruct (search version_code_re content) as [m|] eqn:E; [|done].
    apply ebind_raise in H as [H|(n & _ & H)]; [|done].
    eapply version_code_exn; [exact E|by right|exact H]. }
  apply ebind_raise in H as [H|(sizes & _ & H)].
  { left. destruct (search apk_re content) as [m|]; [by exists m|done]. }
  right. apply ebind_raise in H as [H|(dx & _ & H)].
  { destruct (search dex_re content) as [m|] eqn:E; [|done].
    apply dex_re_group in E as (pre & head & t & after & Hc & -> & _).
    eapply (count_table_exn content dex_names t pre (u "DEX" ++ head));
      [|exact H].
    by rewrite <- !app_assoc. }
  apply ebind_raise in H as [H|(ar & _ & H)]; [|done].
  destruct (search arsc_re content) as [m|] eqn:E; [|done].
  apply arsc_re_group in E as (pre & head & t & after & Hc & -> & _).
  eapply (count_table_exn content arsc_names t pre (u "ARSC" ++ head));
    [|exact H].
  by rewrite <- !app_assoc.
Qed.

Lemma parse_body_ok name content res :
  has_header content -> parse_body name content = ok res ->
  exists r, res = (Some r, []).
Proof.
  intros Hh. apply has_header_search in Hh as [vm Hvm].
  unfold parse_body. rewrite Hvm. cbv zeta. intros H.
  apply ebind_ok in H as (oc & _ & H). apply ebind_ok in H as (nc & _ & H).
  apply ebind_ok in H as (sz & _ & H). apply ebind_ok in H as (dx & _ & H).
  apply ebind_ok in H as (ar & _ & H). injection H as <-. by eexists.
Qed.

(** A report with a header and no more digits than [int] converts is
    accepted unless the loop over the APK table raises; the parser then
    logs nothing. *)
Lemma parse_body_accepts name content :
  has_header content ->
  (digit_count content <= int_max_str_digits)%nat ->
  (forall m, search apk_re content = Some m ->
     exists sizes, for_each apk_row (table_lines m) no_sizes = ok sizes) ->
  exists r, parse_body name content = ok (Some r, []).
Proof.
  intros Hh Hd Hapk. destruct (parse_body name content) as [e|res] eqn:E.
  - apply parse_body_exn in E as (_ & [(m & Hm & E)|(n & _ & Hn)]); [|lia].
    destruct (Hapk m Hm) as [sizes Hs]. rewrite Hs in E. discriminate.
  - destruct (parse_body_ok _ _ _ Hh E) as [r ->]. by exists r.
Qed.

(** Without an APK table every such report is accepted, and the tables
    of the sections that are absent are empty. *)
Lemma parse_body_without_apk name content :
  has_header content ->
  (digit_count content <= int_max_str_digits)%nat ->
  search apk_re content = None ->
  exists r,
    parse_body name content = ok (Some r, [])
    /\ apk_sizes r = no_sizes
    /\ (search dex_re content = None -> dex_metrics r = ∅)
    /\ (search arsc_re content = None -> arsc_metrics r = ∅).
Proof.
  intros Hh Hd Ha. destruct (parse_body_accepts name content Hh Hd) as [r Hr].
  { intros m Hm. congruence. }
  exists r. split; [done|].
  destruct (absent_sections_empty _ _ _ _ Hr) as (H1 & H2 & H3). auto.
Qed.



(** The third reason does occur: a version code of 4301 digits makes
    [int] raise, and the report is rejected with the message of the
    limit. *)
Example long_code_report_rejected :
  parse_diffuse_slim_report (u "long.txt") long_code_report
  = (None,
     [LogError
        (u "Failed to parse long.txt: Exceeds the limit (4300 digits) for integer string conversion: value has 4301 digits; use sys.set_int_max_str_digits() to increase the limit")]).
Proof. vm_compute. reflexivity. Qed.
